(** * SiEPIC Photonics Package: the calibration and extraction core

    A shallow embedding of [SiEPIC_Photonics_Package/core.py]:
    [calibrate], [baseline_correction], [calibrate_envelope], [cutback],
    [find_nearest] and [bandwidth].

    Numbers.  The Python code computes on IEEE doubles; here every float is
    an exact rational ([Q]), so the statements are those of exact
    arithmetic.  Equality of rationals is [Qeq] ([==]); lists of rationals
    are compared element-wise with [Forall2 Qeq] unless a statement says
    that two lists are the same term.

    Failures.  A Python call either returns a value or raises; a [while]
    loop may also fail to terminate.  The three outcomes are the
    constructors of [result].

    numpy.  [numpy.mean], [numpy.polyval], [numpy.transpose], [numpy.size],
    [numpy.where] and the array operators are small enough to be written
    out.  [numpy.polyfit] is a least-squares solver of another library: the
    functions of [core.py] take it as a parameter and the theorems assume
    what it does ([polyfit_contract]): the [TypeError] on empty or
    mismatched arrays, the [LinAlgError] on abscissae that are all zero,
    and a least-squares fit otherwise.  [lstsq_polyfit] computes, in exact
    arithmetic, what [numpy.polyfit] computes: it is proved to meet the
    contract, and among the minimisers it returns the one of least scaled
    norm, as numpy does.  The instances of the theorems and the examples
    are computed with it. *)

From Stdlib Require Import QArith Qabs ZArith List Lia Lqa Bool Sorted.
Import ListNotations.

Open Scope Q_scope.

(** ** Outcomes of a Python call *)

Inductive exn : Type :=
| IndexError
| TypeError
| ValueError
| ZeroDivisionError
| LinAlgError.

Inductive result (A : Type) : Type :=
| Ok (a : A)
| Raise (e : exn)
| Diverge.

Arguments Ok {A} a.
Arguments Raise {A} e.
Arguments Diverge {A}.

Definition bind {A B : Type} (r : result A) (k : A -> result B) : result B :=
  match r with
  | Ok a => k a
  | Raise e => Raise e
  | Diverge => Diverge
  end.

Notation "x <- r ;; k" := (bind r (fun x => k))
  (at level 61, r at next level, right associativity).
Notation "' p <- r ;; k" := (bind r (fun x => match x with p => k end))
  (at level 61, p pattern, r at next level, right associativity).

(** ** Arithmetic on rationals *)

Definition Qltb (a b : Q) : bool := negb (Qle_bool b a).

Fixpoint qpow (x : Q) (n : nat) : Q :=
  match n with
  | O => 1
  | S n' => x * qpow x n'
  end.

Definition qsum (l : list Q) : Q := fold_right Qplus 0 l.

(** ** numpy: size, mean, centring, polyval *)

Definition size (a : list Q) : Z := Z.of_nat (length a).

(** [numpy.mean(a)].  On an empty array numpy returns [nan] (with a
    warning); here the quotient by zero is [0].  The code only ever
    subtracts the mean of an array from that same array, so on an empty
    array the value is never looked at. *)
Definition mean (a : list Q) : Q := qsum a / inject_Z (size a).

(** [a - numpy.mean(a)] *)
Definition center (a : list Q) : list Q := map (fun v => v - mean a) a.

(** [numpy.polyval(p, x)] at one point: Horner's rule, highest power first. *)
Definition polyval1 (p : list Q) (x : Q) : Q :=
  fold_left (fun acc c => acc * x + c) p 0.

(** [numpy.polyval(p, x)] on an array *)
Definition polyval (p : list Q) (x : list Q) : list Q := map (polyval1 p) x.

(** ** numpy.polyfit: the contract *)

(** The value at [x] of the polynomial with the coefficients [p], highest
    power first: [p[0] * x^(n-1) + ... + p[n-2] * x + p[n-1]].  This is the
    polynomial of the statements; [polyval1] is the way numpy computes
    it. *)
Fixpoint power_sum (p : list Q) (x : Q) : Q :=
  match p with
  | [] => 0
  | c :: p' => c * qpow x (length p') + power_sum p' x
  end.

(** The squared error of the polynomial [p] on the points [(x, y)]. *)
Definition sq_error (p : list Q) (s : Q * Q) : Q :=
  (snd s - power_sum p (fst s)) * (snd s - power_sum p (fst s)).

Definition sse (p x y : list Q) : Q := qsum (map (sq_error p) (combine x y)).

(** [p] is a least-squares fit of degree [deg]: it has [deg + 1]
    coefficients and no other such vector has a smaller squared error. *)
Definition least_squares (x y : list Q) (deg : nat) (p : list Q) : Prop :=
  length p = S deg /\
  forall p', length p' = S deg -> sse p x y <= sse p' x y.

(** Every abscissa is zero. *)
Definition all_zero (x : list Q) : Prop := Forall (fun v => v == 0) x.

(** What [numpy.polyfit(x, y, deg)] does on one-dimensional arrays.

    - It raises [TypeError] on an empty [x] and when [x] and [y] differ in
      length; these tests come first.
    - It divides every column [x^k] of the Vandermonde matrix by its
      Euclidean norm before it solves.  When every abscissa is zero the
      columns of the positive powers have the norm 0, the division gives
      [nan], and the solver raises [LinAlgError]: this is the outcome for
      [deg >= 1] on abscissae that are all zero, in particular on a
      centred axis of one sample or of equal samples.
    - Otherwise it returns a vector of [deg + 1] coefficients, highest
      power first, that minimises the squared error.  Fewer points than
      coefficients is not an error (numpy warns that the fit may be poorly
      conditioned and returns one of the minimisers). *)
Definition polyfit_contract
    (polyfit : list Q -> list Q -> nat -> result (list Q)) : Prop :=
  forall x y deg,
    (x = [] -> polyfit x y deg = Raise TypeError) /\
    (x <> [] -> length x <> length y -> polyfit x y deg = Raise TypeError) /\
    (x <> [] -> length x = length y -> deg <> 0%nat -> all_zero x ->
       polyfit x y deg = Raise LinAlgError) /\
    (x <> [] -> length x = length y -> deg = 0%nat \/ ~ all_zero x ->
       exists p, polyfit x y deg = Ok p /\ least_squares x y deg p).

(** ** An exact least-squares solver

    The solver works on the list of sample points [(x, y)] and on
    functions of a sample, so that no vector has a length to keep track
    of.  Coefficient vectors are lowest power first inside the solver. *)

Module Lstsq.

Definition samples := list (Q * Q).

(** sum over the samples of [f s * g s] *)
Fixpoint dot (S : samples) (f g : Q * Q -> Q) : Q :=
  match S with
  | [] => 0
  | s :: S' => Qred (f s * g s + dot S' f g)
  end.

(** [c0 * x^j + c1 * x^(j+1) + ...] *)
Fixpoint pev (j : nat) (c : list Q) (x : Q) : Q :=
  match c with
  | [] => 0
  | a :: c' => a * qpow x j + pev (S j) c' x
  end.

Definition col (j : nat) : Q * Q -> Q := fun s => qpow (fst s) j.
Definition fitv (c : list Q) : Q * Q -> Q := fun s => pev 0 c (fst s).

Fixpoint csub (a b : list Q) : list Q :=
  match a, b with
  | u :: a', v :: b' => Qred (u - v) :: csub a' b'
  | _, _ => []
  end.

Definition cscale (k : Q) (a : list Q) : list Q := map (fun v => k * v) a.

(** [lsq S m t]: the [m] coefficients of a least-squares fit of the target
    [t] by polynomials of degree below [m].  The fit of degree [j] is the
    fit of degree [j - 1] plus a multiple of what is left of [x^j] once
    its own fit of degree [j - 1] is taken away. *)
Fixpoint lsq (S : samples) (m : nat) (t : Q * Q -> Q) : list Q :=
  match m with
  | O => []
  | Datatypes.S j =>
      let f := lsq S j t in
      let g := lsq S j (col j) in
      let u := fun s => col j s - fitv g s in
      let k := Qred (dot S t u / dot S u u) in
      csub f (cscale k g) ++ [k]
  end.

(** what the coefficients [c] leave of the target [t] *)
Definition res (t : Q * Q -> Q) (c : list Q) : Q * Q -> Q :=
  fun s => t s - fitv c s.

End Lstsq.

(** ** The minimiser numpy returns

    With fewer different abscissae than coefficients the squared error has
    many minimisers.  [numpy.polyfit] divides column [x^e] of the
    Vandermonde matrix by its norm and takes the solution of least
    Euclidean norm of the scaled problem: among the minimisers [c] it
    returns the one with the least [sum_e w_e * c_e^2], where
    [w_e = sum_i x_i^(2 e)].  That minimiser is [c_e = (sum_a z_a^e *
    l_a) / w_e] over the different abscissae [z_a], where [l] solves the
    linear system [K l = f] with [K_ab = sum_e z_a^e * z_b^e / w_e] and
    [f_a] the fitted value at [z_a]. *)

Module MinNorm.

(** the different values of [x] *)
Fixpoint nodes (x : list Q) : list Q :=
  match x with
  | [] => []
  | a :: x' => if existsb (Qeq_bool a) x' then nodes x' else a :: nodes x'
  end.

Definition weight (x : list Q) (e : nat) : Q :=
  Qred (qsum (map (fun v => qpow v e * qpow v e) x)).

Definition kernel (x : list Q) (exps : list nat) (a b : Q) : Q :=
  Qred (qsum (map (fun e => qpow a e * qpow b e / weight x e) exps)).

(** Gaussian elimination on the rows [K_a1 ... K_ar f_a] of a system with
    a positive definite matrix: no pivot is zero. *)
Fixpoint solve (fuel : nat) (rows : list (list Q)) : list Q :=
  match fuel, rows with
  | Datatypes.S fuel', (p :: prow) :: others =>
      let reduce := fun row =>
        match row with
        | [] => []
        | a :: rest =>
            map (fun uv => Qred (fst uv - a / p * snd uv)) (combine rest prow)
        end in
      let sol := solve fuel' (map reduce others) in
      let known := qsum (map (fun cv => fst cv * snd cv) (combine prow sol)) in
      Qred ((last prow 0 - known) / p) :: sol
  | _, _ => []
  end.

Definition candidate (x : list Q) (deg : nat) (p : list Q) : list Q :=
  let z := nodes x in
  let exps := rev (seq 0 (S deg)) in
  let rows := map (fun a => map (kernel x exps a) z ++ [polyval1 p a]) z in
  let l := solve (length z) rows in
  map (fun e =>
         Qred (qsum (map (fun al => qpow (fst al) e * snd al) (combine z l))
               / weight x e)) exps.

(** [c] has as many coefficients as [p] and the same value at every
    abscissa. *)
Definition same_fit (x p c : list Q) : bool :=
  Nat.eqb (length c) (length p)
  && forallb (fun a => Qeq_bool (polyval1 c a) (polyval1 p a)) x.

(** From one minimiser [p] to the minimiser of least scaled norm.  With at
    least as many different abscissae as coefficients the minimiser is
    unique.  The candidate is returned only after the test that it fits
    as [p] does: it is then a minimiser of the squared error, and it has
    the least scaled norm among them ([candidate_least_norm]). *)
Definition least_norm (x : list Q) (deg : nat) (p : list Q) : list Q :=
  if (S deg <=? length (nodes x))%nat then p
  else let c := candidate x deg p in
       if same_fit x p c then c else p.

End MinNorm.

(** The solver behind the interface of [numpy.polyfit]: the tests on the
    arguments, the failure of the scaling on abscissae that are all zero,
    and the minimiser of least scaled norm. *)
Definition lstsq_polyfit (x y : list Q) (deg : nat) : result (list Q) :=
  match x with
  | [] => Raise TypeError
  | _ :: _ =>
      if Nat.eqb (length x) (length y)
      then if negb (Nat.eqb deg 0) && forallb (fun v => Qeq_bool v 0) x
           then Raise LinAlgError
           else Ok (MinNorm.least_norm x deg
                      (rev (Lstsq.lsq (combine x y) (S deg) snd)))
      else Raise TypeError
  end.

(** The scaled norm that [numpy.polyfit] minimises: the sum of
    [w_e * c_e^2] over the coefficients, [c_e] the coefficient of
    [x^e]. *)
Fixpoint scaled_norm (x c : list Q) : Q :=
  match c with
  | [] => 0
  | a :: c' => MinNorm.weight x (length c') * (a * a) + scaled_norm x c'
  end.

(** ** Python sequences and numpy arrays *)

(** [a[i]] on a Python list or a numpy array: a negative index counts from
    the end, an index outside [-len, len) raises [IndexError]. *)
Definition getitem {A : Type} (a : list A) (i : Z) : result A :=
  let n := Z.of_nat (length a) in
  let k := (if i <? 0 then i + n else i)%Z in
  if ((0 <=? k) && (k <? n))%Z
  then match nth_error a (Z.to_nat k) with
       | Some v => Ok v
       | None => Raise IndexError
       end
  else Raise IndexError.

Fixpoint map2 (f : Q -> Q -> Q) (a b : list Q) : list Q :=
  match a, b with
  | u :: a', v :: b' => f u v :: map2 f a' b'
  | _, _ => []
  end.

(** [a - b] on one-dimensional arrays: element-wise on equal lengths, an
    array of length one is broadcast, other shapes raise [ValueError]. *)
Definition np_sub (a b : list Q) : result (list Q) :=
  if Nat.eqb (length a) (length b) then Ok (map2 Qminus a b)
  else match a, b with
       | _, [v] => Ok (map (fun u => u - v) a)
       | [u], _ => Ok (map (fun v => u - v) b)
       | _, _ => Raise ValueError
       end.

(** The builtin [max] on a sequence: the first of the largest elements;
    [ValueError] on an empty one. *)
Definition py_max (a : list Q) : result Q :=
  match a with
  | [] => Raise ValueError
  | v :: a' => Ok (fold_left (fun m u => if Qltb m u then u else m) a' v)
  end.

(** [a.argmin()]: the first index of the smallest element. *)
Fixpoint argmin_from (best : Q) (besti i : Z) (a : list Q) : Z :=
  match a with
  | [] => besti
  | v :: a' =>
      if Qltb v best then argmin_from v i (i + 1)%Z a'
      else argmin_from best besti (i + 1)%Z a'
  end.

Definition argmin (a : list Q) : result Z :=
  match a with
  | [] => Raise ValueError
  | v :: a' => Ok (argmin_from v 0%Z 1%Z a')
  end.

(** [numpy.where(a == v)[0]]: the indices at which [a] equals [v]. *)
Fixpoint where_eq (a : list Q) (v : Q) (i : Z) : list Z :=
  match a with
  | [] => []
  | u :: a' =>
      if Qeq_bool u v then i :: where_eq a' v (i + 1)%Z
      else where_eq a' v (i + 1)%Z
  end.

(** [numpy.transpose] of a list of rows of one length.  (The rows that
    [cutback] transposes all have the length of the wavelength axis, or two
    coefficients; on rows of different lengths the missing entries read
    [0] here.) *)
Definition transpose (rows : list (list Q)) : list (list Q) :=
  match rows with
  | [] => []
  | r :: _ =>
      map (fun j => map (fun row => nth j row 0) rows) (seq 0 (length r))
  end.

(** ** Loops *)

(** [while cond(s): s = body(s)], cut off after [fuel] tests of the
    condition.  Each use below comes with a bound on the number of
    iterations. *)
Fixpoint while {S : Type} (fuel : nat) (cond : S -> result bool)
    (body : S -> result S) (s : S) : result S :=
  match fuel with
  | O => Diverge
  | Datatypes.S fuel' =>
      c <- cond s ;;
      if c then s' <- body s ;; while fuel' cond body s' else Ok s
  end.

(** [for i in range(start, start + n): s = body(i, s)] *)
Fixpoint for_range {S : Type} (start : Z) (n : nat)
    (body : Z -> S -> result S) (s : S) : result S :=
  match n with
  | O => Ok s
  | Datatypes.S n' => s' <- body start s ;; for_range (start + 1)%Z n' body s'
  end.

(** ** core.py *)

(** A response is the two-element list [[wavelength, power]]: with
    [r = (wavelength, power)], [fst r] is [r[0]] and [snd r] is [r[1]]. *)
Definition trace : Type := (list Q * list Q)%type.

Record envelope : Type := {
  power_ref : list Q;
  wavelength_ref : list Q;
  cursor_initial : Z;
  cursor_next : Z;
  (** history variable, not in the code: the sample index
      [cursor_initial * step] of every point appended so far *)
  accepted : list Z
}.

Definition envelope_start : envelope :=
  {| power_ref := []; wavelength_ref := [];
     cursor_initial := 0; cursor_next := 1; accepted := [] |}.

Section Core.

Variable polyfit : list Q -> list Q -> nat -> result (list Q).

Definition calibrate (input_response reference_response : trace)
  : result (list Q * list Q) :=
  let fitOrder := 8%nat in
  let wavelength := fst reference_response in
  let power := snd reference_response in
  pfit <- polyfit (center wavelength) power fitOrder ;;
  let power_calib_fit := polyval pfit (center wavelength) in
  power_corrected <- np_sub (snd input_response) power_calib_fit ;;
  Ok (power_corrected, power_calib_fit).

Definition baseline_correction (input_response : trace)
  : result (list Q * list Q) :=
  let fitOrder := 4%nat in
  let wavelength := fst input_response in
  let power := snd input_response in
  pfit <- polyfit (center wavelength) power fitOrder ;;
  let power_baseline := polyval pfit (center wavelength) in
  power_corrected <- np_sub power power_baseline ;;
  max_baseline <- py_max power_baseline ;;
  max_power <- py_max power ;;
  let power_corrected :=
    map (fun v => v + max_baseline - max_power) power_corrected in
  Ok (power_corrected, power_baseline).

(** The inner [while] of [calibrate_envelope], with a bound on the
    number of rounds; the state is [(cursor_next, point_next)]. *)
Definition envelope_skip_loop (fuel : nat) (power : list Q) (step : Z)
    (difference_tol : Q) (point_initial : Q) (cursor_next : Z)
    (point_next : Q) : result (Z * Q) :=
  while fuel
    (fun s => Ok (Qltb difference_tol (Qabs (point_initial - snd s))
                  && ((fst s + 2) * step <? size power)%Z))
    (fun s =>
       let cursor_next := (fst s + 1)%Z in
       point_next <- getitem power (step * cursor_next) ;;
       Ok (cursor_next, point_next))
    (cursor_next, point_next).

(** When [step >= 1] the condition [(cursor_next + 2) * step < size]
    fails after fewer than [size] rounds, so [size + 1] tests are enough
    ([envelope_skip_returns]); with [step = 0] the Python loop does not
    end once it is entered ([envelope_skip_never_ends]). *)
Definition envelope_skip (power : list Q) (step : Z) (difference_tol : Q)
    (point_initial : Q) (cursor_next : Z) (point_next : Q)
  : result (Z * Q) :=
  envelope_skip_loop (S (length power)) power step difference_tol
    point_initial cursor_next point_next.

(** One round of the [for] loop of [calibrate_envelope]; the boolean
    tells whether the [break] is taken. *)
Definition envelope_round (wavelength power : list Q) (step : Z)
    (difference_tol : Q) (e : envelope) : result (envelope * bool) :=
  point_initial <- getitem power (cursor_initial e * step) ;;
  point_next <- getitem power (step * cursor_next e) ;;
  e' <- (if Qltb (Qabs (point_initial - point_next)) difference_tol
         then
           p <- getitem power (cursor_initial e * step) ;;
           w <- getitem wavelength (cursor_initial e * step) ;;
           Ok {| power_ref := power_ref e ++ [p];
                 wavelength_ref := wavelength_ref e ++ [w];
                 cursor_initial := cursor_initial e + 1;
                 cursor_next := cursor_next e + 1;
                 accepted := accepted e ++ [(cursor_initial e * step)%Z] |}
         else
           s <- envelope_skip power step difference_tol
                  point_initial (cursor_next e) point_next ;;
           Ok {| power_ref := power_ref e;
                 wavelength_ref := wavelength_ref e;
                 cursor_initial := fst s;
                 cursor_next := fst s + 1;
                 accepted := accepted e |}) ;;
  Ok (e', (size power <=? cursor_next e' * step)%Z).

Fixpoint envelope_loop (n : nat) (wavelength power : list Q) (step : Z)
    (difference_tol : Q) (e : envelope) : result envelope :=
  match n with
  | O => Ok e
  | S n' =>
      r <- envelope_round wavelength power step difference_tol e ;;
      if snd r then Ok (fst r)
      else envelope_loop n' wavelength power step difference_tol (fst r)
  end.

(** Step 1 of [calibrate_envelope]: [step = int(size(power) / seg)] and
    the scan that picks the envelope points. *)
Definition envelope_scan (reference_response : trace) (seg : Z)
    (difference_tol : Q) : result envelope :=
  let wavelength := fst reference_response in
  let power := snd reference_response in
  step <- (if (seg =? 0)%Z then Raise ZeroDivisionError
           else Ok (Z.quot (size power) seg)) ;;
  envelope_loop (Z.to_nat seg) wavelength power step difference_tol
    envelope_start.

Definition calibrate_envelope (input_response reference_response : trace)
    (seg : Z) (difference_tol : Q) (fitOrder : nat)
  : result (list Q * list Q) :=
  let wavelength := fst reference_response in
  let wavelength_input := fst input_response in
  let power_input := snd input_response in
  e <- envelope_scan reference_response seg difference_tol ;;
  pfit_ref <- polyfit (center (wavelength_ref e)) (power_ref e) fitOrder ;;
  let powerfit_ref := polyval pfit_ref (center wavelength) in
  pfit_input <- polyfit (center wavelength_input) power_input fitOrder ;;
  let powerfit_input := polyval pfit_input (center wavelength_input) in
  power_input_calibrated <- np_sub power_input powerfit_ref ;;
  Ok (power_input_calibrated, powerfit_ref).

(** [calibrate_envelope] with the two lines that compute [pfit_input] and
    [powerfit_input] taken out. *)
Definition calibrate_envelope_without_input_fit
    (input_response reference_response : trace)
    (seg : Z) (difference_tol : Q) (fitOrder : nat)
  : result (list Q * list Q) :=
  let wavelength := fst reference_response in
  let power_input := snd input_response in
  e <- envelope_scan reference_response seg difference_tol ;;
  pfit_ref <- polyfit (center (wavelength_ref e)) (power_ref e) fitOrder ;;
  let powerfit_ref := polyval pfit_ref (center wavelength) in
  power_input_calibrated <- np_sub power_input powerfit_ref ;;
  Ok (power_input_calibrated, powerfit_ref).

(** The first loop of [cutback].  The state is [(power, power_fit)]; the
    code reads back [power[i]] and [pfit[i]], the entries it has just
    appended. *)
Definition cutback_fit (input_data_response : list trace)
    (wavelength_data : list Q) (fitOrder : nat) (i : Z)
    (s : list (list Q) * list (list Q))
  : result (list (list Q) * list (list Q)) :=
  r <- getitem input_data_response i ;;
  let power_i := snd r in
  pfit_i <- polyfit (center wavelength_data) power_i fitOrder ;;
  Ok (fst s ++ [power_i],
      snd s ++ [polyval pfit_i (center wavelength_data)]).

(** The second loop of [cutback]; the state is
    [(insertion_loss, insertion_loss_raw)]. *)
Definition cutback_regress (input_data_count : list Q)
    (power_fit_transpose power_transpose : list (list Q)) (i : Z)
    (s : list (list Q) * list (list Q))
  : result (list (list Q) * list (list Q)) :=
  column_fit <- getitem power_fit_transpose i ;;
  loss <- polyfit input_data_count column_fit 1 ;;
  column <- getitem power_transpose i ;;
  loss_raw <- polyfit input_data_count column 1 ;;
  Ok (fst s ++ [loss], snd s ++ [loss_raw]).

Definition cutback (input_data_response : list trace)
    (input_data_count : list Z) (wavelength : Q)
  : result (Q * list Q * list Q) :=
  let fitOrder := 8%nat in
  first <- getitem input_data_response 0 ;;
  let wavelength_data := fst first in
  fits <- for_range 0 (length input_data_count)
            (cutback_fit input_data_response wavelength_data fitOrder)
            ([], []) ;;
  let power := fst fits in
  let power_fit := snd fits in
  let power_fit_transpose := transpose power_fit in
  let power_transpose := transpose power in
  index <- getitem (where_eq wavelength_data wavelength 0) 0 ;;
  losses <- for_range 0 (length wavelength_data)
              (cutback_regress (map inject_Z input_data_count)
                 power_fit_transpose power_transpose)
              ([], []) ;;
  let insertion_loss := fst losses in
  let insertion_loss_raw := snd losses in
  at_index <- getitem insertion_loss index ;;
  loss_at_wavelength <- getitem at_index 0 ;;
  loss_fit <- getitem (transpose insertion_loss) 0 ;;
  loss_raw <- getitem (transpose insertion_loss_raw) 0 ;;
  Ok (loss_at_wavelength, loss_fit, loss_raw).

End Core.

Definition find_nearest (array : list Q) (value : Q) : result Z :=
  argmin (map (fun v => Qabs (v - value)) array).

(** [isInBand = response > max(response) - threshold] *)
Definition band_mask (response : list Q) (peak threshold : Q) : list bool :=
  map (fun v => Qltb (peak - threshold) v) response.

(** [while isInBand[leftBound] == 1: leftBound = leftBound - 1] *)
Definition scan_left (isInBand : list bool) (fuel : nat) (start : Z)
  : result Z :=
  while fuel (getitem isInBand) (fun leftBound => Ok (leftBound - 1)%Z) start.

(** [while isInBand[rightBound] == 1: rightBound = rightBound + 1] *)
Definition scan_right (isInBand : list bool) (fuel : nat) (start : Z)
  : result Z :=
  while fuel (getitem isInBand) (fun rightBound => Ok (rightBound + 1)%Z)
    start.

(** The two loops move one index by one position per round and stop
    with [IndexError] outside [-len, len): starting inside, each makes at
    most [2 * len] moves ([scan_left_ends], [scan_right_ends]). *)
Definition bandwidth_fuel (isInBand : list bool) : nat :=
  S (S (2 * length isInBand)).

Definition bandwidth (input_data_response : trace) (threshold : Q)
  : result (Q * Q) :=
  let wavelength := fst input_data_response in
  let response := snd input_data_response in
  peak <- py_max response ;;
  center_index <- find_nearest response peak ;;
  peak' <- py_max response ;;
  let isInBand := band_mask response peak' threshold in
  leftBound <- scan_left isInBand (bandwidth_fuel isInBand) center_index ;;
  rightBound <- scan_right isInBand (bandwidth_fuel isInBand) center_index ;;
  w_right <- getitem wavelength rightBound ;;
  w_left <- getitem wavelength leftBound ;;
  let bandwidth := w_right - w_left in
  let central_wavelength := (w_right + w_left) / 2 in
  Ok (bandwidth, central_wavelength).

(** ** Predicates of the statements *)

(** The array has two different entries.  A wavelength axis that does not
    vary (one sample, or equal samples) is all zero once it is centred. *)
Definition varies (a : list Q) : Prop :=
  exists u v, In u a /\ In v a /\ ~ u == v.

(** The accepted sample [a] lies in the array and its power differs by
    less than the tolerance from the power one step further. *)
Definition close_to_next (power : list Q) (step : Z) (difference_tol : Q)
    (a : Z) : Prop :=
  (0 <= a)%Z /\
  exists pa pb,
    getitem power a = Ok pa /\ getitem power (a + step) = Ok pb /\
    Qabs (pa - pb) < difference_tol.

(** What holds of the envelope at the head of every round of the scan. *)
Definition envelope_inv (wavelength power : list Q) (step : Z)
    (difference_tol : Q) (e : envelope) : Prop :=
  (0 <= cursor_initial e)%Z /\
  cursor_next e = (cursor_initial e + 1)%Z /\
  StronglySorted Z.lt (accepted e) /\
  Forall (fun a => (a < cursor_initial e * step)%Z) (accepted e) /\
  Forall (close_to_next power step difference_tol) (accepted e) /\
  Forall2 (fun a p => getitem power a = Ok p) (accepted e) (power_ref e) /\
  Forall2 (fun a w => getitem wavelength a = Ok w) (accepted e)
    (wavelength_ref e).

(** The rows have [n] entries each, and every entry of the [i]-th row is
    [A - B * x_i]. *)
Definition on_line (n : nat) (A B : Q) (xs : list Q)
    (rows : list (list Q)) : Prop :=
  Forall2 (fun row x => length row = n /\
                        Forall (fun v => v == A - B * x) row) rows xs.

(** A pair of coefficients whose slope is [- B]. *)
Definition has_slope (B : Q) (loss : list Q) : Prop :=
  exists s t, loss = [s; t] /\ s == - B.

(** Two outcomes are the same up to [R] on the values: both return, with
    related values, or both raise the same exception, or both go on for
    ever. *)
Definition same_outcome {A : Type} (R : A -> A -> Prop)
    (r1 r2 : result A) : Prop :=
  match r1, r2 with
  | Ok a, Ok b => R a b
  | Raise e1, Raise e2 => e1 = e2
  | Diverge, Diverge => True
  | _, _ => False
  end.

(** Two pairs of lists of rationals that are equal entry by entry. *)
Definition Qeq_pair (a b : list Q * list Q) : Prop :=
  Forall2 Qeq (fst a) (fst b) /\ Forall2 Qeq (snd a) (snd b).

(* ================================================================== *)
(** * Proofs *)

(** ** The solver meets the contract *)

Module LstsqFacts.
Import Lstsq.

Section Samples.

Variable S : samples.

Lemma dot_ext (f f' g g' : Q * Q -> Q) :
  (forall s, In s S -> f s == f' s) ->
  (forall s, In s S -> g s == g' s) ->
  dot S f g == dot S f' g'.
Proof.
  induction S as [ | s S' IH]; cbn [dot In]; intros Hf Hg.
  - reflexivity.
  - rewrite !Qred_correct. rewrite IH by auto.
    rewrite (Hf s), (Hg s) by auto. reflexivity.
Qed.

Lemma dot_comm (f g : Q * Q -> Q) : dot S f g == dot S g f.
Proof.
  induction S as [ | s S' IH]; cbn [dot].
  - reflexivity.
  - rewrite !Qred_correct, IH. ring.
Qed.

Lemma dot_add_l (f h g : Q * Q -> Q) :
  dot S (fun s => f s + h s) g == dot S f g + dot S h g.
Proof.
  induction S as [ | s S' IH]; cbn [dot].
  - ring.
  - rewrite !Qred_correct, IH. ring.
Qed.

Lemma dot_sub_l (f h g : Q * Q -> Q) :
  dot S (fun s => f s - h s) g == dot S f g - dot S h g.
Proof.
  induction S as [ | s S' IH]; cbn [dot].
  - ring.
  - rewrite !Qred_correct, IH. ring.
Qed.

Lemma dot_scale_l (k : Q) (f g : Q * Q -> Q) :
  dot S (fun s => k * f s) g == k * dot S f g.
Proof.
  induction S as [ | s S' IH]; cbn [dot].
  - ring.
  - rewrite !Qred_correct, IH. ring.
Qed.

Lemma dot_self_nonneg (f : Q * Q -> Q) : 0 <= dot S f f.
Proof.
  induction S as [ | s S' IH]; cbn [dot].
  - lra.
  - rewrite Qred_correct. nra.
Qed.

Lemma dot_self_zero (f : Q * Q -> Q) :
  dot S f f == 0 -> forall s, In s S -> f s == 0.
Proof.
  induction S as [ | s S' IH]; cbn [dot In]; intros H0 s0 Hin.
  - contradiction.
  - rewrite Qred_correct in H0.
    assert (Hs : 0 <= f s * f s) by nra.
    assert (Hr : 0 <= dot S' f f).
    { clear. induction S' as [ | a l IHl]; cbn [dot]; [lra | ].
      rewrite Qred_correct. nra. }
    destruct Hin as [<- | Hin].
    + assert (Hz : f s * f s == 0) by lra.
      destruct (Qmult_integral _ _ Hz); assumption.
    + apply IH; [lra | exact Hin].
Qed.


Lemma pev_app (a b : list Q) (x : Q) : forall j,
  pev j (a ++ b) x == pev j a x + pev (j + length a) b x.
Proof.
  induction a as [ | u a IH]; intros j; cbn [pev app length].
  - rewrite Nat.add_0_r. ring.
  - rewrite IH. replace (Datatypes.S j + length a)%nat
      with (j + Datatypes.S (length a))%nat by lia. ring.
Qed.

Lemma pev_csub (x : Q) : forall a b j, length a = length b ->
  pev j (csub a b) x == pev j a x - pev j b x.
Proof.
  induction a as [ | u a IH]; intros [ | v b] j Hlen;
    cbn [pev csub length] in *; try discriminate.
  - ring.
  - rewrite Qred_correct, IH by congruence. ring.
Qed.

Lemma pev_cscale (k x : Q) : forall a j,
  pev j (cscale k a) x == k * pev j a x.
Proof.
  induction a as [ | u a IH]; intros j; cbn [pev cscale map].
  - ring.
  - fold (cscale k a). rewrite IH. ring.
Qed.

Lemma length_csub : forall a b, length a = length b ->
  length (csub a b) = length a.
Proof.
  induction a as [ | u a IH]; intros [ | v b] Hlen;
    cbn [csub length] in *; try discriminate; [reflexivity | ].
  f_equal. apply IH. congruence.
Qed.

Lemma length_lsq : forall m t, length (lsq S m t) = m.
Proof.
  induction m as [ | j IH]; intros t; cbn [lsq].
  - reflexivity.
  - rewrite length_app, length_csub.
    + rewrite IH. cbn [length]. lia.
    + unfold cscale. rewrite length_map, !IH. reflexivity.
Qed.

(** A function orthogonal to the powers [x^j .. x^(j + length c - 1)] is
    orthogonal to every polynomial built from them. *)
Lemma dot_span (w : Q * Q -> Q) : forall c j,
  (forall k, (k < length c)%nat -> dot S (col (j + k)) w == 0) ->
  dot S (fun s => pev j c (fst s)) w == 0.
Proof.
  induction c as [ | a c IH]; intros j H; cbn [pev].
  - clear. induction S as [ | s S' IHS]; cbn [dot]; [reflexivity | ].
    rewrite Qred_correct, IHS. ring.
  - rewrite (dot_add_l (fun s => a * qpow (fst s) j)
               (fun s => pev (Datatypes.S j) c (fst s)) w).
    rewrite (dot_scale_l a (col j) w).
    rewrite IH.
    + specialize (H 0%nat). rewrite Nat.add_0_r in H.
      rewrite H by (cbn [length]; lia). ring.
    + intros k Hk. specialize (H (Datatypes.S k)).
      replace (Datatypes.S j + k)%nat with (j + Datatypes.S k)%nat by lia.
      apply H. cbn [length]. lia.
Qed.

Lemma dot_res_fit (t : Q * Q -> Q) (c d : list Q) :
  (forall k, (k < length d)%nat -> dot S (res t c) (col k) == 0) ->
  dot S (res t c) (fitv d) == 0.
Proof.
  intros H. rewrite dot_comm. unfold fitv. apply dot_span.
  intros k Hk. cbn [Nat.add]. rewrite dot_comm. apply H. exact Hk.
Qed.

(** The normal equations: what [lsq] leaves of the target is orthogonal
    to every power below [m]. *)
Lemma lsq_orthogonal : forall m t k, (k < m)%nat ->
  dot S (res t (lsq S m t)) (col k) == 0.
Proof.
  induction m as [ | j IH]; intros t k Hk; [lia | ].
  cbn [lsq].
  set (f := lsq S j t). set (g := lsq S j (col j)).
  set (u := fun s => col j s - fitv g s).
  set (c := Qred (dot S t u / dot S u u)).
  assert (Hlf : length f = j) by apply length_lsq.
  assert (Hlg : length g = j) by apply length_lsq.
  assert (Hfit : forall s, res t (csub f (cscale c g) ++ [c]) s
                           == res t f s - c * u s).
  { intros s. unfold res, fitv, u, col.
    rewrite pev_app, pev_csub, pev_cscale.
    - rewrite length_csub.
      + rewrite Hlf. cbn [pev Nat.add]. unfold fitv. ring.
      + unfold cscale. rewrite length_map. congruence.
    - unfold cscale. rewrite length_map. congruence. }
  assert (Hsplit : forall w,
    dot S (res t (csub f (cscale c g) ++ [c])) w
    == dot S (res t f) w - c * dot S u w).
  { intros w.
    rewrite (dot_ext _ (fun s => res t f s - c * u s) w w);
      [ | intros; apply Hfit | reflexivity ].
    rewrite (dot_sub_l (res t f) (fun s => c * u s) w).
    rewrite (dot_scale_l c u w). reflexivity. }
  assert (Hu : forall i, (i < j)%nat -> dot S u (col i) == 0).
  { intros i Hi. apply (IH (col j) i Hi). }
  rewrite Hsplit.
  destruct (Nat.eq_dec k j) as [-> | Hne].
  - (* the new power *)
    assert (Hcol : forall w, dot S w (col j) == dot S w u + dot S w (fitv g)).
    { intros w. rewrite (dot_comm w (col j)).
      rewrite (dot_ext (col j) (fun s => u s + fitv g s) w w);
        [ | intros; unfold u; ring | reflexivity ].
      rewrite dot_add_l. rewrite (dot_comm u w), (dot_comm (fitv g) w).
      reflexivity. }
    assert (Hug : dot S u (fitv g) == 0).
    { apply (dot_res_fit (col j) g g). rewrite Hlg. exact Hu. }
    assert (Huf : dot S (fitv f) u == 0).
    { rewrite dot_comm. apply (dot_res_fit (col j) g f).
      rewrite Hlf. exact Hu. }
    assert (Hrg : dot S (res t f) (fitv g) == 0).
    { apply dot_res_fit. rewrite Hlg. intros i Hi. apply IH. exact Hi. }
    rewrite (Hcol (res t f)), (Hcol u), Hug, Hrg.
    unfold res at 1. rewrite (dot_sub_l t (fitv f) u), Huf.
    unfold c. rewrite Qred_correct.
    destruct (Qeq_dec (dot S u u) 0) as [Hz | Hnz].
    + assert (Htu : dot S t u == 0).
      { rewrite (dot_ext t t u (fun _ => 0));
          [ | reflexivity | intros s Hs; apply (dot_self_zero u Hz s Hs) ].
        rewrite dot_comm.
        rewrite (dot_ext (fun _ => 0) (fun s => 0 * t s) t t);
          [ | intros; ring | reflexivity ].
        rewrite dot_scale_l. ring. }
      rewrite Htu, Hz. ring.
    + field. exact Hnz.
  - assert (Hk' : (k < j)%nat) by lia.
    assert (Hrf : dot S (res t f) (col k) == 0) by (apply IH; exact Hk').
    rewrite Hrf, (Hu k Hk'). ring.
Qed.

(** A vector that satisfies the normal equations has the least squared
    error among the vectors of its length. *)
Lemma normal_equations_minimal (t : Q * Q -> Q) (c c' : list Q) :
  (forall k, (k < length c)%nat -> dot S (res t c) (col k) == 0) ->
  length c' = length c ->
  dot S (res t c) (res t c) <= dot S (res t c') (res t c').
Proof.
  intros Hn Hlen.
  set (d := fitv (csub c c')).
  assert (Hd : forall s, res t c' s == res t c s + d s).
  { intros s. unfold res, d, fitv. rewrite pev_csub by congruence. ring. }
  assert (Hrd : dot S (res t c) d == 0).
  { unfold d. apply dot_res_fit. rewrite length_csub by congruence. exact Hn. }
  set (h := fun s => res t c s + d s).
  assert (E0 : dot S (res t c') (res t c') == dot S h h)
    by (apply dot_ext; intros; apply Hd).
  assert (E1 : dot S h h == dot S (res t c) h + dot S d h)
    by apply dot_add_l.
  assert (E2 : dot S (res t c) h
               == dot S (res t c) (res t c) + dot S d (res t c))
    by (rewrite dot_comm; apply dot_add_l).
  assert (E3 : dot S d h == dot S (res t c) d + dot S d d)
    by (rewrite dot_comm; apply dot_add_l).
  assert (E4 : dot S d (res t c) == 0) by (rewrite dot_comm; exact Hrd).
  pose proof (dot_self_nonneg d). lra.
Qed.

End Samples.

(** Horner's rule, highest power first, is [pev] on the reversed vector. *)
Lemma horner_pev (x : Q) : forall p acc,
  fold_left (fun a c => a * x + c) p acc
  == acc * qpow x (length p) + pev 0 (rev p) x.
Proof.
  induction p as [ | c p IH]; intros acc; cbn [fold_left rev length qpow pev].
  - ring.
  - rewrite IH, pev_app, length_rev. cbn [pev Nat.add]. ring.
Qed.

Lemma polyval1_pev (p : list Q) (x : Q) : polyval1 p x == pev 0 (rev p) x.
Proof. unfold polyval1. rewrite horner_pev. ring. Qed.

Lemma power_sum_pev (x : Q) : forall p,
  power_sum p x == pev 0 (rev p) x.
Proof.
  induction p as [ | c p IH]; cbn [power_sum rev pev]; [reflexivity | ].
  rewrite pev_app, length_rev, IH. cbn [pev Nat.add]. ring.
Qed.

Lemma sse_dot (p x y : list Q) :
  sse p x y
  == dot (combine x y) (res snd (rev p)) (res snd (rev p)).
Proof.
  unfold sse. induction (combine x y) as [ | s S IH]; cbn [map qsum fold_right dot].
  - reflexivity.
  - fold (qsum (map (sq_error p) S)). rewrite Qred_correct, IH.
    unfold sq_error, res, fitv. rewrite power_sum_pev. reflexivity.
Qed.

End LstsqFacts.

(** Horner's rule computes the polynomial. *)
Lemma polyval1_power_sum (p : list Q) (x : Q) :
  polyval1 p x == power_sum p x.
Proof.
  rewrite LstsqFacts.polyval1_pev, LstsqFacts.power_sum_pev. reflexivity.
Qed.

Lemma all_zero_forallb (x : list Q) :
  forallb (fun v => Qeq_bool v 0) x = true <-> all_zero x.
Proof.
  unfold all_zero. rewrite forallb_forall, Forall_forall.
  split; intros H v Hv; apply Qeq_bool_iff, H, Hv.
Qed.

(** Two polynomials with the same values at the abscissae have the same
    squared error. *)
Lemma sse_same_fit (p c : list Q) : forall x y,
  (forall a, In a x -> power_sum c a == power_sum p a) ->
  sse c x y == sse p x y.
Proof.
  induction x as [ | a x IH]; intros [ | b y] H; try reflexivity.
  unfold sse in *. cbn [combine map qsum fold_right].
  fold (qsum (map (sq_error c) (combine x y))).
  fold (qsum (map (sq_error p) (combine x y))).
  rewrite (IH y) by (intros a' Ha'; apply H; right; exact Ha').
  unfold sq_error. cbn [fst snd]. rewrite (H a) by (left; reflexivity).
  reflexivity.
Qed.

(** [least_norm] keeps the number of coefficients and the value at every
    abscissa. *)
Lemma least_norm_fit (x : list Q) (deg : nat) (p : list Q) :
  length (MinNorm.least_norm x deg p) = length p /\
  forall a, In a x ->
    power_sum (MinNorm.least_norm x deg p) a == power_sum p a.
Proof.
  unfold MinNorm.least_norm.
  destruct (S deg <=? length (MinNorm.nodes x))%nat;
    [split; [reflexivity | intros; reflexivity] | ].
  destruct (MinNorm.same_fit x p (MinNorm.candidate x deg p)) eqn:E;
    [ | split; [reflexivity | intros; reflexivity]].
  unfold MinNorm.same_fit in E. apply andb_prop in E. destruct E as [El Ev].
  split; [apply Nat.eqb_eq; exact El | ].
  intros a Ha. rewrite forallb_forall in Ev.
  rewrite <- !polyval1_power_sum. apply Qeq_bool_iff, Ev, Ha.
Qed.

(** The solver meets the contract of [numpy.polyfit]. *)
Lemma lstsq_polyfit_contract : polyfit_contract lstsq_polyfit.
Proof.
  intros x y deg.
  split; [ | split; [ | split]].
  - intros ->. reflexivity.
  - intros Hx Hlen. destruct x as [ | a x]; [congruence | ].
    unfold lstsq_polyfit.
    destruct (Nat.eqb_spec (length (a :: x)) (length y));
      [congruence | reflexivity].
  - intros Hx Hlen Hdeg Hzero. destruct x as [ | a x]; [congruence | ].
    unfold lstsq_polyfit. rewrite Hlen, Nat.eqb_refl.
    apply all_zero_forallb in Hzero. rewrite Hzero.
    destruct (Nat.eqb_spec deg 0); [congruence | reflexivity].
  - intros Hx Hlen Hok. destruct x as [ | a x]; [congruence | ].
    unfold lstsq_polyfit. rewrite Hlen, Nat.eqb_refl.
    assert (Htest : negb (deg =? 0)%nat
                    && forallb (fun v => Qeq_bool v 0) (a :: x) = false).
    { destruct Hok as [-> | Hnz]; [reflexivity | ].
      destruct (forallb _ (a :: x)) eqn:E; [ | apply andb_false_r].
      apply all_zero_forallb in E. contradiction. }
    rewrite Htest.
    set (p0 := rev (Lstsq.lsq (combine (a :: x) y) (S deg) snd)).
    destruct (least_norm_fit (a :: x) deg p0) as [Hl Hv].
    assert (Hp0 : length p0 = S deg)
      by (unfold p0; rewrite length_rev; apply LstsqFacts.length_lsq).
    eexists; split; [reflexivity | ]. split; [congruence | ].
    intros p' Hp'. rewrite (sse_same_fit p0 _ (a :: x) y Hv).
    unfold p0. rewrite !LstsqFacts.sse_dot, rev_involutive.
    apply LstsqFacts.normal_equations_minimal.
    + intros k Hk. apply LstsqFacts.lsq_orthogonal.
      rewrite LstsqFacts.length_lsq in Hk. exact Hk.
    + rewrite length_rev, LstsqFacts.length_lsq. exact Hp'.
Qed.

(** The solver on three points that are not on a line: the regression
    line has slope 7/2 and intercept -8/3. *)
Example lstsq_polyfit_line :
  lstsq_polyfit [1; 2; 3] [1; 4; 8] 1 = Ok [7 # 2; -8 # 3].
Proof. vm_compute. reflexivity. Qed.

(** ** Results and rationals *)

Lemma bind_Ok_inv {A B : Type} (r : result A) (k : A -> result B) (b : B) :
  bind r k = Ok b -> exists a, r = Ok a /\ k a = Ok b.
Proof.
  destruct r as [a | e | ]; simpl; intros H; try discriminate.
  exists a; split; [reflexivity | exact H].
Qed.

Lemma Qltb_true (a b : Q) : Qltb a b = true <-> a < b.
Proof.
  unfold Qltb. rewrite negb_true_iff. split; intros H.
  - apply Qnot_le_lt. intros Hle. apply Qle_bool_iff in Hle. congruence.
  - destruct (Qle_bool b a) eqn:E; [ | reflexivity].
    apply Qle_bool_iff in E. exfalso. lra.
Qed.

Lemma Qltb_false (a b : Q) : Qltb a b = false <-> b <= a.
Proof.
  unfold Qltb. rewrite negb_false_iff. apply Qle_bool_iff.
Qed.

(** ** Squared error *)

Lemma qsum_cons (a : Q) (l : list Q) : qsum (a :: l) = a + qsum l.
Proof. reflexivity. Qed.

Lemma sq_error_nonneg (p : list Q) (s : Q * Q) : 0 <= sq_error p s.
Proof.
  unfold sq_error. generalize (snd s - power_sum p (fst s)). intros r. nra.
Qed.

Lemma sse_nonneg (p x y : list Q) : 0 <= sse p x y.
Proof.
  unfold sse. induction (combine x y) as [ | s l IH]; cbn [map].
  - unfold qsum; simpl; lra.
  - rewrite qsum_cons. pose proof (sq_error_nonneg p s). lra.
Qed.

Lemma sse_cons (p : list Q) (a b : Q) (x y : list Q) :
  sse p (a :: x) (b :: y) = sq_error p (a, b) + sse p x y.
Proof. reflexivity. Qed.

(** The squared error is zero exactly when the polynomial goes through
    every point. *)
Lemma sse_zero_fit (p : list Q) : forall x y, length x = length y ->
  sse p x y == 0 -> Forall2 Qeq (polyval p x) y.
Proof.
  induction x as [ | a x IH]; intros [ | b y] Hlen H0; try discriminate.
  - constructor.
  - rewrite sse_cons in H0. cbn [polyval map].
    pose proof (sq_error_nonneg p (a, b)) as Hs.
    pose proof (sse_nonneg p x y) as Hr.
    constructor.
    + assert (Hz : sq_error p (a, b) == 0) by lra.
      unfold sq_error in Hz. cbn [fst snd] in Hz.
      rewrite polyval1_power_sum.
      destruct (Qmult_integral _ _ Hz); lra.
    + apply IH; [simpl in Hlen; congruence | lra].
Qed.

Lemma fit_sse_zero (p : list Q) : forall x y,
  Forall2 Qeq (polyval p x) y -> sse p x y == 0.
Proof.
  induction x as [ | a x IH]; intros y H; inversion H; subst.
  - reflexivity.
  - rewrite sse_cons, IH by assumption.
    unfold sq_error. cbn [fst snd].
    rewrite <- polyval1_power_sum, H2. ring.
Qed.

(** Data that some polynomial of the degree fits exactly is reproduced by
    every least-squares fit of that degree. *)
Lemma least_squares_exact (x y : list Q) (deg : nat) (p p0 : list Q) :
  least_squares x y deg p -> length p0 = S deg -> length x = length y ->
  Forall2 Qeq (polyval p0 x) y -> Forall2 Qeq (polyval p x) y.
Proof.
  intros [_ Hmin] Hp0 Hlen Hfit.
  apply sse_zero_fit; [exact Hlen | ].
  pose proof (Hmin p0 Hp0) as Hle.
  rewrite (fit_sse_zero p0 x y Hfit) in Hle.
  pose proof (sse_nonneg p x y). lra.
Qed.

(** Leading zero coefficients do not change a polynomial. *)
Lemma polyval1_pad (n : nat) (q : list Q) (x : Q) :
  polyval1 (repeat 0 n ++ q) x == polyval1 q x.
Proof.
  unfold polyval1. rewrite fold_left_app, !LstsqFacts.horner_pev.
  assert (Hz : Lstsq.pev 0 (rev (repeat 0 n)) x == 0).
  { rewrite rev_repeat. generalize 0%nat.
    induction n as [ | n IH]; intros j; cbn [repeat Lstsq.pev]; [reflexivity | ].
    rewrite IH. ring. }
  rewrite Hz. ring.
Qed.

Lemma Forall2_Qeq_refl (l : list Q) : Forall2 Qeq l l.
Proof. induction l; constructor; [reflexivity | assumption]. Qed.

Lemma Forall2_Qeq_trans (a b c : list Q) :
  Forall2 Qeq a b -> Forall2 Qeq b c -> Forall2 Qeq a c.
Proof.
  intros H. revert c. induction H; intros c Hc; inversion Hc; subst;
    constructor; [ etransitivity; eassumption | auto ].
Qed.

Lemma Forall2_Qeq_sym (a b : list Q) : Forall2 Qeq a b -> Forall2 Qeq b a.
Proof. induction 1; constructor; [symmetry | ]; assumption. Qed.

Lemma polyval_pad (n : nat) (q x : list Q) :
  Forall2 Qeq (polyval (repeat 0 n ++ q) x) (polyval q x).
Proof.
  induction x as [ | a x IH]; cbn [polyval map]; constructor.
  - apply polyval1_pad.
  - exact IH.
Qed.

Lemma length_polyval (p x : list Q) : length (polyval p x) = length x.
Proof. apply length_map. Qed.

Lemma length_center (x : list Q) : length (center x) = length x.
Proof. apply length_map. Qed.

Lemma center_nonempty (x : list Q) : x <> [] -> center x <> [].
Proof. destruct x; [congruence | discriminate]. Qed.

Lemma varies_nonempty (a : list Q) : varies a -> a <> [].
Proof. intros (u & _ & Hu & _) ->. contradiction. Qed.



(** The centred array is all zero exactly when the array does not
    vary. *)
Lemma center_varies (a : list Q) : varies a -> ~ all_zero (center a).
Proof.
  intros (u & v & Hu & Hv & Huv) Hz. apply Huv.
  unfold all_zero, center in Hz. rewrite Forall_map, Forall_forall in Hz.
  pose proof (Hz u Hu) as H1. pose proof (Hz v Hv) as H2.
  cbn beta in H1, H2. lra.
Qed.

Lemma varies_not_all_zero (a : list Q) : varies a -> ~ all_zero a.
Proof.
  intros (u & v & Hu & Hv & Huv) Hz. apply Huv.
  unfold all_zero in Hz. rewrite Forall_forall in Hz.
  pose proof (Hz u Hu) as H1. pose proof (Hz v Hv) as H2.
  cbn beta in H1, H2. lra.
Qed.


Section ContractFacts.

Variable polyfit : list Q -> list Q -> nat -> result (list Q).
Hypothesis polyfit_ok : polyfit_contract polyfit.

Lemma polyfit_fits (x y : list Q) (deg : nat) :
  x <> [] -> length x = length y -> deg = 0%nat \/ ~ all_zero x ->
  exists p, polyfit x y deg = Ok p /\ least_squares x y deg p.
Proof. intros Hx Hlen Hok. apply (polyfit_ok x y deg); assumption. Qed.



(** On data that a polynomial of degree at most [deg] fits exactly,
    fitting and evaluating at the same points gives the data back. *)
Lemma polyfit_exact (x y q : list Q) (deg : nat) :
  x <> [] -> length x = length y -> deg = 0%nat \/ ~ all_zero x ->
  (length q <= S deg)%nat ->
  Forall2 Qeq (polyval q x) y ->
  exists p, polyfit x y deg = Ok p /\ least_squares x y deg p /\
            Forall2 Qeq (polyval p x) y.
Proof.
  intros Hx Hlen Hok Hq Hfit.
  destruct (polyfit_fits x y deg Hx Hlen Hok) as [p [Hp Hls]].
  exists p. split; [exact Hp | split; [exact Hls | ]].
  apply (least_squares_exact x y deg p (repeat 0 (S deg - length q) ++ q));
    try assumption.
  - rewrite length_app, repeat_length. lia.
  - eapply Forall2_Qeq_trans; [apply polyval_pad | exact Hfit].
Qed.

End ContractFacts.

(** ** Indexing *)

Lemma getitem_nonneg {A : Type} (a : list A) (i : Z) (v : A) :
  (0 <= i)%Z -> getitem a i = Ok v ->
  (i < Z.of_nat (length a))%Z /\ nth_error a (Z.to_nat i) = Some v.
Proof.
  intros Hi. unfold getitem.
  destruct (Z.ltb_spec i 0); [lia | ].
  destruct (Z.leb_spec 0 i); [ | lia]. cbn [andb].
  destruct (Z.ltb_spec i (Z.of_nat (length a))); [ | discriminate].
  destruct (nth_error a (Z.to_nat i)) eqn:E; [ | discriminate].
  intros [= ->]. split; [assumption | reflexivity].
Qed.

Lemma getitem_in_range {A : Type} (a : list A) (i : Z) :
  (0 <= i < Z.of_nat (length a))%Z -> exists v, getitem a i = Ok v.
Proof.
  intros Hi. unfold getitem.
  destruct (Z.ltb_spec i 0); [lia | ].
  destruct (Z.leb_spec 0 i); [ | lia]. cbn [andb].
  destruct (Z.ltb_spec i (Z.of_nat (length a))); [ | lia].
  destruct (nth_error a (Z.to_nat i)) eqn:E.
  - eexists; reflexivity.
  - apply nth_error_None in E. lia.
Qed.

Lemma getitem_not_Diverge {A : Type} (a : list A) (i : Z) :
  getitem a i <> Diverge.
Proof.
  unfold getitem.
  destruct ((0 <=? _) && _)%Z; [ | discriminate].
  destruct (nth_error _ _); discriminate.
Qed.

Lemma getitem_map {A B : Type} (f : A -> B) (a : list A) (i : Z) :
  getitem (map f a) i = (r <- getitem a i ;; Ok (f r)).
Proof.
  unfold getitem. rewrite length_map, nth_error_map.
  destruct ((0 <=? _) && _)%Z; [ | reflexivity].
  destruct (nth_error a _); reflexivity.
Qed.

Lemma getitem_nth_error {A : Type} (a : list A) (k : nat) (v : A) :
  nth_error a k = Some v -> getitem a (Z.of_nat k) = Ok v.
Proof.
  intros H. unfold getitem.
  assert (k < length a)%nat by (apply nth_error_Some; congruence).
  destruct (Z.ltb_spec (Z.of_nat k) 0); [lia | ].
  destruct (Z.leb_spec 0 (Z.of_nat k)); [ | lia]. cbn [andb].
  destruct (Z.ltb_spec (Z.of_nat k) (Z.of_nat (length a))); [ | lia].
  rewrite Nat2Z.id, H. reflexivity.
Qed.

Lemma getitem_In {A : Type} (a : list A) (i : Z) (v : A) :
  getitem a i = Ok v -> In v a.
Proof.
  unfold getitem. destruct ((0 <=? _) && _)%Z; [ | discriminate].
  destruct (nth_error a _) eqn:E; [ | discriminate].
  intros [= <-]. eapply nth_error_In; eassumption.
Qed.

Lemma getitem_Raise {A : Type} (a : list A) (i : Z) (e : exn) :
  getitem a i = Raise e -> e = IndexError.
Proof.
  unfold getitem. destruct ((0 <=? _) && _)%Z.
  - destruct (nth_error a _); [discriminate | congruence].
  - congruence.
Qed.

Lemma getitem_past_end {A : Type} (a : list A) (i : Z) :
  (Z.of_nat (length a) <= i)%Z -> getitem a i = Raise IndexError.
Proof.
  intros H. unfold getitem.
  destruct (Z.ltb_spec i 0); [lia | ].
  destruct (Z.ltb_spec i (Z.of_nat (length a))); [lia | ].
  rewrite andb_false_r. reflexivity.
Qed.

Lemma getitem_before_start {A : Type} (a : list A) (i : Z) :
  (i < - Z.of_nat (length a))%Z -> getitem a i = Raise IndexError.
Proof.
  intros H. unfold getitem.
  destruct (Z.ltb_spec i 0); [ | lia].
  destruct (Z.leb_spec 0 (i + Z.of_nat (length a))); [lia | ].
  reflexivity.
Qed.

Lemma getitem_Ok_range {A : Type} (a : list A) (i : Z) (v : A) :
  getitem a i = Ok v ->
  (- Z.of_nat (length a) <= i < Z.of_nat (length a))%Z.
Proof.
  unfold getitem. cbv zeta. intros H.
  destruct (_ && _)%bool eqn:E in H; [ | discriminate].
  apply andb_prop in E. destruct E as [E1 E2].
  apply Z.leb_le in E1. apply Z.ltb_lt in E2.
  destruct (Z.ltb_spec i 0); lia.
Qed.


(** ** Loops *)

Lemma while_invariant {S : Type} (P : S -> Prop)
    (cond : S -> result bool) (body : S -> result S) :
  (forall s s1, P s -> cond s = Ok true -> body s = Ok s1 -> P s1) ->
  forall fuel s s', P s -> while fuel cond body s = Ok s' ->
  P s' /\ cond s' = Ok false.
Proof.
  intros Hstep. induction fuel as [ | fuel IH]; intros s s' Hs H;
    cbn [while] in H; [discriminate | ].
  destruct (cond s) as [[ | ] | e | ] eqn:Ec; cbn [bind] in H;
    try discriminate.
  - destruct (body s) as [s1 | e | ] eqn:Eb; cbn [bind] in H;
      try discriminate.
    apply (IH s1 s'); [ | exact H]. eapply Hstep; eassumption.
  - injection H as <-. split; assumption.
Qed.

Lemma for_range_ext {S : Type} (body1 body2 : Z -> S -> result S) :
  (forall i s, body1 i s = body2 i s) ->
  forall n start s, for_range start n body1 s = for_range start n body2 s.
Proof.
  intros Hext. induction n as [ | n IH]; intros start s; cbn [for_range].
  - reflexivity.
  - rewrite Hext. destruct (body2 start s); cbn [bind]; auto.
Qed.

Lemma StronglySorted_snoc (l : list Z) (x : Z) :
  StronglySorted Z.lt l -> Forall (fun a => (a < x)%Z) l ->
  StronglySorted Z.lt (l ++ [x]).
Proof.
  induction 1 as [ | a l Hl IH Ha]; intros Hx; cbn [app].
  - constructor; constructor.
  - inversion Hx; subst. constructor.
    + apply IH. assumption.
    + apply Forall_app. split; [assumption | constructor; [assumption | constructor]].
Qed.

(** ** [calibrate] and [baseline_correction] *)

Lemma Forall2_length_Q (a b : list Q) : Forall2 Qeq a b -> length a = length b.
Proof. induction 1; simpl; congruence. Qed.

Lemma np_sub_same_length (a b : list Q) :
  length a = length b -> np_sub a b = Ok (map2 Qminus a b).
Proof. intros H. unfold np_sub. rewrite H, Nat.eqb_refl. reflexivity. Qed.

Lemma length_map2 (f : Q -> Q -> Q) : forall a b,
  length a = length b -> length (map2 f a b) = length a.
Proof.
  induction a as [ | u a IH]; intros [ | v b] H; simpl in *; try congruence.
  f_equal. apply IH. congruence.
Qed.

Lemma map2_sub_zero : forall a b,
  Forall2 Qeq b a -> Forall (fun v => v == 0) (map2 Qminus a b).
Proof.
  intros a b H. induction H as [ | v u b a Huv H IH]; simpl; constructor.
  - rewrite Huv. ring.
  - exact IH.
Qed.

Lemma Forall2_Qeq_const (c : Q) (a b : list Q) :
  Forall2 Qeq a b -> Forall (fun v => v == c) b -> Forall (fun v => v == c) a.
Proof.
  induction 1 as [ | u v a b Huv H IH]; intros Hb; constructor;
    inversion Hb; subst.
  - rewrite Huv. assumption.
  - auto.
Qed.

Lemma polyval_const (c : Q) (x y : list Q) :
  length x = length y -> Forall (fun v => v == c) y ->
  Forall2 Qeq (polyval [c] x) y.
Proof.
  revert y. induction x as [ | a x IH]; intros [ | b y] Hlen Hy;
    try discriminate; cbn [polyval map]; constructor.
  - inversion Hy; subst. unfold polyval1. cbn [fold_left].
    rewrite H1. ring.
  - apply IH; [simpl in Hlen; congruence | inversion Hy; assumption].
Qed.

Lemma py_max_const (c : Q) (l : list Q) :
  l <> [] -> Forall (fun v => v == c) l ->
  exists m, py_max l = Ok m /\ m == c.
Proof.
  destruct l as [ | v l]; [congruence | ]. intros _ H.
  inversion H as [ | ? ? Hv Hl]; subst.
  eexists; split; [reflexivity | ].
  clear H. revert v Hv. induction Hl as [ | u l Hu Hl IH]; intros v Hv.
  - exact Hv.
  - cbn [fold_left]. apply IH. destruct (Qltb v u); assumption.
Qed.





(** A list whose entries are the values of [q] at the entries of [x]. *)
Lemma power_sum_values (q : list Q) (f : Q -> Q) : forall x y,
  Forall2 (fun a b => b == power_sum q (f a)) x y ->
  Forall2 Qeq (polyval q (map f x)) y.
Proof.
  induction 1 as [ | a b x y Hab H IH]; cbn [map polyval]; constructor.
  - rewrite polyval1_power_sum. symmetry. exact Hab.
  - exact IH.
Qed.

Lemma Forall2_Qeq_nth (a b : list Q) :
  Forall2 Qeq a b ->
  forall i, nth i a 0 == nth i b 0.
Proof.
  induction 1 as [ | u v a b Huv H IH]; intros [ | i]; cbn [nth];
    try reflexivity; [exact Huv | apply IH].
Qed.

Section Fits.

Variable polyfit : list Q -> list Q -> nat -> result (list Q).
Hypothesis polyfit_ok : polyfit_contract polyfit.

(** C4.  Let [y] be the values of a polynomial [q] of degree at most
    [order] at the points [x - mean(x)], where [x] has two different
    entries or [order] is 0.  Then the fit of degree [order] returns, and
    evaluating it with [numpy.polyval] at [x - mean(x)] gives [y] back.
    An [x] of at least [order + 1] pairwise distinct values is such an
    [x]; points may repeat and there may be fewer than [order + 1]. *)
Theorem fit_evaluate_roundtrip (x q y : list Q) (order : nat) :
  x <> [] -> order = 0%nat \/ varies x ->
  (length q <= S order)%nat ->
  Forall2 (fun a b => b == power_sum q (a - mean x)) x y ->
  exists p, polyfit (center x) y order = Ok p /\
            least_squares (center x) y order p /\
            Forall2 Qeq (polyval p (center x)) y.
Proof.
  intros Hx Hok Hq Hy.
  apply (polyfit_exact polyfit polyfit_ok (center x) y q order).
  - apply center_nonempty. exact Hx.
  - rewrite length_center. apply (Forall2_length Hy).
  - destruct Hok as [H0 | Hv]; [left; exact H0 | right].
    apply center_varies, Hv.
  - exact Hq.
  - apply power_sum_values. exact Hy.
Qed.


(** C5, as the code has it.  On a constant trace whose wavelength has two
    different values the degree-4 fit is that constant and the offset
    [max(fit) - max(power)] is zero, so the corrected power is zero at
    every sample: it is the power minus the fit, not the power. *)
Theorem baseline_correction_flat (wavelength power : list Q) (c : Q) :
  varies wavelength -> length wavelength = length power ->
  Forall (fun v => v == c) power ->
  exists corrected baseline max_baseline max_power,
    baseline_correction polyfit (wavelength, power) = Ok (corrected, baseline) /\
    length baseline = length power /\
    Forall (fun v => v == c) baseline /\
    py_max baseline = Ok max_baseline /\
    py_max power = Ok max_power /\
    max_baseline - max_power == 0 /\
    length corrected = length power /\
    Forall (fun v => v == 0) corrected.
Proof.
  intros Hv Hlen Hc.
  pose proof (varies_nonempty _ Hv) as Hne.
  assert (Hlc : length (center wavelength) = length power)
    by (rewrite length_center; exact Hlen).
  destruct (polyfit_exact polyfit polyfit_ok (center wavelength) power [c] 4)
    as [pfit [Hfit [_ Hrep]]].
  - apply center_nonempty. exact Hne.
  - exact Hlc.
  - right. apply center_varies, Hv.
  - simpl. lia.
  - apply polyval_const; assumption.
  - set (baseline := polyval pfit (center wavelength)) in *.
    assert (Hbl : length baseline = length power)
      by (unfold baseline; rewrite length_polyval; exact Hlc).
    assert (Hbc : Forall (fun v => v == c) baseline)
      by (eapply Forall2_Qeq_const; eassumption).
    assert (Hpne : power <> [])
      by (destruct power;
          [destruct wavelength; simpl in *; congruence | discriminate]).
    assert (Hbne : baseline <> [])
      by (destruct baseline;
          [destruct power; simpl in *; congruence | discriminate]).
    destruct (py_max_const c baseline Hbne Hbc) as [mb [Hmb Hmbc]].
    destruct (py_max_const c power Hpne Hc) as [mp [Hmp Hmpc]].
    exists (map (fun v => v + mb - mp) (map2 Qminus power baseline)),
      baseline, mb, mp.
    repeat split; try assumption.
    + unfold baseline_correction. cbn [fst snd]. rewrite Hfit. cbn [bind].
      fold baseline. rewrite np_sub_same_length by congruence. cbn [bind].
      rewrite Hmb, Hmp. reflexivity.
    + rewrite Hmbc, Hmpc. ring.
    + rewrite length_map, length_map2; congruence.
    + apply Forall_map.
      eapply Forall_impl; [ | apply map2_sub_zero; exact Hrep].
      intros v Hv'. cbn beta. rewrite Hv', Hmbc, Hmpc. ring.
Qed.

End Fits.

(** C4 at a cubic on six points, fitted with degree 4: the values of
    [2 t^3 - t + 3] at [t = -5/2, -3/2, ..., 5/2]. *)
Lemma fit_evaluate_roundtrip_witness :
  exists p,
    lstsq_polyfit (center [1; 2; 3; 4; 5; 6])
      [-103 # 4; -9 # 4; 13 # 4; 11 # 4; 33 # 4; 127 # 4] 4 = Ok p /\
    least_squares (center [1; 2; 3; 4; 5; 6])
      [-103 # 4; -9 # 4; 13 # 4; 11 # 4; 33 # 4; 127 # 4] 4 p /\
    Forall2 Qeq (polyval p (center [1; 2; 3; 4; 5; 6]))
      [-103 # 4; -9 # 4; 13 # 4; 11 # 4; 33 # 4; 127 # 4].
Proof.
  apply (fit_evaluate_roundtrip lstsq_polyfit lstsq_polyfit_contract
           [1; 2; 3; 4; 5; 6] [2; 0; -1; 3]).
  - discriminate.
  - right. exists 1, 2. split; [left; reflexivity | ].
    split; [right; left; reflexivity | discriminate].
  - simpl. lia.
  - repeat constructor; vm_compute; reflexivity.
Defined.



(** [baseline_correction] on a trace of one sample: the centred
    wavelength is [0] and the fit raises [LinAlgError]. *)
Example baseline_correction_one_sample :
  baseline_correction lstsq_polyfit ([5], [3]) = Raise LinAlgError.
Proof. vm_compute. reflexivity. Qed.

(** C5 at the constant trace [7, 7, 7, 7, 7, 7]. *)
Lemma baseline_correction_flat_witness :
  exists corrected baseline max_baseline max_power,
    baseline_correction lstsq_polyfit
      ([1; 2; 3; 4; 5; 6], [7; 7; 7; 7; 7; 7]) = Ok (corrected, baseline) /\
    length baseline = length [7; 7; 7; 7; 7; 7] /\
    Forall (fun v => v == 7) baseline /\
    py_max baseline = Ok max_baseline /\
    py_max [7; 7; 7; 7; 7; 7] = Ok max_power /\
    max_baseline - max_power == 0 /\
    length corrected = length [7; 7; 7; 7; 7; 7] /\
    Forall (fun v => v == 0) corrected.
Proof.
  apply (baseline_correction_flat lstsq_polyfit lstsq_polyfit_contract
           [1; 2; 3; 4; 5; 6] [7; 7; 7; 7; 7; 7] 7).
  - exists 1, 2. split; [left; reflexivity | ].
    split; [right; left; reflexivity | discriminate].
  - reflexivity.
  - repeat constructor.
Defined.

(** C5 fails as stated: on the constant trace [1, 1, 1, 1, 1] the
    corrected power is [0, 0, 0, 0, 0]. *)
Lemma baseline_correction_flat_counterexample :
  exists corrected baseline,
    baseline_correction lstsq_polyfit
      ([1; 2; 3; 4; 5], [1; 1; 1; 1; 1]) = Ok (corrected, baseline) /\
    Forall2 Qeq baseline [1; 1; 1; 1; 1] /\
    Forall2 Qeq corrected [0; 0; 0; 0; 0] /\
    ~ Forall2 Qeq corrected [1; 1; 1; 1; 1].
Proof.
  eexists. eexists. split; [vm_compute; reflexivity | ].
  split; [ | split].
  - repeat constructor.
  - repeat constructor.
  - intros H. inversion H as [ | ? ? ? ? Hhd _]. discriminate Hhd.
Qed.

(** ** The envelope scan of [calibrate_envelope] *)

Section Envelope.

Variables wavelength power : list Q.
Variable step : Z.
Variable difference_tol : Q.

Lemma envelope_inv_start :
  envelope_inv wavelength power step difference_tol envelope_start.
Proof.
  unfold envelope_inv, envelope_start; cbn.
  repeat split; try constructor; lia.
Qed.

Lemma envelope_skip_forward (point_initial : Q) (cn : Z) (pn : Q) (s : Z * Q) :
  envelope_skip power step difference_tol point_initial cn pn = Ok s ->
  (cn <= fst s)%Z.
Proof.
  unfold envelope_skip, envelope_skip_loop. intros H.
  apply (while_invariant (fun s => (cn <= fst s)%Z)) in H.
  - apply H.
  - intros s0 s1 Hs0 _ Hb.
    destruct (getitem power (step * (fst s0 + 1))) eqn:E; cbn [bind] in Hb;
      try discriminate.
    injection Hb as <-. cbn [fst]. lia.
  - cbn [fst]. lia.
Qed.

Hypothesis step_pos : (1 <= step)%Z.

Lemma envelope_round_inv (e e' : envelope) (b : bool) :
  envelope_inv wavelength power step difference_tol e ->
  envelope_round wavelength power step difference_tol e = Ok (e', b) ->
  envelope_inv wavelength power step difference_tol e' /\
  (length (accepted e') <= S (length (accepted e)))%nat /\
  (length (accepted e) <= length (accepted e'))%nat.
Proof.
  intros (Hci & Hcn & Hsort & Hlt & Hclose & Hp & Hw) H.
  unfold envelope_round in H.
  apply bind_Ok_inv in H. destruct H as [pi [Epi H]].
  apply bind_Ok_inv in H. destruct H as [pn [Epn H]].
  apply bind_Ok_inv in H. destruct H as [e1 [He1 H]].
  injection H as <- _.
  destruct (Qltb (Qabs (pi - pn)) difference_tol) eqn:Etol.
  - (* the point is accepted *)
    apply bind_Ok_inv in He1. destruct He1 as [p [Ep He1]].
    apply bind_Ok_inv in He1. destruct He1 as [w [Ew He1]].
    injection He1 as <-. unfold envelope_inv. cbn.
    rewrite length_app. cbn [length].
    repeat split; try lia.
    + apply StronglySorted_snoc; assumption.
    + apply Forall_app. split.
      * eapply Forall_impl; [ | exact Hlt]. cbn beta. intros a Ha. nia.
      * constructor; [nia | constructor].
    + apply Forall_app. split; [assumption | ].
      constructor; [ | constructor]. split; [nia | ].
      exists pi, pn. repeat split.
      * exact Epi.
      * rewrite <- Epn. f_equal. rewrite Hcn. ring.
      * apply Qltb_true. exact Etol.
    + apply Forall2_app; [assumption | constructor; [exact Ep | constructor]].
    + apply Forall2_app; [assumption | constructor; [exact Ew | constructor]].
  - (* the point is dropped and the cursor moves on *)
    apply bind_Ok_inv in He1. destruct He1 as [s [Es He1]].
    injection He1 as <-. unfold envelope_inv. cbn.
    apply envelope_skip_forward in Es.
    repeat split; try lia; try assumption.
    eapply Forall_impl; [ | exact Hlt]. cbn beta. intros a Ha. nia.
Qed.

Lemma envelope_loop_inv : forall n e e',
  envelope_inv wavelength power step difference_tol e ->
  envelope_loop n wavelength power step difference_tol e = Ok e' ->
  envelope_inv wavelength power step difference_tol e' /\
  (length (accepted e') <= length (accepted e) + n)%nat.
Proof.
  induction n as [ | n IH]; intros e e' Hinv H; cbn [envelope_loop] in H.
  - injection H as <-. split; [assumption | lia].
  - apply bind_Ok_inv in H. destruct H as [[e1 b] [Hr H]]. cbn [fst snd] in H.
    destruct (envelope_round_inv e e1 b Hinv Hr) as (Hinv1 & Hle & _).
    destruct b.
    + injection H as <-. split; [assumption | lia].
    + destruct (IH e1 e' Hinv1 H) as [Hinv' Hlen]. split; [assumption | lia].
Qed.

End Envelope.

(** C6, as the code has it.  When the scan returns and the step is at
    least one sample, the accepted sample indices are strictly
    increasing, there are at most [seg] of them, and the power at each
    differs by less than [difference_tol] from the power one step
    further, the sample it was compared with.  The lists handed to the
    fit are the wavelength and the power at those indices. *)
Theorem envelope_scan_accepted (reference_response : trace) (seg : Z)
    (difference_tol : Q) (e : envelope) :
  envelope_scan reference_response seg difference_tol = Ok e ->
  (1 <= Z.quot (size (snd reference_response)) seg)%Z ->
  StronglySorted Z.lt (accepted e) /\
  (Z.of_nat (length (accepted e)) <= seg)%Z /\
  Forall (close_to_next (snd reference_response)
            (Z.quot (size (snd reference_response)) seg) difference_tol)
    (accepted e) /\
  Forall2 (fun a p => getitem (snd reference_response) a = Ok p)
    (accepted e) (power_ref e) /\
  Forall2 (fun a w => getitem (fst reference_response) a = Ok w)
    (accepted e) (wavelength_ref e).
Proof.
  intros H Hstep. unfold envelope_scan in H.
  destruct (Z.eqb_spec seg 0) as [-> | Hseg]; cbn [bind] in H; [discriminate | ].
  apply envelope_loop_inv in H; [ | exact Hstep | apply envelope_inv_start].
  destruct H as [(_ & _ & Hsort & _ & Hclose & Hp & Hw) Hlen].
  cbn [envelope_start accepted length Nat.add] in Hlen.
  repeat split; try assumption.
  assert (0 < seg)%Z.
  { destruct (Z.lt_trichotomy seg 0) as [Hneg | [ | ]]; [ | lia | assumption].
    exfalso. unfold size in Hstep.
    set (len := Z.of_nat (length (snd reference_response))) in *.
    pose proof (Z.quot_opp_r len (- seg) ltac:(lia)) as Hq.
    rewrite Z.opp_involutive in Hq.
    pose proof (Z.quot_pos len (- seg) ltac:(lia) ltac:(lia)).
    lia. }
  lia.
Qed.

(** C6 at six samples, four segments and a tolerance of 8. *)
Lemma envelope_scan_accepted_witness :
  StronglySorted Z.lt [0; 4]%Z /\
  (Z.of_nat (length [0; 4]%Z) <= 4)%Z /\
  Forall (close_to_next [0; 0; 100; 100; 100; 100]
            (Z.quot (size [0; 0; 100; 100; 100; 100]) 4) 8) [0; 4]%Z /\
  Forall2 (fun a p => getitem [0; 0; 100; 100; 100; 100] a = Ok p)
    [0; 4]%Z [0; 100] /\
  Forall2 (fun a w => getitem [1; 2; 3; 4; 5; 6] a = Ok w) [0; 4]%Z [1; 5].
Proof.
  apply (envelope_scan_accepted
           ([1; 2; 3; 4; 5; 6], [0; 0; 100; 100; 100; 100]) 4 8
           {| power_ref := [0; 100]; wavelength_ref := [1; 5];
              cursor_initial := 5; cursor_next := 6;
              accepted := [0; 4]%Z |}).
  - vm_compute. reflexivity.
  - vm_compute. discriminate.
Defined.

(** C6 fails as stated.  On five samples and [seg = 4] every round
    accepts a point: there are [seg] accepted points, not fewer, and the
    first and the third differ by 10 with a tolerance of 8.  On the
    second trace the two accepted points are consecutive in the envelope
    and differ by 100. *)
Lemma envelope_scan_counterexample :
  (exists e,
     envelope_scan ([1; 2; 3; 4; 5], [0; 5; 10; 15; 20]) 4 8 = Ok e /\
     (1 <= Z.quot (size [0; 5; 10; 15; 20]%Q) 4)%Z /\
     accepted e = [0; 1; 2; 3]%Z /\
     power_ref e = [0; 5; 10; 15] /\
     ~ (Z.of_nat (length (power_ref e)) < 4)%Z /\
     8 <= Qabs (0 - 10)) /\
  (exists e,
     envelope_scan ([1; 2; 3; 4; 5; 6], [0; 0; 100; 100; 100; 100]) 4 8
       = Ok e /\
     (1 <= Z.quot (size [0; 0; 100; 100; 100; 100]%Q) 4)%Z /\
     accepted e = [0; 4]%Z /\
     power_ref e = [0; 100] /\
     8 <= Qabs (0 - 100)).
Proof.
  split; eexists; (split; [vm_compute; reflexivity | ]); cbn;
    repeat split; try lia; try (vm_compute; discriminate).
Qed.

Section EnvelopeReturns.

Variables wavelength power : list Q.
Variable step : Z.
Variable difference_tol : Q.
Hypothesis step_pos : (1 <= step)%Z.
Hypothesis same_length : length wavelength = length power.

(** With a step of at least one sample the inner loop ends within its
    bound, reads inside the array, and only moves the cursor forward. *)
Lemma envelope_skip_returns (point_initial : Q) : forall fuel cn pn,
  (0 <= cn)%Z -> (size power <= Z.of_nat fuel + cn)%Z ->
  exists s,
    envelope_skip_loop (S fuel) power step difference_tol point_initial
      cn pn = Ok s /\
    (cn <= fst s)%Z.
Proof.
  unfold envelope_skip_loop.
  induction fuel as [ | fuel IH]; intros cn pn Hcn Hfuel.
  - cbn [while bind fst snd].
    destruct (Z.ltb_spec ((cn + 2) * step) (size power)); [nia | ].
    rewrite andb_false_r. eexists; split; [reflexivity | cbn; lia].
  - remember (S fuel) as fuel' eqn:Ef. cbn [while bind fst snd].
    destruct (Qltb difference_tol (Qabs (point_initial - pn))
              && ((cn + 2) * step <? size power)%Z) eqn:Econd.
    + apply andb_prop in Econd. destruct Econd as [_ Elt].
      apply Z.ltb_lt in Elt. unfold size in *.
      destruct (getitem_in_range power (step * (cn + 1))) as [v Hv]; [nia | ].
      rewrite Hv. cbn [bind]. subst fuel'.
      destruct (IH (cn + 1)%Z v) as [s [Hs Hle]]; [lia | unfold size; lia | ].
      exists s. split; [exact Hs | lia].
    + eexists; split; [reflexivity | cbn; lia].
Qed.

Lemma envelope_skip_ends (point_initial : Q) (cn : Z) (pn : Q) :
  (0 <= cn)%Z ->
  exists s,
    envelope_skip power step difference_tol point_initial cn pn = Ok s /\
    (cn <= fst s)%Z.
Proof.
  intros Hcn. unfold envelope_skip.
  apply envelope_skip_returns; [exact Hcn | unfold size; lia].
Qed.

Lemma envelope_round_returns (e : envelope) :
  (0 <= cursor_initial e)%Z ->
  cursor_next e = (cursor_initial e + 1)%Z ->
  (cursor_next e * step < size power)%Z ->
  exists e' b,
    envelope_round wavelength power step difference_tol e = Ok (e', b) /\
    (0 <= cursor_initial e')%Z /\
    cursor_next e' = (cursor_initial e' + 1)%Z /\
    (b = false -> (cursor_next e' * step < size power)%Z).
Proof.
  intros Hci Hcn Hin. unfold size in *. unfold envelope_round.
  destruct (getitem_in_range power (cursor_initial e * step)) as [pi Hpi]; [nia | ].
  destruct (getitem_in_range power (step * cursor_next e)) as [pn Hpn]; [nia | ].
  rewrite Hpi, Hpn. cbn [bind].
  destruct (Qltb (Qabs (pi - pn)) difference_tol).
  - destruct (getitem_in_range wavelength (cursor_initial e * step)) as [w Hw];
      [rewrite same_length; nia | ].
    rewrite Hw. cbn [bind].
    eexists; eexists; split; [reflexivity | ]. cbn.
    repeat split; try lia.
    intros Hb. apply Z.leb_gt in Hb. unfold size in Hb. lia.
  - destruct (envelope_skip_ends pi (cursor_next e) pn)
      as [s [Hs Hle]]; [lia | ].
    rewrite Hs. cbn [bind].
    eexists; eexists; split; [reflexivity | ]. cbn.
    repeat split; try lia.
    intros Hb. apply Z.leb_gt in Hb. unfold size in Hb. lia.
Qed.

Lemma envelope_loop_returns : forall n e,
  (0 <= cursor_initial e)%Z ->
  cursor_next e = (cursor_initial e + 1)%Z ->
  (cursor_next e * step < size power)%Z ->
  exists e', envelope_loop n wavelength power step difference_tol e = Ok e'.
Proof.
  induction n as [ | n IH]; intros e Hci Hcn Hin; cbn [envelope_loop].
  - eexists; reflexivity.
  - destruct (envelope_round_returns e Hci Hcn Hin)
      as (e1 & b & Hr & Hci1 & Hcn1 & Hin1).
    rewrite Hr. cbn [bind fst snd]. destruct b.
    + eexists; reflexivity.
    + apply IH; auto.
Qed.

End EnvelopeReturns.

(** X17.  The scan is defined, with a step of at least one sample,
    whenever there are at least two segments and at least as many samples as
    segments, and the two arrays of the reference have one length: it
    returns, it raises nothing and every loop ends. *)
Lemma envelope_scan_returns (reference_response : trace) (seg : Z)
    (difference_tol : Q) :
  length (fst reference_response) = length (snd reference_response) ->
  (2 <= seg <= size (snd reference_response))%Z ->
  (1 <= Z.quot (size (snd reference_response)) seg)%Z /\
  exists e, envelope_scan reference_response seg difference_tol = Ok e.
Proof.
  intros Hlen Hseg. unfold envelope_scan.
  destruct (Z.eqb_spec seg 0) as [Hz | Hnz]; [lia | ]. cbn [bind].
  set (len := size (snd reference_response)) in *.
  assert (Hq : (Z.quot len seg = len / seg)%Z)
    by (apply Z.quot_div_nonneg; lia).
  assert (Hstep : (1 <= len / seg)%Z)
    by (apply Z.div_le_lower_bound; lia).
  assert (Hhalf : (len / seg < len)%Z) by (apply Z.div_lt; lia).
  rewrite Hq. split; [exact Hstep | ].
  apply envelope_loop_returns;
    cbn [envelope_start cursor_initial cursor_next]; try assumption; lia.
Qed.

(** With [step = 0] every sample read is [power[0]]: once the inner loop
    of [calibrate_envelope] is entered it is never left, whatever the
    bound on the number of rounds. *)
Lemma envelope_skip_never_ends (power : list Q) (difference_tol : Q)
    (point_initial p0 : Q) :
  getitem power 0 = Ok p0 ->
  difference_tol < Qabs (point_initial - p0) ->
  forall fuel cn,
    envelope_skip_loop fuel power 0 difference_tol point_initial cn p0
    = Diverge.
Proof.
  intros H0 Htol.
  assert (Hsize : (0 < size power)%Z).
  { apply getitem_Ok_range in H0. unfold size. lia. }
  unfold envelope_skip_loop.
  induction fuel as [ | fuel IH]; intros cn; cbn [while bind fst snd].
  - reflexivity.
  - apply Qltb_true in Htol. rewrite Htol.
    replace ((cn + 2) * 0)%Z with 0%Z by lia.
    apply Z.ltb_lt in Hsize. rewrite Hsize. cbn [andb].
    change (0 * (cn + 1))%Z with 0%Z. rewrite H0. cbn [bind]. apply IH.
Qed.

(** ** [calibrate_envelope] *)




Section EnvelopeCalibration.

Variable polyfit : list Q -> list Q -> nat -> result (list Q).

(** C8, as the code has it.  Whatever [calibrate_envelope] returns is
    returned as well once the fit of the input trace and its evaluation
    are taken out: a returned pair does not depend on them.  The converse
    does not hold, because the fit that is taken out can raise.  (No
    contract of [polyfit] is needed.) *)
Theorem calibrate_envelope_input_fit_unused
    (input_response reference_response : trace) (seg : Z)
    (difference_tol : Q) (fitOrder : nat) (out : list Q * list Q) :
  calibrate_envelope polyfit input_response reference_response seg
    difference_tol fitOrder = Ok out ->
  calibrate_envelope_without_input_fit polyfit input_response
    reference_response seg difference_tol fitOrder = Ok out.
Proof.
  unfold calibrate_envelope, calibrate_envelope_without_input_fit.
  cbv zeta. intros H.
  apply bind_Ok_inv in H. destruct H as [e [-> H]]. cbn [bind].
  apply bind_Ok_inv in H. destruct H as [pfit_ref [-> H]]. cbn [bind].
  apply bind_Ok_inv in H. destruct H as [pfit_input [_ H]].
  exact H.
Qed.

(** X18.  The fit of the input trace can only be seen when it fails: the
    two functions agree on every outcome once that fit returns. *)
Lemma calibrate_envelope_input_fit_returns
    (input_response reference_response : trace) (seg : Z)
    (difference_tol : Q) (fitOrder : nat) (pfit_input : list Q) :
  polyfit (center (fst input_response)) (snd input_response) fitOrder
    = Ok pfit_input ->
  calibrate_envelope polyfit input_response reference_response seg
    difference_tol fitOrder
  = calibrate_envelope_without_input_fit polyfit input_response
      reference_response seg difference_tol fitOrder.
Proof.
  intros Hin. unfold calibrate_envelope, calibrate_envelope_without_input_fit.
  cbv zeta.
  destruct (envelope_scan _ _ _) as [e | | ]; cbn [bind]; try reflexivity.
  destruct (polyfit (center (wavelength_ref e)) _ _); cbn [bind];
    try reflexivity.
  rewrite Hin. reflexivity.
Qed.

Hypothesis polyfit_ok : polyfit_contract polyfit.


End EnvelopeCalibration.


(** C8 at a six-point input and reference, three segments and a fit of
    degree 1. *)
Lemma calibrate_envelope_input_fit_unused_witness :
  calibrate_envelope_without_input_fit lstsq_polyfit
    ([1; 2; 3; 4; 5; 6], [3; 1; 4; 1; 5; 9])
    ([1; 2; 3; 4; 5; 6], [0; 1; 2; 1; 0; 1]) 3 8 1
  = Ok ([162 # 36; 54 # 36; 126 # 36; -18 # 36; 90 # 36; 198 # 36],
        [-54 # 36; -18 # 36; 18 # 36; 54 # 36; 90 # 36; 126 # 36]).
Proof.
  apply (calibrate_envelope_input_fit_unused lstsq_polyfit).
  vm_compute. reflexivity.
Defined.

(** C8 fails as stated.  The input trace has two wavelengths and six
    powers: the fit of the input at line 101 raises [TypeError], while the
    function without that fit returns the six corrected powers. *)
Lemma calibrate_envelope_input_fit_counterexample :
  calibrate_envelope lstsq_polyfit ([1; 2], [3; 1; 4; 1; 5; 9])
    ([1; 2; 3; 4; 5; 6], [0; 1; 2; 1; 0; 1]) 3 8 1
  = Raise TypeError /\
  exists corrected curve,
    calibrate_envelope_without_input_fit lstsq_polyfit
      ([1; 2], [3; 1; 4; 1; 5; 9])
      ([1; 2; 3; 4; 5; 6], [0; 1; 2; 1; 0; 1]) 3 8 1
    = Ok (corrected, curve) /\
    Forall2 Qeq curve [-3 # 2; -1 # 2; 1 # 2; 3 # 2; 5 # 2; 7 # 2] /\
    Forall2 Qeq corrected [9 # 2; 3 # 2; 7 # 2; -1 # 2; 5 # 2; 11 # 2].
Proof.
  split; [vm_compute; reflexivity | ].
  eexists. eexists. split; [vm_compute; reflexivity | ].
  split; repeat constructor.
Qed.


(** The numbers of that call.  The two accepted points [(1, 0)] and
    [(3, 2)] are centred to [-1] and [1]; of the polynomials of degree 4
    through them the solver returns
    [t^4 / 3 + t^3 / 2 + t^2 / 3 + t / 2 + 1 / 3], the one of least
    scaled norm, and the curve is its value at the reference wavelength
    minus 7/2. *)
Example calibrate_envelope_two_points :
  lstsq_polyfit (center [1; 3]) [0; 2] 4
  = Ok [1 # 3; 1 # 2; 1 # 3; 1 # 2; 1 # 3] /\
  exists corrected curve,
    calibrate_envelope lstsq_polyfit
      ([1; 2; 3; 4; 5; 6], [3; 1; 4; 1; 5; 9])
      ([1; 2; 3; 4; 5; 6], [0; 1; 2; 1; 0; 1]) 3 8 4
    = Ok (corrected, curve) /\
    Forall2 Qeq curve [51 # 8; 1 # 3; 1 # 8; 3 # 4; 125 # 24; 49 # 2] /\
    Forall2 Qeq corrected
      [-27 # 8; 2 # 3; 31 # 8; 1 # 4; -5 # 24; -31 # 2].
Proof.
  split; [vm_compute; reflexivity | ].
  eexists. eexists. split; [vm_compute; reflexivity | ].
  split; repeat constructor.
Qed.

(** One accepted point: the centred wavelength of the envelope is [0]
    and the fit of degree 4 raises [LinAlgError]. *)
Example calibrate_envelope_one_point :
  (exists e,
     envelope_scan ([1; 2; 3; 4], [0; 1; 0; 0]) 2 8 = Ok e /\
     wavelength_ref e = [1]) /\
  calibrate_envelope lstsq_polyfit ([1; 2; 3; 4], [5; 6; 7; 8])
    ([1; 2; 3; 4], [0; 1; 0; 0]) 2 8 4 = Raise LinAlgError.
Proof.
  split; [eexists; split; vm_compute; reflexivity | vm_compute; reflexivity].
Qed.

(** ** [cutback] *)

Section CutbackAxis.

Variable polyfit : list Q -> list Q -> nat -> result (list Q).

(** C9.  [cutback] takes its wavelength axis from the first trace and
    only the power of every trace: two families with the same powers and
    the same first axis give the same outcome, whatever the other axes
    are. *)
Theorem cutback_reads_first_axis_only
    (family1 family2 : list trace) (input_data_count : list Z)
    (wavelength : Q) :
  map snd family1 = map snd family2 ->
  option_map fst (hd_error family1) = option_map fst (hd_error family2) ->
  cutback polyfit family1 input_data_count wavelength
  = cutback polyfit family2 input_data_count wavelength.
Proof.
  intros Hpow Hhd.
  assert (Hfit : forall wd i s,
            cutback_fit polyfit family1 wd 8 i s
            = cutback_fit polyfit family2 wd 8 i s).
  { intros wd i s. unfold cutback_fit, trace in *.
    pose proof (getitem_map snd family1 i) as H1.
    pose proof (getitem_map snd family2 i) as H2.
    rewrite Hpow in H1. rewrite H1 in H2. clear H1. revert H2.
    destruct (getitem family1 i) as [r1 | e1 | ],
             (getitem family2 i) as [r2 | e2 | ];
      cbn [bind]; intros H2; try discriminate; try congruence.
    injection H2 as ->. reflexivity. }
  unfold cutback.
  destruct family1 as [ | t1 f1], family2 as [ | t2 f2];
    try discriminate; [reflexivity | ].
  cbn [hd_error option_map] in Hhd. injection Hhd as Haxis.
  change (getitem (t1 :: f1) 0) with (Ok t1).
  change (getitem (t2 :: f2) 0) with (Ok t2).
  cbn [bind]. rewrite Haxis.
  rewrite (for_range_ext _ _ (Hfit (fst t2))).
  reflexivity.
Qed.

End CutbackAxis.

(** C9 at two families that differ in the axis of the second trace. *)
Lemma cutback_reads_first_axis_only_witness :
  cutback lstsq_polyfit
    [([1; 2; 3], [0; 1; 0]); ([1; 2; 3], [-1; -1; -3])] [1; 2]%Z 2
  = cutback lstsq_polyfit
      [([1; 2; 3], [0; 1; 0]); ([10; 20; 30; 40], [-1; -1; -3])] [1; 2]%Z 2.
Proof.
  apply (cutback_reads_first_axis_only lstsq_polyfit); reflexivity.
Defined.

Lemma skipn_nth_error {A : Type} : forall (l : list A) (k : nat) (v : A),
  nth_error l k = Some v -> skipn k l = v :: skipn (S k) l.
Proof.
  induction l as [ | a l IH]; intros [ | k] v H; simpl in *; try discriminate.
  - congruence.
  - apply IH. exact H.
Qed.

Lemma getitem_transpose (rows : list (list Q)) (L j : nat) :
  rows <> [] -> Forall (fun r => length r = L) rows -> (j < L)%nat ->
  getitem (transpose rows) (Z.of_nat j)
  = Ok (map (fun row => nth j row 0) rows).
Proof.
  intros Hne Hlen Hj. apply getitem_nth_error.
  destruct rows as [ | r rows]; [congruence | ].
  unfold transpose. inversion Hlen; subst.
  rewrite nth_error_map, nth_error_seq.
  destruct (Nat.ltb_spec j (length r)); [reflexivity | lia].
Qed.

Lemma where_eq_first (v : Q) : forall (a : list Q) (k : Z),
  (exists u, In u a /\ u == v) ->
  exists idx rest, where_eq a v k = idx :: rest /\
                   (k <= idx < k + Z.of_nat (length a))%Z.
Proof.
  induction a as [ | u a IH]; intros k [u0 [Hin Heq]]; [contradiction | ].
  cbn [where_eq length]. destruct (Qeq_bool u v) eqn:E.
  - eexists; eexists; split; [reflexivity | lia].
  - destruct Hin as [-> | Hin].
    + apply Qeq_bool_iff in Heq. congruence.
    + destruct (IH (k + 1)%Z) as [idx [rest [Hw Hr]]]; [eauto | ].
      exists idx, rest. split; [exact Hw | lia].
Qed.

(** A line that goes through the points of a line has that line's
    slope, once two of the abscissas differ. *)
Lemma affine_slope (xs col : list Q) (s t A B : Q) :
  Forall2 Qeq (polyval [s; t] xs) col ->
  Forall2 (fun v x => v == A - B * x) col xs ->
  (exists x1 x2, In x1 xs /\ In x2 xs /\ ~ x1 == x2) ->
  s == - B.
Proof.
  intros Hfit Hcol Hdist.
  assert (Hall : forall x, In x xs -> s * x + t == A - B * x).
  { clear Hdist. revert col Hfit Hcol.
    induction xs as [ | x0 xs IH]; intros col Hfit Hcol x Hin; [contradiction | ].
    cbn [polyval map] in Hfit. inversion Hfit as [ | ? v ? col' Hv Hrest]; subst.
    inversion Hcol as [ | ? ? ? ? Hv0 Hrest0]; subst.
    destruct Hin as [<- | Hin].
    - rewrite <- Hv0, <- Hv. unfold polyval1. cbn [fold_left]. ring.
    - eapply IH; eassumption. }
  destruct Hdist as (x1 & x2 & H1 & H2 & Hne).
  pose proof (Hall x1 H1) as E1. pose proof (Hall x2 H2) as E2.
  assert (Hprod : (s + B) * (x1 - x2) == 0) by nra.
  destruct (Qmult_integral _ _ Hprod) as [Hs | Hx]; [lra | ].
  exfalso. apply Hne. lra.
Qed.

Lemma on_line_column (n : nat) (A B : Q) (xs : list Q)
    (rows : list (list Q)) (j : nat) :
  on_line n A B xs rows -> (j < n)%nat ->
  Forall2 (fun v x => v == A - B * x) (map (fun row => nth j row 0) rows) xs.
Proof.
  intros H Hj. induction H as [ | row x rows xs' [Hlen Hrow] H IH];
    cbn [map]; constructor.
  - rewrite Forall_forall in Hrow. apply Hrow. apply nth_In. lia.
  - exact IH.
Qed.

Lemma on_line_lengths (n : nat) (A B : Q) (xs : list Q)
    (rows : list (list Q)) :
  on_line n A B xs rows -> Forall (fun r => length r = n) rows.
Proof.
  induction 1 as [ | row x rows xs' [Hlen _] H IH]; constructor; assumption.
Qed.

Lemma on_line_length (n : nat) (A B : Q) (xs : list Q)
    (rows : list (list Q)) :
  on_line n A B xs rows -> length rows = length xs.
Proof. induction 1; simpl; congruence. Qed.

Lemma on_line_Qeq (n : nat) (A B : Q) (xs : list Q)
    (rows rows' : list (list Q)) :
  Forall2 (Forall2 Qeq) rows' rows -> on_line n A B xs rows ->
  on_line n A B xs rows'.
Proof.
  intros H. unfold on_line. revert xs.
  induction H as [ | r' r rows' rows Hr H IH]; intros xs' Hl;
    inversion Hl as [ | ? x ? xs'' [Hlen Hrow] Hrest]; subst; constructor.
  - split.
    + rewrite (Forall2_length_Q _ _ Hr). reflexivity.
    + clear - Hr Hrow. induction Hr as [ | u v r' r Huv Hr IH];
        constructor; inversion Hrow; subst.
      * rewrite Huv. assumption.
      * auto.
  - apply IH. exact Hrest.
Qed.

Section CutbackLinearity.

Variable polyfit : list Q -> list Q -> nat -> result (list Q).
Hypothesis polyfit_ok : polyfit_contract polyfit.

Variable wavelength_data : list Q.
Hypothesis axis_varies : varies wavelength_data.

Lemma linear_axis_nonempty : wavelength_data <> [].
Proof. exact (varies_nonempty wavelength_data axis_varies). Qed.

(** The first loop on traces of constant power: the raw powers are
    collected as they are and every fitted curve reproduces its trace. *)
Lemma cutback_fit_constant (family : list trace) :
  Forall (fun tr => length (snd tr) = length wavelength_data /\
                    exists c, Forall (fun v => v == c) (snd tr)) family ->
  forall m k accP accF, (k + m = length family)%nat ->
  exists fits,
    for_range (Z.of_nat k) m (cutback_fit polyfit family wavelength_data 8)
      (accP, accF)
    = Ok (accP ++ map snd (skipn k family), accF ++ fits) /\
    Forall2 (Forall2 Qeq) fits (map snd (skipn k family)).
Proof.
  intros Hfam. induction m as [ | m IH]; intros k accP accF Hk;
    cbn [for_range].
  - exists []. rewrite skipn_all2 by lia. cbn [map]. rewrite !app_nil_r.
    split; [reflexivity | constructor].
  - destruct (nth_error family k) as [tr | ] eqn:Etr;
      [ | apply nth_error_None in Etr; lia].
    pose proof (nth_error_In _ _ Etr) as Hin.
    rewrite Forall_forall in Hfam. destruct (Hfam tr Hin) as [Hlen [c Hc]].
    destruct (polyfit_exact polyfit polyfit_ok (center wavelength_data)
                (snd tr) [c] 8) as [pfit [Hfit [_ Hrep]]].
    + apply center_nonempty. exact linear_axis_nonempty.
    + rewrite length_center. congruence.
    + right. apply center_varies. exact axis_varies.
    + simpl. lia.
    + apply polyval_const; [rewrite length_center; congruence | exact Hc].
    + unfold cutback_fit at 1. rewrite (getitem_nth_error _ _ _ Etr).
      cbn [bind fst snd]. rewrite Hfit. cbn [bind].
      replace (Z.of_nat k + 1)%Z with (Z.of_nat (S k)) by lia.
      destruct (IH (S k) (accP ++ [snd tr])
                  (accF ++ [polyval pfit (center wavelength_data)]))
        as [fits [Hloop Hfits]]; [lia | ].
      exists (polyval pfit (center wavelength_data) :: fits).
      rewrite Hloop, (skipn_nth_error _ _ _ Etr). cbn [map].
      rewrite <- !app_assoc. cbn [app].
      split; [reflexivity | constructor; assumption].
Qed.

Variables A B : Q.
Variable xs : list Q.
Hypothesis xs_distinct : exists x1 x2, In x1 xs /\ In x2 xs /\ ~ x1 == x2.

(** One regression: the column lies on the line [A - B * x]. *)
Lemma regress_column (col : list Q) :
  Forall2 (fun v x => v == A - B * x) col xs ->
  exists loss, polyfit xs col 1 = Ok loss /\ has_slope B loss.
Proof.
  intros Hcol.
  assert (Hlen : length xs = length col).
  { clear - Hcol. induction Hcol; simpl; congruence. }
  assert (Hne : xs <> []).
  { destruct xs_distinct as (x1 & _ & H1 & _). intros ->. contradiction. }
  destruct (polyfit_exact polyfit polyfit_ok xs col [- B; A] 1 Hne Hlen
              (or_intror (varies_not_all_zero xs xs_distinct)))
    as [loss [Hfit [[Hl _] Hrep]]].
  - simpl. lia.
  - clear - Hcol. induction Hcol as [ | v x col xs' Hv H IH];
      cbn [polyval map]; constructor.
    + rewrite Hv. unfold polyval1. cbn [fold_left]. ring.
    + exact IH.
  - exists loss. split; [exact Hfit | ].
    destruct loss as [ | s [ | t [ | ? ?]]]; try discriminate.
    exists s, t. split; [reflexivity | ].
    eapply affine_slope; eassumption.
Qed.

(** The second loop: every entry of both lists has the slope [- B]. *)
Lemma cutback_regress_line (power_fit power : list (list Q)) :
  on_line (length wavelength_data) A B xs power_fit ->
  on_line (length wavelength_data) A B xs power ->
  forall m k acc1 acc2, (k + m = length wavelength_data)%nat ->
  exists l1 l2,
    for_range (Z.of_nat k) m
      (cutback_regress polyfit xs (transpose power_fit) (transpose power))
      (acc1, acc2)
    = Ok (acc1 ++ l1, acc2 ++ l2) /\
    length l1 = m /\ length l2 = m /\
    Forall (has_slope B) l1 /\ Forall (has_slope B) l2.
Proof.
  intros Hfit Hraw.
  assert (Hne : forall rows,
            on_line (length wavelength_data) A B xs rows -> rows <> []).
  { intros rows H Hnil. apply on_line_length in H. rewrite Hnil in H.
    destruct xs_distinct as (x1 & _ & H1 & _).
    destruct xs; [contradiction | discriminate]. }
  induction m as [ | m IH]; intros k acc1 acc2 Hk; cbn [for_range].
  - exists [], []. rewrite !app_nil_r. repeat split; constructor.
  - unfold cutback_regress at 1.
    rewrite (getitem_transpose power_fit (length wavelength_data) k);
      [ | auto | eapply on_line_lengths; eassumption | lia].
    cbn [bind].
    destruct (regress_column (map (fun row => nth k row 0) power_fit))
      as [loss [Hloss Hs]];
      [apply (on_line_column (length wavelength_data)); [assumption | lia] | ].
    rewrite Hloss. cbn [bind].
    rewrite (getitem_transpose power (length wavelength_data) k);
      [ | auto | eapply on_line_lengths; eassumption | lia].
    cbn [bind].
    destruct (regress_column (map (fun row => nth k row 0) power))
      as [loss_raw [Hloss_raw Hsr]];
      [apply (on_line_column (length wavelength_data)); [assumption | lia] | ].
    rewrite Hloss_raw. cbn [bind fst snd].
    replace (Z.of_nat k + 1)%Z with (Z.of_nat (S k)) by lia.
    destruct (IH (S k) (acc1 ++ [loss]) (acc2 ++ [loss_raw]))
      as (l1 & l2 & Hloop & Hl1 & Hl2 & Hs1 & Hs2); [lia | ].
    exists (loss :: l1), (loss_raw :: l2).
    rewrite Hloop, <- !app_assoc. cbn [app length].
    repeat split; try congruence; constructor; assumption.
Qed.

Lemma slopes_transpose (losses : list (list Q)) :
  losses <> [] -> Forall (has_slope B) losses ->
  exists slopes, getitem (transpose losses) 0 = Ok slopes /\
                 length slopes = length losses /\
                 Forall (fun v => v == - B) slopes.
Proof.
  intros Hne Hs.
  exists (map (fun row => nth 0 row 0) losses). split; [ | split].
  - apply (getitem_transpose losses 2 0 Hne); [ | lia].
    eapply Forall_impl; [ | exact Hs].
    intros l (s & t & -> & _). reflexivity.
  - apply length_map.
  - apply Forall_map. eapply Forall_impl; [ | exact Hs].
    intros l (s & t & -> & Hsl). exact Hsl.
Qed.

End CutbackLinearity.

Section CutbackTheorem.

Variable polyfit : list Q -> list Q -> nat -> result (list Q).
Hypothesis polyfit_ok : polyfit_contract polyfit.

(** C2, as the code has it.  On a family that shares one axis with two
    different wavelengths and whose power is [A - B * count] at every
    sample of the trace with that count, with the wavelength of interest
    on the axis and at least two different counts in the family,
    [cutback] returns [- B] as the loss at the wavelength and as every
    entry of both slope profiles. *)
Theorem cutback_linearity (family : list trace) (counts : list Z)
    (wavelength_data : list Q) (wavelength A B : Q) :
  Forall2 (fun tr c =>
             fst tr = wavelength_data /\
             length (snd tr) = length wavelength_data /\
             Forall (fun v => v == A - B * inject_Z c) (snd tr))
    family counts ->
  varies wavelength_data ->
  (exists v, In v wavelength_data /\ v == wavelength) ->
  (exists c1 c2, In c1 counts /\ In c2 counts /\ c1 <> c2) ->
  exists loss_at_wavelength loss_fit loss_raw,
    cutback polyfit family counts wavelength
      = Ok (loss_at_wavelength, loss_fit, loss_raw) /\
    loss_at_wavelength == - B /\
    length loss_fit = length wavelength_data /\
    Forall (fun v => v == - B) loss_fit /\
    length loss_raw = length wavelength_data /\
    Forall (fun v => v == - B) loss_raw.
Proof.
  intros Hfam Hvaries Hpresent Hdistinct.
  set (xs := map inject_Z counts).
  assert (Haxis : wavelength_data <> []).
  { destruct Hpresent as [v [Hin _]]. intros ->. contradiction. }
  assert (Hxs : exists x1 x2, In x1 xs /\ In x2 xs /\ ~ x1 == x2).
  { destruct Hdistinct as (c1 & c2 & H1 & H2 & Hne).
    exists (inject_Z c1), (inject_Z c2). unfold xs.
    repeat split; try (apply in_map; assumption).
    intros Heq. apply Hne. apply inject_Z_injective. exact Heq. }
  assert (Hlen : length family = length counts).
  { clear - Hfam. induction Hfam; simpl; congruence. }
  assert (Hconst : Forall (fun tr => length (snd tr) = length wavelength_data /\
                             exists c, Forall (fun v => v == c) (snd tr)) family).
  { clear - Hfam. induction Hfam as [ | tr c family counts (_ & Hl & Hc) H IH];
      constructor; [ | exact IH].
    split; [exact Hl | eexists; exact Hc]. }
  assert (Hraw : on_line (length wavelength_data) A B xs (map snd family)).
  { unfold on_line, xs. clear - Hfam.
    induction Hfam as [ | tr c family counts (_ & Hl & Hc) H IH];
      cbn [map]; constructor; [ | exact IH].
    split; assumption. }
  destruct family as [ | first rest].
  { destruct Hdistinct as (c1 & _ & H1 & _).
    destruct counts; [contradiction | discriminate]. }
  assert (Hfirst : fst first = wavelength_data)
    by (inversion Hfam as [ | ? ? ? ? (Hf & _) _]; exact Hf).
  unfold cutback. change (getitem (first :: rest) 0) with (Ok first).
  cbn [bind]. rewrite Hfirst.
  destruct (cutback_fit_constant polyfit polyfit_ok wavelength_data Hvaries
              (first :: rest) Hconst (length counts) 0 [] [])
    as [fits [Hloop Hfits]]; [simpl in *; lia | ].
  change (Z.of_nat 0) with 0%Z in Hloop. rewrite Hloop.
  cbn [bind fst snd skipn app].
  cbn [skipn] in Hfits.
  assert (Hfitted : on_line (length wavelength_data) A B xs fits)
    by (eapply on_line_Qeq; eassumption).
  destruct (where_eq_first wavelength wavelength_data 0 Hpresent)
    as (index & others & Hwhere & Hindex).
  rewrite Hwhere. change (getitem (index :: others) 0) with (Ok index).
  cbn [bind].
  destruct (cutback_regress_line polyfit polyfit_ok wavelength_data A B xs Hxs
              fits (map snd (first :: rest)) Hfitted Hraw
              (length wavelength_data) 0 [] [])
    as (l1 & l2 & Hreg & Hl1 & Hl2 & Hs1 & Hs2); [lia | ].
  change (Z.of_nat 0) with 0%Z in Hreg. fold xs. rewrite Hreg.
  cbn [bind fst snd app].
  destruct (getitem_in_range l1 index) as [at_index Hat]; [lia | ].
  rewrite Hat. cbn [bind].
  pose proof (getitem_In _ _ _ Hat) as Hin.
  rewrite Forall_forall in Hs1.
  destruct (Hs1 at_index Hin) as (s & t & -> & Hslope).
  change (getitem [s; t] 0) with (Ok s). cbn [bind].
  rewrite <- Forall_forall in Hs1.
  assert (Hne1 : l1 <> [])
    by (destruct l1;
        [destruct wavelength_data; simpl in *; congruence | discriminate]).
  assert (Hne2 : l2 <> [])
    by (destruct l2;
        [destruct wavelength_data; simpl in *; congruence | discriminate]).
  destruct (slopes_transpose B l1 Hne1 Hs1) as (fit & Hfit & Hfl & Hfs).
  destruct (slopes_transpose B l2 Hne2 Hs2) as (raw & Hrw & Hrl & Hrs).
  rewrite Hfit, Hrw. cbn [bind].
  exists s, fit, raw. repeat split; try assumption; congruence.
Qed.

End CutbackTheorem.

(** C2 fails as stated on a family with a single count: the trace
    [0, 0, 0] with count 1 is [A - B * count] for [A = B = 1], and the
    loss that comes back is 0, not -1. *)
Lemma cutback_linearity_counterexample :
  exists loss_at_wavelength loss_fit loss_raw,
    cutback lstsq_polyfit [([1; 2; 3], [0; 0; 0])] [1%Z] 2
      = Ok (loss_at_wavelength, loss_fit, loss_raw) /\
    Forall (fun v => v == 1 - 1 * inject_Z 1) [0; 0; 0] /\
    ~ loss_at_wavelength == - (1) /\
    ~ Forall (fun v => v == - (1)) loss_fit /\
    ~ Forall (fun v => v == - (1)) loss_raw.
Proof.
  exists 0, [0; 0; 0], [0; 0; 0].
  split; [vm_compute; reflexivity | ].
  split; [repeat constructor | ].
  split; [discriminate | ].
  split; intros H; inversion H as [ | ? ? Hhd _]; discriminate Hhd.
Qed.

(** C2 at three traces with counts 1, 2 and 4, [A = 3] and [B = 1/2]. *)
Lemma cutback_linearity_witness :
  exists loss_at_wavelength loss_fit loss_raw,
    cutback lstsq_polyfit
      [([1; 2; 3], [5 # 2; 5 # 2; 5 # 2]);
       ([1; 2; 3], [2; 2; 2]);
       ([1; 2; 3], [1; 1; 1])] [1; 2; 4]%Z 2
      = Ok (loss_at_wavelength, loss_fit, loss_raw) /\
    loss_at_wavelength == - (1 # 2) /\
    length loss_fit = length [1; 2; 3] /\
    Forall (fun v => v == - (1 # 2)) loss_fit /\
    length loss_raw = length [1; 2; 3] /\
    Forall (fun v => v == - (1 # 2)) loss_raw.
Proof.
  apply (cutback_linearity lstsq_polyfit lstsq_polyfit_contract _ _
           [1; 2; 3] 2 3 (1 # 2)).
  - repeat constructor.
  - exists 1, 2. split; [left; reflexivity | ].
    split; [right; left; reflexivity | discriminate].
  - exists 2. split; [simpl; auto | reflexivity].
  - exists 1%Z, 2%Z. repeat split; simpl; auto. discriminate.
Defined.

(** ** [bandwidth] *)

Lemma argmin_from_range : forall (a : list Q) (best : Q) (besti i : Z),
  (0 <= besti < i)%Z ->
  (0 <= argmin_from best besti i a < i + Z.of_nat (length a))%Z.
Proof.
  induction a as [ | v a IH]; intros best besti i H; cbn [argmin_from length].
  - lia.
  - destruct (Qltb v best).
    + specialize (IH v i (i + 1)%Z ltac:(lia)). lia.
    + specialize (IH best besti (i + 1)%Z ltac:(lia)). lia.
Qed.

Lemma argmin_range (a : list Q) (idx : Z) :
  argmin a = Ok idx -> (0 <= idx < Z.of_nat (length a))%Z.
Proof.
  destruct a as [ | v a]; cbn [argmin]; [discriminate | ].
  intros H. assert (Hidx : idx = argmin_from v 0 1 a) by congruence.
  pose proof (argmin_from_range a v 0 1 ltac:(lia)) as Hr.
  cbn [length]. lia.
Qed.

Lemma find_nearest_range (array : list Q) (value : Q) (idx : Z) :
  find_nearest array value = Ok idx ->
  (0 <= idx < Z.of_nat (length array))%Z.
Proof.
  unfold find_nearest. intros H. apply argmin_range in H.
  rewrite length_map in H. exact H.
Qed.

Section Scans.

Variable mask : list bool.
Let n : Z := Z.of_nat (length mask).

Lemma scan_left_Raise : forall fuel i e,
  scan_left mask fuel i = Raise e -> e = IndexError.
Proof.
  unfold scan_left.
  induction fuel as [ | fuel IH]; intros i e; cbn [while]; [discriminate | ].
  destruct (getitem mask i) as [[ | ] | e' | ] eqn:E; cbn [bind];
    try discriminate.
  - apply IH.
  - intros [= <-]. eapply getitem_Raise; eassumption.
Qed.

(** The left scan ends: it stops at a sample out of band or fails below
    index [- len]. *)
Lemma scan_left_ends : forall fuel i,
  (- n - 1 <= i)%Z -> (i + n + 2 <= Z.of_nat fuel)%Z ->
  scan_left mask fuel i <> Diverge.
Proof.
  unfold scan_left.
  induction fuel as [ | fuel IH]; intros i Hlow Hfuel; cbn [while]; [lia | ].
  destruct (getitem mask i) as [[ | ] | e | ] eqn:E; cbn [bind];
    try discriminate.
  - apply getitem_Ok_range in E. fold n in E. apply IH; lia.
  - exfalso. eapply getitem_not_Diverge; eassumption.
Qed.

Lemma scan_right_ends : forall fuel i,
  (i <= n)%Z -> (n - i + 1 <= Z.of_nat fuel)%Z ->
  scan_right mask fuel i <> Diverge.
Proof.
  unfold scan_right.
  induction fuel as [ | fuel IH]; intros i Hhigh Hfuel; cbn [while]; [lia | ].
  destruct (getitem mask i) as [[ | ] | e | ] eqn:E; cbn [bind];
    try discriminate.
  - apply getitem_Ok_range in E. fold n in E. apply IH; lia.
  - exfalso. eapply getitem_not_Diverge; eassumption.
Qed.

(** In band from [i] to the last index: the right scan reads index
    [len] and fails. *)
Lemma scan_right_overrun : forall k fuel i,
  (i + Z.of_nat k = n)%Z ->
  (forall j, (i <= j < n)%Z -> getitem mask j = Ok true) ->
  (k < fuel)%nat -> scan_right mask fuel i = Raise IndexError.
Proof.
  unfold scan_right.
  induction k as [ | k IH]; intros fuel i Hi Hband Hfuel;
    (destruct fuel as [ | fuel]; [lia | ]); cbn [while].
  - rewrite getitem_past_end by (fold n; lia). reflexivity.
  - rewrite Hband by lia. cbn [bind]. apply IH; [lia | | lia].
    intros j Hj. apply Hband. lia.
Qed.

(** In band from [i] to [i + k - 1] and out of band at [i + k]: the
    right scan stops there. *)
Lemma scan_right_stops : forall k fuel i,
  (forall j, (i <= j < i + Z.of_nat k)%Z -> getitem mask j = Ok true) ->
  getitem mask (i + Z.of_nat k) = Ok false ->
  (k < fuel)%nat -> scan_right mask fuel i = Ok (i + Z.of_nat k)%Z.
Proof.
  unfold scan_right.
  induction k as [ | k IH]; intros fuel i Hband Hedge Hfuel;
    (destruct fuel as [ | fuel]; [lia | ]); cbn [while].
  - replace (i + Z.of_nat 0)%Z with i in * by lia.
    rewrite Hedge. reflexivity.
  - rewrite Hband by lia. cbn [bind].
    replace (i + Z.of_nat (S k))%Z with (i + 1 + Z.of_nat k)%Z in * by lia.
    apply IH; [ | assumption | lia].
    intros j Hj. apply Hband. lia.
Qed.


End Scans.

(** [bandwidth] always ends, with a value or with an exception: the
    bound on its two loops is never met. *)
Lemma bandwidth_ends (input_data_response : trace) (threshold : Q) :
  bandwidth input_data_response threshold <> Diverge.
Proof.
  unfold bandwidth. cbv zeta.
  destruct (py_max (snd input_data_response)) as [peak | e | ] eqn:Emax;
    cbn [bind]; try discriminate.
  2: { destruct (snd input_data_response); discriminate. }
  destruct (find_nearest (snd input_data_response) peak) as [c | e | ] eqn:Ec;
    cbn [bind]; try discriminate.
  2: { unfold find_nearest, argmin in Ec.
       destruct (map _ (snd input_data_response)); discriminate. }
  apply find_nearest_range in Ec.
  set (mask := band_mask (snd input_data_response) peak threshold).
  assert (Hlen : length mask = length (snd input_data_response))
    by apply length_map.
  pose proof (scan_left_ends mask (bandwidth_fuel mask) c) as HL.
  pose proof (scan_right_ends mask (bandwidth_fuel mask) c) as HR.
  unfold bandwidth_fuel in HL, HR.
  destruct (scan_left mask (bandwidth_fuel mask) c) as [lb | e | ] eqn:EL;
    cbn [bind]; try discriminate;
    [ | exfalso; apply HL; [lia | lia | exact EL]].
  destruct (scan_right mask (bandwidth_fuel mask) c) as [rb | e | ] eqn:ER;
    cbn [bind]; try discriminate;
    [ | exfalso; apply HR; [lia | lia | exact ER]].
  destruct (getitem (fst input_data_response) rb) eqn:E1; cbn [bind];
    try discriminate; [ | exfalso; eapply getitem_not_Diverge; eassumption].
  destruct (getitem (fst input_data_response) lb) eqn:E2; cbn [bind];
    try discriminate. exfalso; eapply getitem_not_Diverge; eassumption.
Qed.

(** In band from the peak to the last index: the right scan leaves the
    array and [bandwidth] fails, whatever the left scan did. *)
Lemma bandwidth_right_overrun (wavelength response : list Q)
    (threshold peak : Q) (center_index : Z) :
  py_max response = Ok peak ->
  find_nearest response peak = Ok center_index ->
  (forall j, (center_index <= j < Z.of_nat (length response))%Z ->
             getitem (band_mask response peak threshold) j = Ok true) ->
  bandwidth (wavelength, response) threshold = Raise IndexError.
Proof.
  intros Hmax Hnear Hband.
  pose proof (find_nearest_range _ _ _ Hnear) as Hc.
  unfold bandwidth. cbv zeta. cbn [fst snd].
  rewrite Hmax. cbn [bind]. rewrite Hnear. cbn [bind].
  set (mask := band_mask response peak threshold) in *.
  assert (Hlen : length mask = length response) by apply length_map.
  assert (Hright : scan_right mask (bandwidth_fuel mask) center_index
                   = Raise IndexError).
  { apply (scan_right_overrun mask
             (Z.to_nat (Z.of_nat (length response) - center_index))).
    - rewrite Hlen. lia.
    - rewrite Hlen. exact Hband.
    - unfold bandwidth_fuel. lia. }
  destruct (scan_left mask (bandwidth_fuel mask) center_index)
    as [lb | e | ] eqn:EL; cbn [bind].
  - rewrite Hright. reflexivity.
  - apply scan_left_Raise in EL. congruence.
  - exfalso. revert EL. apply scan_left_ends; unfold bandwidth_fuel; lia.
Qed.

(* [bandwidth] on a trace without a peak *)

Lemma last_cons (l : list Q) : forall a b, last (b :: l) a = last l b.
Proof.
  induction l as [ | c l IH]; intros a b; [reflexivity | ].
  change (last (b :: c :: l) a) with (last (c :: l) a).
  rewrite (IH a c), (IH b c). reflexivity.
Qed.

Lemma py_max_increasing : forall (l : list Q) (a : Q),
  Sorted Qlt (a :: l) ->
  fold_left (fun m u => if Qltb m u then u else m) l a = last l a.
Proof.
  induction l as [ | b l IH]; intros a Hs; cbn [fold_left].
  - reflexivity.
  - inversion Hs as [ | ? ? Hs' Hhd]; subst.
    inversion Hhd as [ | ? ? Hab]; subst.
    apply Qltb_true in Hab. rewrite Hab. rewrite IH by assumption.
    symmetry. apply last_cons.
Qed.

Lemma argmin_from_decreasing : forall (l : list Q) (best : Q) (besti i : Z),
  Sorted (fun x y => y < x) (best :: l) ->
  argmin_from best besti i l
  = match l with [] => besti | _ :: _ => (i + Z.of_nat (length l) - 1)%Z end.
Proof.
  induction l as [ | v l IH]; intros best besti i Hs; cbn [argmin_from].
  - reflexivity.
  - inversion Hs as [ | ? ? Hs' Hhd]; subst.
    inversion Hhd as [ | ? ? Hv]; subst.
    apply Qltb_true in Hv. rewrite Hv. rewrite IH by assumption.
    destruct l; cbn [length]; lia.
Qed.

Lemma increasing_below_last : forall (l : list Q) (a : Q),
  Sorted Qlt (a :: l) -> Forall (fun v => v <= last l a) (a :: l).
Proof.
  induction l as [ | b l IH]; intros a Hs.
  - constructor; [cbn; lra | constructor].
  - inversion Hs as [ | ? ? Hs' Hhd]; subst.
    inversion Hhd as [ | ? ? Hab]; subst.
    specialize (IH b Hs').
    assert (Hlast : last (b :: l) a = last l b) by apply last_cons.
    rewrite Hlast. constructor; [ | exact IH].
    inversion IH; subst. lra.
Qed.

Lemma distance_decreasing (peak : Q) : forall (l : list Q) (a : Q),
  Sorted Qlt (a :: l) -> Forall (fun v => v <= peak) (a :: l) ->
  Sorted (fun x y => y < x) (map (fun v => Qabs (v - peak)) (a :: l)).
Proof.
  induction l as [ | b l IH]; intros a Hs Hle; cbn [map].
  - constructor; constructor.
  - inversion Hs as [ | ? ? Hs' Hhd]; subst.
    inversion Hhd as [ | ? ? Hab]; subst.
    inversion Hle as [ | ? ? Ha Hle']; subst.
    constructor; [apply (IH b); assumption | ].
    constructor. inversion Hle'; subst.
    rewrite !Qabs_neg by lra. lra.
Qed.

Lemma nth_error_last (l : list Q) : forall a,
  nth_error (a :: l) (length l) = Some (last l a).
Proof.
  induction l as [ | b l IH]; intros a; [reflexivity | ].
  cbn [length nth_error]. rewrite IH. f_equal. symmetry. apply last_cons.
Qed.

(** X5.  On a strictly increasing trace the peak is the last sample: with
    a positive threshold the right scan starts in band on the last index
    and [bandwidth] fails with [IndexError]. *)
Lemma bandwidth_increasing_raises (wavelength : list Q) (a : Q) (l : list Q)
    (threshold : Q) :
  Sorted Qlt (a :: l) -> 0 < threshold ->
  bandwidth (wavelength, a :: l) threshold = Raise IndexError.
Proof.
  intros Hs Hthr.
  assert (Hmax : py_max (a :: l) = Ok (last l a)).
  { cbn [py_max]. rewrite py_max_increasing by assumption. reflexivity. }
  assert (Hnear : find_nearest (a :: l) (last l a) = Ok (Z.of_nat (length l))).
  { unfold find_nearest. cbn [map argmin].
    pose proof (distance_decreasing (last l a) l a Hs
                  (increasing_below_last l a Hs)) as Hd.
    cbn [map] in Hd. rewrite argmin_from_decreasing by exact Hd.
    destruct l; cbn [map length]; [reflexivity | ].
    rewrite length_map. f_equal. lia. }
  apply (bandwidth_right_overrun wavelength (a :: l) threshold _ _ Hmax Hnear).
  intros j Hj. cbn [length] in Hj.
  replace j with (Z.of_nat (length l)) by lia.
  unfold band_mask. rewrite getitem_map.
  rewrite (getitem_nth_error _ _ _ (nth_error_last l a)). cbn [bind].
  f_equal. apply Qltb_true. lra.
Qed.



(** C3 fails on the code: the peak is on the first sample, the left scan
    runs past index 0, and [bandwidth] returns a negative width measured
    from the last wavelength instead of failing. *)
Lemma bandwidth_left_edge_wraps :
  bandwidth ([1; 2; 3], [10; 0; 0]) 3 = Ok (-1, 5 # 2).
Proof. vm_compute. reflexivity. Qed.

(** A peak in the middle of the trace: both scans stop inside the array,
    the width is [4 - 2] and the centre is the peak. *)
Example bandwidth_peak :
  bandwidth ([1; 2; 3; 4; 5], [0; 5; 10; 5; 0]) 3 = Ok (2, 6 # 2).
Proof. vm_compute. reflexivity. Qed.

(** ** More on [find_nearest] and [bandwidth] *)

(** [argmin_from] keeps the running minimum: the result is the old best
    index when nothing in the rest is smaller, and otherwise the first
    index of the smallest entry of the rest. *)
Lemma argmin_from_spec : forall (a : list Q) (best : Q) (besti i : Z),
  (argmin_from best besti i a = besti /\
   Forall (fun v => best <= v) a) \/
  (exists k,
     (k < length a)%nat /\
     argmin_from best besti i a = (i + Z.of_nat k)%Z /\
     nth k a 0 < best /\
     Forall (fun v => nth k a 0 <= v) a /\
     forall j, (j < k)%nat -> nth k a 0 < nth j a 0).
Proof.
  induction a as [ | v a IH]; intros best besti i; cbn [argmin_from].
  - left. split; [reflexivity | constructor].
  - destruct (Qltb v best) eqn:E.
    + apply Qltb_true in E. right.
      destruct (IH v i (i + 1)%Z) as [[Hr Hall] | (k & Hk & Hr & Hlt & Hall & Hfirst)].
      * exists 0%nat. cbn [nth length]. repeat split.
        -- lia.
        -- rewrite Hr. lia.
        -- exact E.
        -- constructor; [lra | exact Hall].
        -- intros j Hj. lia.
      * exists (S k). cbn [nth length]. repeat split.
        -- lia.
        -- rewrite Hr. lia.
        -- lra.
        -- constructor; [lra | exact Hall].
        -- intros [ | j] Hj; cbn [nth]; [exact Hlt | apply Hfirst; lia].
    + apply Qltb_false in E.
      destruct (IH best besti (i + 1)%Z) as [[Hr Hall] | (k & Hk & Hr & Hlt & Hall & Hfirst)].
      * left. split; [exact Hr | constructor; assumption].
      * right. exists (S k). cbn [nth length]. repeat split.
        -- lia.
        -- rewrite Hr. lia.
        -- exact Hlt.
        -- constructor; [lra | exact Hall].
        -- intros [ | j] Hj; cbn [nth]; [lra | apply Hfirst; lia].
Qed.

(** [a.argmin()] is the first index of a smallest entry. *)
Lemma argmin_spec (a : list Q) (idx : Z) :
  argmin a = Ok idx ->
  exists k,
    idx = Z.of_nat k /\ (k < length a)%nat /\
    Forall (fun v => nth k a 0 <= v) a /\
    forall j, (j < k)%nat -> nth k a 0 < nth j a 0.
Proof.
  destruct a as [ | v a]; cbn [argmin]; [discriminate | ].
  intros H. assert (Hidx : idx = argmin_from v 0 1 a) by congruence.
  destruct (argmin_from_spec a v 0 1) as [[Hr Hall] | (k & Hk & Hr & Hlt & Hall & Hfirst)].
  - exists 0%nat. cbn [nth length]. repeat split.
    + rewrite Hidx, Hr. reflexivity.
    + lia.
    + constructor; [lra | exact Hall].
    + intros j Hj. lia.
  - exists (S k). cbn [nth length]. repeat split.
    + rewrite Hidx, Hr. lia.
    + lia.
    + constructor; [lra | exact Hall].
    + intros [ | j] Hj; cbn [nth]; [exact Hlt | apply Hfirst; lia].
Qed.

(** X1.  [find_nearest] returns the first index at which the array is
    nearest to the value: no entry is nearer, and every earlier entry is
    strictly farther. *)
Theorem find_nearest_first_nearest (array : list Q) (value : Q) (idx : Z) :
  find_nearest array value = Ok idx ->
  exists k,
    idx = Z.of_nat k /\ (k < length array)%nat /\
    (forall j, (j < length array)%nat ->
       Qabs (nth k array 0 - value) <= Qabs (nth j array 0 - value)) /\
    (forall j, (j < k)%nat ->
       Qabs (nth k array 0 - value) < Qabs (nth j array 0 - value)).
Proof.
  unfold find_nearest. intros H.
  destruct (argmin_spec _ _ H) as (k & Hidx & Hk & Hall & Hfirst).
  rewrite length_map in Hk.
  set (d := fun v => Qabs (v - value)) in *.
  assert (Hnth : forall j, (j < length array)%nat ->
            nth j (map d array) 0 = d (nth j array 0)).
  { intros j Hj. rewrite (nth_indep _ 0 (d 0)) by (rewrite length_map; exact Hj).
    apply map_nth. }
  exists k. repeat split; try assumption.
  - intros j Hj. change (d (nth k array 0) <= d (nth j array 0)).
    rewrite <- !Hnth by assumption.
    rewrite Forall_forall in Hall. apply Hall. apply nth_In.
    rewrite length_map. exact Hj.
  - intros j Hj. change (d (nth k array 0) < d (nth j array 0)).
    rewrite <- !Hnth by lia. apply Hfirst. exact Hj.
Qed.

(** X1 at the array [1, 5, 9, 13, 9] and the value 10: the first of the
    two entries 9 is reported. *)
Lemma find_nearest_first_nearest_witness :
  exists k,
    2%Z = Z.of_nat k /\ (k < length [1; 5; 9; 13; 9])%nat /\
    (forall j, (j < length [1; 5; 9; 13; 9])%nat ->
       Qabs (nth k [1; 5; 9; 13; 9] 0 - 10)
       <= Qabs (nth j [1; 5; 9; 13; 9] 0 - 10)) /\
    (forall j, (j < k)%nat ->
       Qabs (nth k [1; 5; 9; 13; 9] 0 - 10)
       < Qabs (nth j [1; 5; 9; 13; 9] 0 - 10)).
Proof.
  apply (find_nearest_first_nearest [1; 5; 9; 13; 9] 10 2).
  vm_compute. reflexivity.
Defined.

(** The builtin [max] returns an entry of the sequence that no entry
    exceeds. *)
Lemma py_max_spec (a : list Q) (m : Q) :
  py_max a = Ok m -> In m a /\ Forall (fun v => v <= m) a.
Proof.
  destruct a as [ | v a]; cbn [py_max]; [discriminate | ].
  intros H. assert (Hm : m = fold_left (fun m u => if Qltb m u then u else m) a v)
    by congruence.
  subst m. clear H.
  assert (Hgen : forall (l : list Q) (b : Q),
            let r := fold_left (fun m u => if Qltb m u then u else m) l b in
            (r = b \/ In r l) /\ b <= r /\ Forall (fun u => u <= r) l).
  { induction l as [ | u l IH]; intros b; cbn [fold_left].
    - cbn zeta. split; [left; reflexivity | split; [lra | constructor]].
    - cbn zeta. destruct (Qltb b u) eqn:E.
      + apply Qltb_true in E. destruct (IH u) as ([Hr | Hr] & Hle & Hall).
        * split; [right; left; symmetry; exact Hr | ].
          split; [lra | constructor; assumption].
        * split; [right; right; exact Hr | ].
          split; [lra | constructor; assumption].
      + apply Qltb_false in E. destruct (IH b) as ([Hr | Hr] & Hle & Hall).
        * split; [left; exact Hr | ].
          split; [exact Hle | constructor; [lra | exact Hall]].
        * split; [right; right; exact Hr | ].
          split; [exact Hle | constructor; [lra | exact Hall]]. }
  destruct (Hgen a v) as ([Hr | Hr] & Hle & Hall).
  - split; [left; symmetry; exact Hr | constructor; assumption].
  - split; [right; exact Hr | constructor; assumption].
Qed.

Lemma find_nearest_nonempty (array : list Q) (value : Q) :
  array <> [] -> exists idx, find_nearest array value = Ok idx.
Proof.
  destruct array as [ | v a]; [congruence | ]. intros _.
  unfold find_nearest. cbn [map argmin]. eexists; reflexivity.
Qed.

Lemma scan_right_Raise (mask : list bool) : forall fuel i e,
  scan_right mask fuel i = Raise e -> e = IndexError.
Proof.
  unfold scan_right.
  induction fuel as [ | fuel IH]; intros i e; cbn [while]; [discriminate | ].
  destruct (getitem mask i) as [[ | ] | e' | ] eqn:E; cbn [bind];
    try discriminate.
  - apply IH.
  - intros [= <-]. eapply getitem_Raise; eassumption.
Qed.

(** In band from [l + 1] to [l + k] and out of band at [l]: the left scan
    started at [l + k] stops at [l]. *)
Lemma scan_left_stops (mask : list bool) : forall k fuel l,
  (forall j, (l < j <= l + Z.of_nat k)%Z -> getitem mask j = Ok true) ->
  getitem mask l = Ok false ->
  (k < fuel)%nat -> scan_left mask fuel (l + Z.of_nat k) = Ok l.
Proof.
  unfold scan_left.
  induction k as [ | k IH]; intros fuel l Hband Hedge Hfuel;
    (destruct fuel as [ | fuel]; [lia | ]); cbn [while].
  - replace (l + Z.of_nat 0)%Z with l by lia. rewrite Hedge. reflexivity.
  - rewrite Hband by lia. cbn [bind].
    replace (l + Z.of_nat (S k) - 1)%Z with (l + Z.of_nat k)%Z by lia.
    apply IH; [ | assumption | lia].
    intros j Hj. apply Hband. lia.
Qed.

(** X2.  A band inside the array: with the peak strictly between two
    samples [leftBound >= 0] and [rightBound] that are out of band, and
    everything between them in band, [bandwidth] returns the distance
    between the wavelengths of these two samples and their midpoint. *)
Theorem bandwidth_interior_band (wavelength response : list Q)
    (threshold peak : Q) (center_index leftBound rightBound : Z)
    (w_left w_right : Q) :
  py_max response = Ok peak ->
  find_nearest response peak = Ok center_index ->
  (0 <= leftBound < center_index)%Z -> (center_index < rightBound)%Z ->
  (forall j, (leftBound < j < rightBound)%Z ->
             getitem (band_mask response peak threshold) j = Ok true) ->
  getitem (band_mask response peak threshold) leftBound = Ok false ->
  getitem (band_mask response peak threshold) rightBound = Ok false ->
  getitem wavelength leftBound = Ok w_left ->
  getitem wavelength rightBound = Ok w_right ->
  bandwidth (wavelength, response) threshold
  = Ok (w_right - w_left, (w_right + w_left) / 2).
Proof.
  intros Hmax Hnear Hl Hr Hband Hle Hre Hwl Hwr.
  pose proof (find_nearest_range _ _ _ Hnear) as Hc.
  unfold bandwidth. cbv zeta. cbn [fst snd].
  rewrite Hmax. cbn [bind]. rewrite Hnear. cbn [bind].
  set (mask := band_mask response peak threshold) in *.
  assert (Hlen : length mask = length response) by apply length_map.
  pose proof (getitem_Ok_range _ _ _ Hre) as Hrr.
  assert (Hleft : scan_left mask (bandwidth_fuel mask) center_index
                  = Ok leftBound).
  { pose proof (scan_left_stops mask (Z.to_nat (center_index - leftBound))
                  (bandwidth_fuel mask) leftBound) as Hstop.
    replace (leftBound + Z.of_nat (Z.to_nat (center_index - leftBound)))%Z
      with center_index in Hstop by lia.
    apply Hstop.
    - intros j Hj. apply Hband. lia.
    - exact Hle.
    - unfold bandwidth_fuel. lia. }
  assert (Hright : scan_right mask (bandwidth_fuel mask) center_index
                   = Ok rightBound).
  { pose proof (scan_right_stops mask (Z.to_nat (rightBound - center_index))
                  (bandwidth_fuel mask) center_index) as Hstop.
    replace (center_index + Z.of_nat (Z.to_nat (rightBound - center_index)))%Z
      with rightBound in Hstop by lia.
    apply Hstop.
    - intros j Hj. apply Hband. lia.
    - exact Hre.
    - unfold bandwidth_fuel. lia. }
  rewrite Hleft. cbn [bind]. rewrite Hright. cbn [bind].
  rewrite Hwr. cbn [bind]. rewrite Hwl. reflexivity.
Qed.

(** X2 at seven samples: the scans stop at the indices 1 and 5. *)
Lemma bandwidth_interior_band_witness :
  bandwidth ([1550; 1551; 1552; 1553; 1554; 1555; 1556],
             [-20; -9; -2; 0; -1; -7; -30]) 3
  = Ok (1555 - 1551, (1555 + 1551) / 2).
Proof.
  apply (bandwidth_interior_band
           [1550; 1551; 1552; 1553; 1554; 1555; 1556]
           [-20; -9; -2; 0; -1; -7; -30] 3 0 3 1 5 1551 1555);
    try reflexivity; try lia.
  intros j Hj.
  assert (Hcases : (j = 2 \/ j = 3 \/ j = 4)%Z) by lia.
  destruct Hcases as [-> | [-> | ->]]; reflexivity.
Defined.

(** X3.  What [bandwidth] can do: on an empty response it raises
    [ValueError] (from [max]); on any other it returns a pair or raises
    [IndexError], and its two loops always end. *)
Theorem bandwidth_outcomes (input_data_response : trace) (threshold : Q) :
  (snd input_data_response = [] ->
   bandwidth input_data_response threshold = Raise ValueError) /\
  (snd input_data_response <> [] ->
   (exists r, bandwidth input_data_response threshold = Ok r) \/
   bandwidth input_data_response threshold = Raise IndexError).
Proof.
  split.
  - intros Hnil. unfold bandwidth. cbv zeta. rewrite Hnil. reflexivity.
  - intros Hne. unfold bandwidth. cbv zeta.
    destruct (snd input_data_response) as [ | v a] eqn:Eresp; [congruence | ].
    set (response := v :: a) in *.
    assert (Hmax : exists peak, py_max response = Ok peak)
      by (eexists; reflexivity).
    destruct Hmax as [peak Hmax]. rewrite Hmax. cbn [bind].
    destruct (find_nearest_nonempty response peak Hne) as [c Hc].
    rewrite Hc. cbn [bind]. apply find_nearest_range in Hc.
    set (mask := band_mask response peak threshold).
    assert (Hlen : length mask = length response) by apply length_map.
    destruct (scan_left mask (bandwidth_fuel mask) c) as [lb | e | ] eqn:EL;
      cbn [bind].
    + destruct (scan_right mask (bandwidth_fuel mask) c) as [rb | e | ] eqn:ER;
        cbn [bind].
      * destruct (getitem (fst input_data_response) rb) as [wr | e | ] eqn:Er;
          cbn [bind].
        -- destruct (getitem (fst input_data_response) lb) as [wl | e | ] eqn:El;
             cbn [bind].
           ++ left. eexists; reflexivity.
           ++ right. apply getitem_Raise in El. congruence.
           ++ exfalso. eapply getitem_not_Diverge; eassumption.
        -- right. apply getitem_Raise in Er. congruence.
        -- exfalso. eapply getitem_not_Diverge; eassumption.
      * right. apply scan_right_Raise in ER. congruence.
      * exfalso. revert ER. apply scan_right_ends; unfold bandwidth_fuel; lia.
    + right. apply scan_left_Raise in EL. congruence.
    + exfalso. revert EL. apply scan_left_ends; unfold bandwidth_fuel; lia.
Qed.

(** X4.  With a threshold of zero or less no sample is in band, the peak
    included: both scans stop where they start and [bandwidth] returns a
    width of zero at the wavelength of the peak. *)
Theorem bandwidth_nonpositive_threshold (wavelength response : list Q)
    (threshold peak : Q) (center_index : Z) (w : Q) :
  threshold <= 0 ->
  py_max response = Ok peak ->
  find_nearest response peak = Ok center_index ->
  getitem wavelength center_index = Ok w ->
  bandwidth (wavelength, response) threshold = Ok (w - w, (w + w) / 2).
Proof.
  intros Hthr Hmax Hnear Hw.
  pose proof (find_nearest_range _ _ _ Hnear) as Hc.
  destruct (py_max_spec _ _ Hmax) as [_ Hall].
  unfold bandwidth. cbv zeta. cbn [fst snd].
  rewrite Hmax. cbn [bind]. rewrite Hnear. cbn [bind].
  set (mask := band_mask response peak threshold).
  assert (Hout : getitem mask center_index = Ok false).
  { unfold mask, band_mask. rewrite getitem_map.
    destruct (getitem_in_range response center_index Hc) as [v Hv].
    rewrite Hv. cbn [bind]. f_equal. apply Qltb_false.
    apply getitem_In in Hv. rewrite Forall_forall in Hall.
    specialize (Hall v Hv). cbn beta in Hall. lra. }
  unfold scan_left, scan_right, bandwidth_fuel. cbn [while].
  rewrite Hout. cbn [bind]. rewrite Hw. reflexivity.
Qed.

(** X4 at the threshold 0. *)
Lemma bandwidth_nonpositive_threshold_witness :
  bandwidth ([1; 2; 3; 4; 5], [0; 5; 10; 5; 0]) 0 = Ok (3 - 3, (3 + 3) / 2).
Proof.
  apply (bandwidth_nonpositive_threshold [1; 2; 3; 4; 5] [0; 5; 10; 5; 0]
           0 10 2 3); try reflexivity.
  unfold Qle. simpl. lia.
Defined.

(** X5 at a ramp of five samples. *)
Lemma bandwidth_increasing_raises_witness :
  bandwidth ([1; 2; 3; 4; 5], [0; 1; 2; 3; 4]) 3 = Raise IndexError.
Proof.
  apply (bandwidth_increasing_raises [1; 2; 3; 4; 5] 0 [1; 2; 3; 4] 3).
  - repeat constructor.
  - reflexivity.
Defined.

(** ** More on [calibrate] and [baseline_correction] *)


Lemma Forall2_In_l {A B : Type} (R : A -> B -> Prop) (a : list A)
    (b : list B) (x : A) :
  Forall2 R a b -> In x a -> exists y, In y b /\ R x y.
Proof.
  induction 1 as [ | u v a b Huv H IH]; intros Hin; [contradiction | ].
  destruct Hin as [<- | Hin].
  - exists v. split; [left; reflexivity | exact Huv].
  - destruct (IH Hin) as [y [Hy Hxy]]. exists y. split; [right | ]; assumption.
Qed.

(** Lists that are equal entry by entry have equal maxima. *)
Lemma py_max_Qeq (a b : list Q) (ma mb : Q) :
  Forall2 Qeq a b -> py_max a = Ok ma -> py_max b = Ok mb -> ma == mb.
Proof.
  intros Hab Ha Hb.
  destruct (py_max_spec _ _ Ha) as [Hina Halla].
  destruct (py_max_spec _ _ Hb) as [Hinb Hallb].
  destruct (Forall2_In_l _ _ _ _ Hab Hina) as [y [Hy Hmy]].
  destruct (Forall2_In_l _ _ _ _ (Forall2_Qeq_sym _ _ Hab) Hinb)
    as [x [Hx Hmx]].
  rewrite Forall_forall in Halla, Hallb.
  specialize (Halla x Hx). specialize (Hallb y Hy). cbn beta in *. lra.
Qed.

Lemma py_max_nonempty (a : list Q) :
  a <> [] -> exists m, py_max a = Ok m.
Proof. destruct a; [congruence | intros _; eexists; reflexivity]. Qed.

Lemma nonempty_length {A B : Type} (a : list A) (b : list B) :
  a <> [] -> length a = length b -> b <> [].
Proof. destruct a, b; simpl; congruence. Qed.

Section MoreFits.

Variable polyfit : list Q -> list Q -> nat -> result (list Q).
Hypothesis polyfit_ok : polyfit_contract polyfit.



(** X8.  A trace whose wavelength varies and whose power is the value of
    a polynomial of degree at most 4 at the centred wavelength is its own
    baseline: the fit reproduces the power and the corrected power is
    zero at every sample. *)
Theorem baseline_correction_polynomial (wavelength power q : list Q) :
  varies wavelength -> (length q <= 5)%nat ->
  Forall2 (fun a b => b == power_sum q (a - mean wavelength))
    wavelength power ->
  exists corrected baseline,
    baseline_correction polyfit (wavelength, power) = Ok (corrected, baseline) /\
    Forall2 Qeq baseline power /\
    length corrected = length power /\
    Forall (fun v => v == 0) corrected.
Proof.
  intros Hv Hq Hvals. pose proof (varies_nonempty _ Hv) as Hne.
  assert (Hpoly : Forall2 Qeq (polyval q (center wavelength)) power)
    by (apply power_sum_values; exact Hvals).
  assert (Hlc : length (center wavelength) = length power).
  { rewrite <- (Forall2_length_Q _ _ Hpoly). symmetry. apply length_polyval. }
  destruct (polyfit_exact polyfit polyfit_ok (center wavelength) power q 4)
    as [pfit [Hfit [_ Hrep]]]; try assumption.
  { apply center_nonempty. exact Hne. }
  { right. apply center_varies. exact Hv. }
  unfold baseline_correction. cbv zeta. cbn [fst snd]. rewrite Hfit.
  cbn [bind]. set (baseline := polyval pfit (center wavelength)) in *.
  assert (Hbl : length baseline = length power)
    by (apply Forall2_length_Q; exact Hrep).
  rewrite np_sub_same_length by congruence. cbn [bind].
  assert (Hpne : power <> []).
  { apply (nonempty_length (center wavelength)); [ | exact Hlc].
    apply center_nonempty. exact Hne. }
  assert (Hbne : baseline <> [])
    by (apply (nonempty_length power); congruence).
  destruct (py_max_nonempty baseline Hbne) as [mb Emb].
  destruct (py_max_nonempty power Hpne) as [mp Emp].
  rewrite Emb, Emp.
  cbn [bind]. eexists; eexists; split; [reflexivity | ].
  pose proof (py_max_Qeq _ _ _ _ Hrep Emb Emp) as Hmax.
  split; [exact Hrep | split].
  - rewrite length_map, length_map2; congruence.
  - apply Forall_map.
    eapply Forall_impl; [ | apply map2_sub_zero; exact Hrep].
    intros v Hz. cbn beta. rewrite Hz, Hmax. ring.
Qed.

(** X9.  Where the power has its maximum, the corrected power of
    [baseline_correction] is the distance of the baseline from its own
    maximum: the corrected trace has a sample that is not negative. *)
Theorem baseline_correction_peak (input_response : trace)
    (corrected baseline : list Q) :
  baseline_correction polyfit input_response = Ok (corrected, baseline) ->
  exists (k : nat) max_baseline max_power,
    py_max baseline = Ok max_baseline /\
    py_max (snd input_response) = Ok max_power /\
    nth_error (snd input_response) k = Some max_power /\
    (exists b c, nth_error baseline k = Some b /\
                 nth_error corrected k = Some c /\
                 c == max_baseline - b /\ 0 <= c).
Proof.
  unfold baseline_correction. cbv zeta.
  set (w := fst input_response). set (p := snd input_response).
  intros H.
  destruct (polyfit_ok (center w) p 4%nat) as (Hempty & Hmis & _).
  destruct (polyfit (center w) p 4%nat) as [pfit | e | ] eqn:Efit;
    cbn [bind] in H; try discriminate.
  assert (Hlen : length (center w) = length p).
  { destruct (center w) as [ | a cw] eqn:Ecw.
    - discriminate (Hempty eq_refl).
    - destruct (Nat.eq_dec (length (a :: cw)) (length p)) as [Heq | Hneq];
        [exact Heq | ].
      assert (Hcons : a :: cw <> []) by discriminate.
      discriminate (Hmis Hcons Hneq). }
  set (bl := polyval pfit (center w)) in *.
  assert (Hbl : length bl = length p)
    by (unfold bl; rewrite length_polyval; exact Hlen).
  rewrite np_sub_same_length in H by congruence. cbn [bind] in H.
  destruct (py_max bl) as [mb | e | ] eqn:Emb; cbn [bind] in H;
    try discriminate.
  destruct (py_max p) as [mp | e | ] eqn:Emp; cbn [bind] in H;
    try discriminate.
  injection H as Hc Hb. subst baseline.
  destruct (py_max_spec _ _ Emp) as [Hin _].
  destruct (py_max_spec _ _ Emb) as [_ Hallb].
  destruct (In_nth_error _ _ Hin) as [k Hk].
  assert (Hkp : (k < length p)%nat) by (apply nth_error_Some; congruence).
  destruct (nth_error bl k) as [b | ] eqn:Ebk;
    [ | apply nth_error_None in Ebk; lia].
  exists k, mb, mp. repeat split; try assumption.
  exists b, (mp - b + mb - mp). repeat split.
  - exact Ebk.
  - subst corrected. rewrite nth_error_map.
    assert (Hm2 : forall (x y : list Q) (i : nat) (u v : Q),
              nth_error x i = Some u -> nth_error y i = Some v ->
              nth_error (map2 Qminus x y) i = Some (u - v)).
    { induction x as [ | x0 x IHx]; intros [ | y0 y] [ | i] u v Hx Hy;
        cbn in *; try discriminate.
      - congruence.
      - apply IHx; assumption. }
    rewrite (Hm2 _ _ _ _ _ Hk Ebk). reflexivity.
  - ring.
  - apply nth_error_In in Ebk. rewrite Forall_forall in Hallb.
    specialize (Hallb b Ebk). cbn beta in Hallb. lra.
Qed.

(** X10.  A reference whose wavelength varies and whose power is the
    value of a polynomial of degree at most 8 at the centred wavelength
    calibrates itself to zero. *)
Theorem calibrate_self_polynomial (wavelength power q : list Q) :
  varies wavelength -> (length q <= 9)%nat ->
  Forall2 (fun a b => b == power_sum q (a - mean wavelength))
    wavelength power ->
  exists corrected fit,
    calibrate polyfit (wavelength, power) (wavelength, power)
      = Ok (corrected, fit) /\
    Forall2 Qeq fit power /\
    length corrected = length power /\
    Forall (fun v => v == 0) corrected.
Proof.
  intros Hv Hq Hvals. pose proof (varies_nonempty _ Hv) as Hne.
  assert (Hpoly : Forall2 Qeq (polyval q (center wavelength)) power)
    by (apply power_sum_values; exact Hvals).
  assert (Hlc : length (center wavelength) = length power).
  { rewrite <- (Forall2_length_Q _ _ Hpoly). symmetry. apply length_polyval. }
  destruct (polyfit_exact polyfit polyfit_ok (center wavelength) power q 8)
    as [pfit [Hfit [_ Hrep]]]; try assumption.
  { apply center_nonempty. exact Hne. }
  { right. apply center_varies. exact Hv. }
  unfold calibrate. cbv zeta. cbn [fst snd]. rewrite Hfit. cbn [bind].
  pose proof (Forall2_length_Q _ _ Hrep) as Hbl.
  rewrite np_sub_same_length by congruence. cbn [bind].
  eexists; eexists; split; [reflexivity | ].
  split; [exact Hrep | split].
  - rewrite length_map2; congruence.
  - apply map2_sub_zero. exact Hrep.
Qed.

End MoreFits.



(** X8: a parabola on six samples: the power is the square of the centred
    wavelength. *)
Lemma baseline_correction_polynomial_witness :
  exists corrected baseline,
    baseline_correction lstsq_polyfit
      ([1; 2; 3; 4; 5; 6], [25 # 4; 9 # 4; 1 # 4; 1 # 4; 9 # 4; 25 # 4])
    = Ok (corrected, baseline) /\
    Forall2 Qeq baseline [25 # 4; 9 # 4; 1 # 4; 1 # 4; 9 # 4; 25 # 4] /\
    length corrected = 6%nat /\
    Forall (fun v => v == 0) corrected.
Proof.
  apply (baseline_correction_polynomial lstsq_polyfit lstsq_polyfit_contract
           [1; 2; 3; 4; 5; 6] [25 # 4; 9 # 4; 1 # 4; 1 # 4; 9 # 4; 25 # 4]
           [1; 0; 0]).
  - exists 1, 2. split; [left; reflexivity | ].
    split; [right; left; reflexivity | discriminate].
  - cbn [length]. lia.
  - repeat constructor; vm_compute; reflexivity.
Defined.

(** X9: the peak of [0, 2, 1] is its second sample. *)
Lemma baseline_correction_peak_witness :
  exists corrected baseline,
    baseline_correction lstsq_polyfit ([1; 2; 3], [0; 2; 1])
    = Ok (corrected, baseline) /\
    exists (k : nat) max_baseline max_power,
      py_max baseline = Ok max_baseline /\
      py_max [0; 2; 1] = Ok max_power /\
      nth_error [0; 2; 1] k = Some max_power /\
      (exists b c, nth_error baseline k = Some b /\
                   nth_error corrected k = Some c /\
                   c == max_baseline - b /\ 0 <= c).
Proof.
  eexists. eexists.
  refine ((fun H => conj H
             (baseline_correction_peak lstsq_polyfit lstsq_polyfit_contract
                ([1; 2; 3], [0; 2; 1]) _ _ H)) _).
  reflexivity.
Defined.

(** X10: a cubic on six samples. *)
Lemma calibrate_self_polynomial_witness :
  exists corrected fit,
    calibrate lstsq_polyfit
      ([1; 2; 3; 4; 5; 6],
       [-125 # 8; -27 # 8; -1 # 8; 1 # 8; 27 # 8; 125 # 8])
      ([1; 2; 3; 4; 5; 6],
       [-125 # 8; -27 # 8; -1 # 8; 1 # 8; 27 # 8; 125 # 8])
    = Ok (corrected, fit) /\
    Forall2 Qeq fit [-125 # 8; -27 # 8; -1 # 8; 1 # 8; 27 # 8; 125 # 8] /\
    length corrected = 6%nat /\
    Forall (fun v => v == 0) corrected.
Proof.
  apply (calibrate_self_polynomial lstsq_polyfit lstsq_polyfit_contract
           [1; 2; 3; 4; 5; 6]
           [-125 # 8; -27 # 8; -1 # 8; 1 # 8; 27 # 8; 125 # 8]
           [1; 0; 0; 0]).
  - exists 1, 2. split; [left; reflexivity | ].
    split; [right; left; reflexivity | discriminate].
  - cbn [length]. lia.
  - repeat constructor; vm_compute; reflexivity.
Defined.

(** ** The fitted curve is determined by the contract *)

Lemma dot_affine (S : Lstsq.samples) (f g : Q * Q -> Q) (k : Q) :
  Lstsq.dot S (fun s => f s + k * g s) (fun s => f s + k * g s)
  == Lstsq.dot S f f + 2 * k * Lstsq.dot S f g + k * k * Lstsq.dot S g g.
Proof.
  induction S as [ | s S IH]; cbn [Lstsq.dot].
  - ring.
  - rewrite !Qred_correct, IH. ring.
Qed.

(** Two least-squares fits of the same data take the same values at the
    data points, also when their coefficients differ. *)
Lemma least_squares_fit_unique (x y : list Q) (deg : nat) (p1 p2 : list Q) :
  length x = length y ->
  least_squares x y deg p1 -> least_squares x y deg p2 ->
  Forall2 Qeq (polyval p1 x) (polyval p2 x).
Proof.
  intros Hlen [Hl1 Hmin1] [Hl2 Hmin2].
  set (S := combine x y).
  set (c1 := rev p1). set (c2 := rev p2).
  set (cm := Lstsq.csub c1 (Lstsq.cscale (1 # 2) (Lstsq.csub c1 c2))).
  assert (Hc12 : length c1 = length c2)
    by (unfold c1, c2; rewrite !length_rev; congruence).
  assert (Hd : length (Lstsq.csub c1 c2) = length c1)
    by (apply LstsqFacts.length_csub; exact Hc12).
  assert (Hcm : length (rev cm) = Datatypes.S deg).
  { rewrite length_rev. unfold cm. rewrite LstsqFacts.length_csub.
    - unfold c1. rewrite length_rev. exact Hl1.
    - unfold Lstsq.cscale. rewrite length_map. congruence. }
  set (r1 := Lstsq.res snd c1).
  set (d := fun s : Q * Q => Lstsq.fitv c1 s - Lstsq.fitv c2 s).
  assert (Em : sse (rev cm) x y
               == Lstsq.dot S (fun s => r1 s + (1 # 2) * d s)
                    (fun s => r1 s + (1 # 2) * d s)).
  { assert (Hpoint : forall s,
              Lstsq.res snd cm s == r1 s + (1 # 2) * d s).
    { intros s. unfold r1, d, cm, Lstsq.res, Lstsq.fitv.
      rewrite LstsqFacts.pev_csub.
      - rewrite LstsqFacts.pev_cscale, LstsqFacts.pev_csub by exact Hc12.
        ring.
      - unfold Lstsq.cscale. rewrite length_map. congruence. }
    rewrite LstsqFacts.sse_dot, rev_involutive. fold S.
    apply LstsqFacts.dot_ext; intros s _; apply Hpoint. }
  assert (E2 : sse p2 x y
               == Lstsq.dot S (fun s => r1 s + 1 * d s)
                    (fun s => r1 s + 1 * d s)).
  { rewrite LstsqFacts.sse_dot. fold S. fold c2.
    apply LstsqFacts.dot_ext; intros s _;
      unfold r1, d, Lstsq.res, Lstsq.fitv; ring. }
  assert (E1 : sse p1 x y == Lstsq.dot S r1 r1).
  { rewrite LstsqFacts.sse_dot. reflexivity. }
  rewrite dot_affine in Em, E2.
  pose proof (Hmin1 (rev cm) Hcm) as M1.
  pose proof (Hmin2 (rev cm) Hcm) as M2.
  pose proof (LstsqFacts.dot_self_nonneg S d) as Hnn.
  assert (Hzero : Lstsq.dot S d d == 0) by lra.
  pose proof (LstsqFacts.dot_self_zero S d Hzero) as Hd0.
  assert (Hpt : forall a b, In (a, b) S -> polyval1 p1 a == polyval1 p2 a).
  { intros a b Hin. specialize (Hd0 (a, b) Hin).
    unfold d, Lstsq.fitv, c1, c2 in Hd0. cbn [fst] in Hd0.
    rewrite !LstsqFacts.polyval1_pev. lra. }
  clear - Hlen Hpt. subst S. revert y Hlen Hpt.
  induction x as [ | a x IH]; intros [ | b y] Hlen Hpt; try discriminate;
    cbn [polyval map]; constructor.
  - apply (Hpt a b). left. reflexivity.
  - apply (IH y); [simpl in Hlen; congruence | ].
    intros a' b' Hin. apply (Hpt a' b'). right. exact Hin.
Qed.

Lemma qpow_Qeq (x x' : Q) (n : nat) : x == x' -> qpow x n == qpow x' n.
Proof.
  intros H. induction n as [ | n IH]; cbn [qpow]; [reflexivity | ].
  rewrite IH, H. reflexivity.
Qed.

Lemma polyval1_Qeq (p : list Q) (x x' : Q) :
  x == x' -> polyval1 p x == polyval1 p x'.
Proof.
  intros H. rewrite !LstsqFacts.polyval1_pev. generalize 0%nat.
  induction (rev p) as [ | a c IH]; intros j; cbn [Lstsq.pev];
    [reflexivity | ].
  rewrite IH, (qpow_Qeq x x' j H). reflexivity.
Qed.

Lemma polyval_Qeq (p x x' : list Q) :
  Forall2 Qeq x x' -> Forall2 Qeq (polyval p x) (polyval p x').
Proof.
  induction 1 as [ | a a' x x' Ha H IH]; cbn [polyval map]; constructor.
  - apply polyval1_Qeq. exact Ha.
  - exact IH.
Qed.

Lemma sse_Qeq (p : list Q) : forall x x' y y',
  Forall2 Qeq x x' -> Forall2 Qeq y y' -> sse p x y == sse p x' y'.
Proof.
  intros x x' y y' Hx. revert y y'.
  induction Hx as [ | a a' x x' Ha Hx IH]; intros y y' Hy.
  - reflexivity.
  - destruct Hy as [ | b b' y y' Hb Hy]; [reflexivity | ].
    rewrite !sse_cons, (IH y y' Hy). unfold sq_error. cbn [fst snd].
    rewrite <- !polyval1_power_sum, (polyval1_Qeq p a a' Ha), Hb.
    reflexivity.
Qed.

Lemma least_squares_Qeq (x x' y y' : list Q) (deg : nat) (p : list Q) :
  Forall2 Qeq x x' -> Forall2 Qeq y y' ->
  least_squares x y deg p -> least_squares x' y' deg p.
Proof.
  intros Hx Hy [Hl Hmin]. split; [exact Hl | ].
  intros p' Hp'. rewrite <- !(sse_Qeq _ x x' y y' Hx Hy). apply Hmin. exact Hp'.
Qed.

Lemma Forall2_nil_iff {A : Type} (R : A -> A -> Prop) (a b : list A) :
  Forall2 R a b -> (a = [] <-> b = []).
Proof. destruct 1; split; congruence. Qed.

Lemma Forall2_lengths {A : Type} (R : A -> A -> Prop) (a b : list A) :
  Forall2 R a b -> length a = length b.
Proof. induction 1; simpl; congruence. Qed.

Lemma all_zero_dec (x : list Q) : {all_zero x} + {~ all_zero x}.
Proof.
  apply Forall_dec. intros v. apply Qeq_dec.
Qed.

Lemma all_zero_Qeq (x x' : list Q) :
  Forall2 Qeq x x' -> all_zero x -> all_zero x'.
Proof.
  unfold all_zero. induction 1 as [ | a a' x x' Ha H IH]; intros Hz;
    constructor; inversion Hz as [ | ? ? Hza Hzx]; subst.
  - cbn beta in *. rewrite <- Ha. exact Hza.
  - apply IH. exact Hzx.
Qed.

Section FitCurve.

Variables polyfit1 polyfit2 : list Q -> list Q -> nat -> result (list Q).
Hypothesis polyfit1_ok : polyfit_contract polyfit1.
Hypothesis polyfit2_ok : polyfit_contract polyfit2.

(** The fit/evaluate pair of [core.py] gives one curve, whichever
    least-squares fit [polyfit] returns and whichever of two equal
    arguments it is given. *)
Lemma fit_curve_unique (x x' y y' : list Q) (deg : nat) :
  Forall2 Qeq x x' -> Forall2 Qeq y y' ->
  same_outcome (Forall2 Qeq)
    (p <- polyfit1 x y deg ;; Ok (polyval p x))
    (p <- polyfit2 x' y' deg ;; Ok (polyval p x')).
Proof.
  intros Hx Hy.
  destruct (polyfit1_ok x y deg) as (He1 & Hm1 & Hz1 & Hf1).
  destruct (polyfit2_ok x' y' deg) as (He2 & Hm2 & Hz2 & Hf2).
  pose proof (Forall2_lengths _ _ _ Hx) as Hlx.
  pose proof (Forall2_lengths _ _ _ Hy) as Hly.
  pose proof (Forall2_nil_iff _ _ _ Hx) as Hnil.
  destruct x as [ | a x0] eqn:Ex.
  { rewrite He1 by reflexivity. rewrite He2 by (apply Hnil; reflexivity).
    reflexivity. }
  rewrite <- Ex in *.
  assert (Hne : x <> []) by (rewrite Ex; discriminate).
  assert (Hne' : x' <> []) by (intros H; apply Hnil in H; contradiction).
  destruct (Nat.eq_dec (length x) (length y)) as [Hlen | Hlen].
  - assert (Hcases : (deg <> 0%nat /\ all_zero x)
                     \/ (deg = 0%nat \/ ~ all_zero x)).
    { destruct (Nat.eq_dec deg 0) as [H0 | H0]; [right; left; exact H0 | ].
      destruct (all_zero_dec x) as [Hz | Hz];
        [left; split; assumption | right; right; exact Hz]. }
    destruct Hcases as [[Hdeg Hzero] | Hok].
    { rewrite (Hz1 Hne Hlen Hdeg Hzero).
      rewrite (Hz2 Hne' ltac:(congruence) Hdeg (all_zero_Qeq _ _ Hx Hzero)).
      reflexivity. }
    assert (Hok' : deg = 0%nat \/ ~ all_zero x').
    { destruct Hok as [H0 | Hnz]; [left; exact H0 | right].
      intros Hz'. apply Hnz.
      apply (all_zero_Qeq x' x); [apply Forall2_Qeq_sym; exact Hx | exact Hz']. }
    destruct (Hf1 Hne Hlen Hok) as [p1 [-> Hls1]].
    destruct (Hf2 Hne' ltac:(congruence) Hok') as [p2 [-> Hls2]].
    cbn [bind same_outcome].
    apply (Forall2_Qeq_trans _ (polyval p2 x)).
    + apply (least_squares_fit_unique x y deg); [exact Hlen | exact Hls1 | ].
      apply (least_squares_Qeq x' x y' y);
        [apply Forall2_Qeq_sym | apply Forall2_Qeq_sym | ]; assumption.
    + apply polyval_Qeq. exact Hx.
  - rewrite (Hm1 Hne Hlen). rewrite (Hm2 Hne' ltac:(congruence)). reflexivity.
Qed.

End FitCurve.

Lemma map2_sub_Qeq : forall a a' b b',
  Forall2 Qeq a a' -> Forall2 Qeq b b' ->
  Forall2 Qeq (map2 Qminus a b) (map2 Qminus a' b').
Proof.
  intros a a' b b' Ha. revert b b'.
  induction Ha as [ | u u' a a' Hu Ha IH]; intros b b' Hb; cbn [map2].
  - constructor.
  - destruct Hb as [ | v v' b b' Hv Hb]; [constructor | ].
    constructor; [rewrite Hu, Hv; reflexivity | apply IH; exact Hb].
Qed.

Lemma map_sub_r_Qeq (v v' : Q) (a a' : list Q) :
  Forall2 Qeq a a' -> v == v' ->
  Forall2 Qeq (map (fun u => u - v) a) (map (fun u => u - v') a').
Proof.
  intros Ha Hv. induction Ha as [ | u u' a a' Hu Ha IH]; cbn [map];
    constructor; [rewrite Hu, Hv; reflexivity | exact IH].
Qed.

Lemma map_sub_l_Qeq (u u' : Q) (b b' : list Q) :
  Forall2 Qeq b b' -> u == u' ->
  Forall2 Qeq (map (fun v => u - v) b) (map (fun v => u' - v) b').
Proof.
  intros Hb Hu. induction Hb as [ | v v' b b' Hv Hb IH]; cbn [map];
    constructor; [rewrite Hu, Hv; reflexivity | exact IH].
Qed.

(** [a - b] on equal arrays: the same broadcasting, equal results. *)
Lemma np_sub_Qeq (a a' b b' : list Q) :
  Forall2 Qeq a a' -> Forall2 Qeq b b' ->
  same_outcome (Forall2 Qeq) (np_sub a b) (np_sub a' b').
Proof.
  intros Ha Hb. unfold np_sub.
  rewrite <- (Forall2_lengths _ _ _ Ha), <- (Forall2_lengths _ _ _ Hb).
  destruct (Nat.eqb (length a) (length b)).
  - apply map2_sub_Qeq; assumption.
  - destruct Hb as [ | v v' b b' Hv Hb];
      [ | destruct Hb as [ | w w' b b' Hw Hb]].
    + destruct Ha as [ | u u' a a' Hu Ha]; [reflexivity | ].
      destruct Ha; [ | reflexivity]. cbn [same_outcome map]. constructor.
    + destruct Ha as [ | u u' a a' Hu Ha];
        [cbn [same_outcome map]; constructor | ].
      destruct Ha as [ | u2 u2' a a' Hu2 Ha]; cbn [same_outcome];
        apply map_sub_r_Qeq; try assumption;
        repeat (constructor; try assumption).
    + destruct Ha as [ | u u' a a' Hu Ha]; [reflexivity | ].
      destruct Ha; [ | reflexivity]. cbn [same_outcome].
      apply map_sub_l_Qeq; [ | exact Hu].
      constructor; [exact Hv | constructor; assumption].
Qed.

(** The mean moves with the array: centring removes a common offset. *)
Lemma center_shift (c : Q) (a : list Q) :
  Forall2 Qeq (center (map (fun v => v + c) a)) (center a).
Proof.
  destruct a as [ | a0 a]; [constructor | ].
  set (l := a0 :: a).
  assert (Hsum : forall l', qsum (map (fun v => v + c) l')
                            == qsum l' + inject_Z (Z.of_nat (length l')) * c).
  { induction l' as [ | v l' IH]; cbn [map length].
    - unfold qsum; cbn. ring.
    - rewrite !qsum_cons, IH, Nat2Z.inj_succ. unfold Z.succ.
      rewrite inject_Z_plus. ring. }
  assert (Hmean : mean (map (fun v => v + c) l) == mean l + c).
  { unfold mean, size. rewrite length_map, Hsum.
    assert (Hn : ~ inject_Z (Z.of_nat (length l)) == 0).
    { unfold l. cbn [length]. unfold Qeq, inject_Z. cbn [Qnum Qden]. lia. }
    field. exact Hn. }
  unfold center. rewrite map_map.
  assert (Hgen : forall l', Forall2 Qeq
            (map (fun v => v + c - mean (map (fun v0 => v0 + c) l)) l')
            (map (fun v => v - mean l) l')).
  { induction l' as [ | v l' IH]; cbn [map]; constructor; [ | exact IH].
    rewrite Hmean. ring. }
  apply Hgen.
Qed.

Lemma same_outcome_bind {A B : Type} (R : A -> A -> Prop)
    (R' : B -> B -> Prop) (r1 r2 : result A) (k1 k2 : A -> result B) :
  same_outcome R r1 r2 ->
  (forall a b, R a b -> same_outcome R' (k1 a) (k2 b)) ->
  same_outcome R' (bind r1 k1) (bind r2 k2).
Proof.
  destruct r1, r2; cbn [same_outcome bind]; intros H Hk;
    try contradiction; auto.
Qed.

Lemma same_outcome_bind_inv {A B : Type} (R : B -> B -> Prop)
    (r1 r2 : result A) (f1 f2 : A -> B) :
  same_outcome R (a <- r1 ;; Ok (f1 a)) (a <- r2 ;; Ok (f2 a)) ->
  same_outcome (fun a b => R (f1 a) (f2 b)) r1 r2.
Proof. destruct r1, r2; cbn [same_outcome bind]; auto. Qed.

Lemma py_max_same_outcome (a b : list Q) :
  Forall2 Qeq a b -> same_outcome Qeq (py_max a) (py_max b).
Proof.
  intros H. destruct (py_max a) as [ma | e | ] eqn:Ea,
                     (py_max b) as [mb | e' | ] eqn:Eb;
    cbn [same_outcome];
    try (destruct H; cbn [py_max] in *; congruence).
  apply (py_max_Qeq a b); assumption.
Qed.

Section Determined.

Variables polyfit1 polyfit2 : list Q -> list Q -> nat -> result (list Q).
Hypothesis polyfit1_ok : polyfit_contract polyfit1.
Hypothesis polyfit2_ok : polyfit_contract polyfit2.

(** X11.  The outcome of [calibrate] is determined by its arguments and by
    the least-squares contract alone: it is the same for any two fits
    that [polyfit] may return, and it does not change when one constant
    is added to every wavelength of the reference. *)
Theorem calibrate_determined (input_response : trace)
    (wavelength power : list Q) (offset : Q) :
  same_outcome Qeq_pair
    (calibrate polyfit1 input_response
       (map (fun v => v + offset) wavelength, power))
    (calibrate polyfit2 input_response (wavelength, power)).
Proof.
  unfold calibrate. cbv zeta. cbn [fst snd].
  pose proof (fit_curve_unique polyfit1 polyfit2 polyfit1_ok polyfit2_ok
                _ _ power power 8 (center_shift offset wavelength)
                (Forall2_Qeq_refl power)) as Hfit.
  apply same_outcome_bind_inv in Hfit.
  eapply same_outcome_bind; [exact Hfit | ].
  intros p1 p2 Hp. cbn beta in Hp.
  eapply same_outcome_bind;
    [apply (np_sub_Qeq (snd input_response) (snd input_response));
       [apply Forall2_Qeq_refl | exact Hp] | ].
  intros c1 c2 Hc. cbn [same_outcome]. split; assumption.
Qed.

(** X12.  The outcome of [baseline_correction] is determined in the same
    way: it does not depend on which least-squares fit [polyfit] returns
    nor on a constant added to every wavelength. *)
Theorem baseline_correction_determined (wavelength power : list Q)
    (offset : Q) :
  same_outcome Qeq_pair
    (baseline_correction polyfit1
       (map (fun v => v + offset) wavelength, power))
    (baseline_correction polyfit2 (wavelength, power)).
Proof.
  unfold baseline_correction. cbv zeta. cbn [fst snd].
  pose proof (fit_curve_unique polyfit1 polyfit2 polyfit1_ok polyfit2_ok
                _ _ power power 4 (center_shift offset wavelength)
                (Forall2_Qeq_refl power)) as Hfit.
  apply same_outcome_bind_inv in Hfit.
  eapply same_outcome_bind; [exact Hfit | ].
  intros p1 p2 Hp. cbn beta in Hp.
  eapply same_outcome_bind;
    [apply (np_sub_Qeq power power); [apply Forall2_Qeq_refl | exact Hp] | ].
  intros c1 c2 Hc.
  eapply same_outcome_bind; [apply py_max_same_outcome; exact Hp | ].
  intros mb1 mb2 Hmb.
  eapply same_outcome_bind;
    [apply py_max_same_outcome; apply Forall2_Qeq_refl | ].
  intros mp1 mp2 Hmp. cbn [same_outcome]. split; cbn [fst snd]; [ | exact Hp].
  clear - Hc Hmb Hmp. induction Hc as [ | u v c1 c2 Huv Hc IH]; cbn [map];
    constructor; [rewrite Huv, Hmb, Hmp; reflexivity | exact IH].
Qed.

End Determined.

(** X11: the reference moved by 1550. *)
Lemma calibrate_determined_witness :
  same_outcome Qeq_pair
    (calibrate lstsq_polyfit ([1; 2; 3], [5; 5; 5])
       (map (fun v => v + 1550) [1; 2; 3], [0; 2; 1]))
    (calibrate lstsq_polyfit ([1; 2; 3], [5; 5; 5]) ([1; 2; 3], [0; 2; 1])).
Proof.
  exact (calibrate_determined lstsq_polyfit lstsq_polyfit
           lstsq_polyfit_contract lstsq_polyfit_contract
           ([1; 2; 3], [5; 5; 5]) [1; 2; 3] [0; 2; 1] 1550).
Defined.

(** X12: the trace moved by 1550. *)
Lemma baseline_correction_determined_witness :
  same_outcome Qeq_pair
    (baseline_correction lstsq_polyfit
       (map (fun v => v + 1550) [1; 2; 3], [0; 2; 1]))
    (baseline_correction lstsq_polyfit ([1; 2; 3], [0; 2; 1])).
Proof.
  exact (baseline_correction_determined lstsq_polyfit lstsq_polyfit
           lstsq_polyfit_contract lstsq_polyfit_contract
           [1; 2; 3] [0; 2; 1] 1550).
Defined.

(** ** More on [calibrate_envelope] *)

Lemma Qabs_self_zero (p : Q) : Qabs (p - p) == 0.
Proof.
  assert (H : p - p == 0) by ring. rewrite H. reflexivity.
Qed.

(** With [step = 0] and a positive tolerance every round compares
    [power[0]] with itself and accepts sample 0. *)
Lemma envelope_loop_step_zero (wavelength power : list Q)
    (difference_tol p0 w0 : Q) :
  getitem power 0 = Ok p0 -> getitem wavelength 0 = Ok w0 ->
  0 < difference_tol ->
  forall n e,
    envelope_loop n wavelength power 0 difference_tol e
    = Ok {| power_ref := power_ref e ++ repeat p0 n;
            wavelength_ref := wavelength_ref e ++ repeat w0 n;
            cursor_initial := cursor_initial e + Z.of_nat n;
            cursor_next := cursor_next e + Z.of_nat n;
            accepted := accepted e ++ repeat 0%Z n |}.
Proof.
  intros Hp Hw Htol.
  assert (Hsize : (0 < size power)%Z).
  { apply getitem_Ok_range in Hp. unfold size. lia. }
  induction n as [ | n IH]; intros e; cbn [envelope_loop repeat].
  - rewrite !app_nil_r, !Z.add_0_r. destruct e; reflexivity.
  - unfold envelope_round.
    rewrite Z.mul_0_r, Z.mul_0_l, Hp. cbn [bind].
    assert (Hacc : Qltb (Qabs (p0 - p0)) difference_tol = true).
    { apply Qltb_true. rewrite Qabs_self_zero. exact Htol. }
    rewrite Hacc, Hw. cbn [bind cursor_next fst snd].
    rewrite Z.mul_0_r.
    destruct (Z.leb_spec (size power) 0) as [Hle | _]; [lia | ].
    rewrite IH. cbn [power_ref wavelength_ref cursor_initial cursor_next accepted].
    rewrite <- !app_assoc. cbn [app].
    f_equal. f_equal; lia.
Qed.

(** X13.  More segments than samples: the step is 0, every one of the
    [seg] rounds accepts sample 0, and the envelope handed to the fit is
    [seg] copies of the first point of the reference. *)
Theorem envelope_scan_more_segments_than_samples
    (wavelength power : list Q) (seg : Z) (difference_tol p0 w0 : Q) :
  getitem power 0 = Ok p0 -> getitem wavelength 0 = Ok w0 ->
  (size power < seg)%Z -> 0 < difference_tol ->
  exists e,
    envelope_scan (wavelength, power) seg difference_tol = Ok e /\
    accepted e = repeat 0%Z (Z.to_nat seg) /\
    power_ref e = repeat p0 (Z.to_nat seg) /\
    wavelength_ref e = repeat w0 (Z.to_nat seg).
Proof.
  intros Hp Hw Hseg Htol. unfold envelope_scan. cbn [fst snd].
  assert (Hsize : (0 <= size power)%Z) by (unfold size; lia).
  destruct (Z.eqb_spec seg 0) as [Hz | _]; [lia | ]. cbn [bind].
  rewrite Z.quot_small by lia.
  rewrite (envelope_loop_step_zero wavelength power difference_tol p0 w0)
    by assumption.
  eexists; split; [reflexivity | ]. cbn. repeat split.
Qed.

(** X13 at five segments on three samples. *)
Lemma envelope_scan_more_segments_than_samples_witness :
  exists e,
    envelope_scan ([1; 2; 3], [7; 0; 9]) 5 8 = Ok e /\
    accepted e = repeat 0%Z (Z.to_nat 5) /\
    power_ref e = repeat 7 (Z.to_nat 5) /\
    wavelength_ref e = repeat 1 (Z.to_nat 5).
Proof.
  apply (envelope_scan_more_segments_than_samples [1; 2; 3] [7; 0; 9] 5 8 7 1);
    reflexivity.
Defined.

Section EnvelopeErrors.

Variable polyfit : list Q -> list Q -> nat -> result (list Q).
Hypothesis polyfit_ok : polyfit_contract polyfit.

(** X14.  Segment counts without a scan.  [seg = 0] raises
    [ZeroDivisionError]; a negative [seg] runs no round, so that no point
    is accepted and [polyfit] raises [TypeError]; [seg = 1] makes the step
    the length of the array and the first read of [power[step]] raises
    [IndexError]; so does an empty reference power for any positive
    [seg]. *)
Theorem calibrate_envelope_degenerate_segments
    (input_response reference_response : trace) (seg : Z)
    (difference_tol : Q) (fitOrder : nat) :
  (seg = 0%Z ->
   calibrate_envelope polyfit input_response reference_response seg
     difference_tol fitOrder = Raise ZeroDivisionError) /\
  ((seg < 0)%Z ->
   calibrate_envelope polyfit input_response reference_response seg
     difference_tol fitOrder = Raise TypeError) /\
  (seg = 1%Z ->
   calibrate_envelope polyfit input_response reference_response seg
     difference_tol fitOrder = Raise IndexError) /\
  ((0 < seg)%Z -> snd reference_response = [] ->
   calibrate_envelope polyfit input_response reference_response seg
     difference_tol fitOrder = Raise IndexError).
Proof.
  unfold calibrate_envelope, envelope_scan. cbv zeta.
  set (power := snd reference_response).
  repeat split.
  - intros ->. reflexivity.
  - intros Hneg. destruct (Z.eqb_spec seg 0); [lia | ]. cbn [bind].
    replace (Z.to_nat seg) with 0%nat by lia.
    cbn [envelope_loop bind envelope_start power_ref wavelength_ref].
    destruct (polyfit_ok (center []) [] fitOrder) as [Hempty _].
    rewrite Hempty by reflexivity. reflexivity.
  - intros ->. cbn [Z.eqb bind]. rewrite Z.quot_1_r.
    change (Z.to_nat 1) with 1%nat. cbn [envelope_loop].
    unfold envelope_round. cbn [envelope_start cursor_initial cursor_next].
    rewrite Z.mul_0_l, Z.mul_1_r.
    rewrite (getitem_past_end power (size power)) by (unfold size; lia).
    destruct (getitem power 0) as [p | e | ] eqn:E0; cbn [bind].
    + reflexivity.
    + apply getitem_Raise in E0. subst e. reflexivity.
    + exfalso. eapply getitem_not_Diverge; eassumption.
  - intros Hpos Hnil. destruct (Z.eqb_spec seg 0) as [Hz | Hnz]; [lia | ].
    cbn [bind]. destruct (Z.to_nat seg) as [ | n] eqn:En; [lia | ].
    cbn [envelope_loop]. unfold envelope_round.
    fold power. rewrite Hnil. reflexivity.
Qed.


End EnvelopeErrors.

(** X14: one segment. *)
Lemma calibrate_envelope_degenerate_segments_witness :
  calibrate_envelope lstsq_polyfit ([1; 2; 3], [4; 5; 6])
    ([1; 2; 3], [0; 2; 1]) 1 8 4 = Raise IndexError.
Proof.
  refine (proj1 (proj2 (proj2
            (calibrate_envelope_degenerate_segments lstsq_polyfit
               lstsq_polyfit_contract ([1; 2; 3], [4; 5; 6])
               ([1; 2; 3], [0; 2; 1]) 1 8 4))) _).
  reflexivity.
Defined.


Section EnvelopeHangs.

Variable polyfit : list Q -> list Q -> nat -> result (list Q).

(** X16.  More segments than samples and a negative tolerance: the step is
    0, both points of the first round are [power[0]], their distance 0 is
    not below the tolerance and stays above it, and the second condition
    of the inner [while], [(cursor_next + 2) * 0 < size], is always true.
    The loop does not end for any bound on its rounds, and
    [calibrate_envelope] never returns. *)
Theorem calibrate_envelope_negative_tolerance_hangs
    (input_response reference_response : trace) (seg : Z)
    (difference_tol : Q) (fitOrder : nat) (p0 : Q) :
  getitem (snd reference_response) 0 = Ok p0 ->
  (size (snd reference_response) < seg)%Z ->
  difference_tol < 0 ->
  (forall fuel cursor_next,
     envelope_skip_loop fuel (snd reference_response) 0 difference_tol
       p0 cursor_next p0 = Diverge) /\
  calibrate_envelope polyfit input_response reference_response seg
    difference_tol fitOrder = Diverge.
Proof.
  intros Hp Hseg Htol.
  assert (Hsize : (0 < size (snd reference_response))%Z).
  { apply getitem_Ok_range in Hp. unfold size. lia. }
  assert (Habs : difference_tol < Qabs (p0 - p0))
    by (rewrite Qabs_self_zero; exact Htol).
  pose proof (envelope_skip_never_ends (snd reference_response)
                difference_tol p0 p0 Hp Habs) as Hloop.
  split; [exact Hloop | ].
  unfold calibrate_envelope, envelope_scan. cbv zeta.
  destruct (Z.eqb_spec seg 0) as [Hz | _]; [lia | ]. cbn [bind].
  rewrite Z.quot_small by lia.
  destruct (Z.to_nat seg) as [ | n] eqn:En; [lia | ].
  cbn [envelope_loop]. unfold envelope_round.
  cbn [envelope_start cursor_initial cursor_next].
  rewrite Z.mul_0_l, Z.mul_0_l, Hp. cbn [bind].
  assert (Hrej : Qltb (Qabs (p0 - p0)) difference_tol = false).
  { apply Qltb_false. rewrite Qabs_self_zero. lra. }
  rewrite Hrej. unfold envelope_skip. rewrite Hloop. reflexivity.
Qed.

End EnvelopeHangs.

(** X16: five segments on three samples with the tolerance -1. *)
Lemma calibrate_envelope_negative_tolerance_hangs_witness :
  calibrate_envelope lstsq_polyfit ([1; 2; 3], [4; 5; 6])
    ([1; 2; 3], [7; 0; 9]) 5 (-1) 4 = Diverge.
Proof.
  refine (proj2 (calibrate_envelope_negative_tolerance_hangs lstsq_polyfit
                   ([1; 2; 3], [4; 5; 6]) ([1; 2; 3], [7; 0; 9]) 5 (-1) 4 7
                   _ _ _)).
  - reflexivity.
  - reflexivity.
  - reflexivity.
Defined.

(** X17: three segments on six samples. *)
Lemma envelope_scan_returns_witness :
  (1 <= Z.quot (size [0; 1; 9; 2; 3; 1]%Q) 3)%Z /\
  exists e,
    envelope_scan ([1; 2; 3; 4; 5; 6], [0; 1; 9; 2; 3; 1]) 3 8 = Ok e.
Proof.
  apply (envelope_scan_returns ([1; 2; 3; 4; 5; 6], [0; 1; 9; 2; 3; 1]) 3 8).
  - reflexivity.
  - cbn. lia.
Defined.

(** X18: an input trace of six samples, whose fit returns, and a
    reference on which two points are accepted: both functions return. *)
Lemma calibrate_envelope_input_fit_returns_witness :
  calibrate_envelope lstsq_polyfit ([1; 2; 3; 4; 5; 6], [3; 1; 4; 1; 5; 9])
    ([1; 2; 3; 4; 5; 6], [0; 1; 2; 1; 0; 1]) 3 8 1
  = calibrate_envelope_without_input_fit lstsq_polyfit
      ([1; 2; 3; 4; 5; 6], [3; 1; 4; 1; 5; 9])
      ([1; 2; 3; 4; 5; 6], [0; 1; 2; 1; 0; 1]) 3 8 1.
Proof.
  eapply (calibrate_envelope_input_fit_returns lstsq_polyfit
            ([1; 2; 3; 4; 5; 6], [3; 1; 4; 1; 5; 9])
            ([1; 2; 3; 4; 5; 6], [0; 1; 2; 1; 0; 1]) 3 8 1).
  reflexivity.
Defined.

(** ** More on [cutback] *)

Lemma for_range_ext_range {S : Type} (body1 body2 : Z -> S -> result S) :
  forall n start s,
  (forall i s', (start <= i < start + Z.of_nat n)%Z ->
                body1 i s' = body2 i s') ->
  for_range start n body1 s = for_range start n body2 s.
Proof.
  induction n as [ | n IH]; intros start s Hext; cbn [for_range].
  - reflexivity.
  - rewrite Hext by lia. destruct (body2 start s); cbn [bind]; auto.
    apply IH. intros i s' Hi. apply Hext. lia.
Qed.

Lemma getitem_app_l {A : Type} (a b : list A) (i : Z) :
  (0 <= i < Z.of_nat (length a))%Z -> getitem (a ++ b) i = getitem a i.
Proof.
  intros Hi. destruct (getitem_in_range a i Hi) as [v Hv]. rewrite Hv.
  apply getitem_nonneg in Hv; [ | lia]. destruct Hv as [_ Hv].
  rewrite <- (Z2Nat.id i) by lia. apply getitem_nth_error.
  rewrite nth_error_app1; [exact Hv | lia].
Qed.

Lemma where_eq_absent (v : Q) : forall (a : list Q) (k : Z),
  (forall u, In u a -> ~ u == v) -> where_eq a v k = [].
Proof.
  induction a as [ | u a IH]; intros k H; cbn [where_eq]; [reflexivity | ].
  destruct (Qeq_bool u v) eqn:E.
  - apply Qeq_bool_iff in E. exfalso. apply (H u); [left; reflexivity | exact E].
  - apply IH. intros u' Hu'. apply H. right. exact Hu'.
Qed.

(** X19.  Without counts [cutback] always raises [IndexError]: no trace is
    fitted, and either the family is empty, or the wavelength is not
    found, or the empty list of fitted curves is indexed. *)
Theorem cutback_no_counts
    (polyfit : list Q -> list Q -> nat -> result (list Q))
    (input_data_response : list trace) (wavelength : Q) :
  cutback polyfit input_data_response [] wavelength = Raise IndexError.
Proof.
  unfold cutback. cbv zeta.
  destruct input_data_response as [ | first rest]; [reflexivity | ].
  change (getitem (first :: rest) 0) with (Ok first).
  cbn [bind length for_range fst snd transpose map].
  destruct (where_eq (fst first) wavelength 0) as [ | index others] eqn:Ew;
    [reflexivity | ].
  change (getitem (index :: others) 0) with (Ok index). cbn [bind].
  destruct (fst first) as [ | w0 ws]; [discriminate | ].
  reflexivity.
Qed.

(** X20.  [cutback] reads one trace per count: traces of the family beyond
    the number of counts change nothing. *)
Theorem cutback_ignores_extra_traces
    (polyfit : list Q -> list Q -> nat -> result (list Q))
    (family extra : list trace) (counts : list Z) (wavelength : Q) :
  family <> [] -> (length counts <= length family)%nat ->
  cutback polyfit (family ++ extra) counts wavelength
  = cutback polyfit family counts wavelength.
Proof.
  intros Hne Hlen. unfold cutback. cbv zeta.
  destruct family as [ | first rest]; [congruence | ].
  change (getitem ((first :: rest) ++ extra) 0) with (Ok first).
  change (getitem (first :: rest) 0) with (Ok first).
  cbn [bind].
  rewrite (for_range_ext_range
             (cutback_fit polyfit ((first :: rest) ++ extra) (fst first) 8)
             (cutback_fit polyfit (first :: rest) (fst first) 8)).
  - reflexivity.
  - intros i s Hi. unfold cutback_fit.
    rewrite getitem_app_l by lia. reflexivity.
Qed.

(** X20 at a third trace that no count refers to. *)
Lemma cutback_ignores_extra_traces_witness :
  cutback lstsq_polyfit
    ([([1; 2; 3], [0; 1; 0]); ([1; 2; 3], [-1; -1; -3])]
     ++ [([1; 2; 3], [50; 60; 70])]) [1; 2]%Z 2
  = cutback lstsq_polyfit
      [([1; 2; 3], [0; 1; 0]); ([1; 2; 3], [-1; -1; -3])] [1; 2]%Z 2.
Proof.
  apply (cutback_ignores_extra_traces lstsq_polyfit).
  - discriminate.
  - simpl. lia.
Defined.

Section CutbackErrors.

Variable polyfit : list Q -> list Q -> nat -> result (list Q).
Hypothesis polyfit_ok : polyfit_contract polyfit.

Variable wavelength_data : list Q.
Hypothesis axis_varies : varies wavelength_data.

Lemma shared_axis_nonempty : wavelength_data <> [].
Proof. exact (varies_nonempty wavelength_data axis_varies). Qed.

(** The first loop on traces as long as the axis, which varies: every fit
    returns. *)
Lemma cutback_fit_returns (family : list trace) :
  Forall (fun tr => length (snd tr) = length wavelength_data) family ->
  forall m k accP accF, (k + m <= length family)%nat ->
  exists fits,
    for_range (Z.of_nat k) m (cutback_fit polyfit family wavelength_data 8)
      (accP, accF)
    = Ok (accP ++ map snd (firstn m (skipn k family)), accF ++ fits) /\
    length fits = m /\
    Forall (fun r => length r = length wavelength_data) fits.
Proof.
  intros Hfam. induction m as [ | m IH]; intros k accP accF Hk;
    cbn [for_range].
  - exists []. cbn [firstn map]. rewrite !app_nil_r.
    split; [reflexivity | split; [reflexivity | constructor]].
  - destruct (nth_error family k) as [tr | ] eqn:Etr;
      [ | apply nth_error_None in Etr; lia].
    pose proof (nth_error_In _ _ Etr) as Hin.
    rewrite Forall_forall in Hfam. pose proof (Hfam tr Hin) as Hlen.
    rewrite <- Forall_forall in Hfam.
    destruct (polyfit_fits polyfit polyfit_ok (center wavelength_data)
                (snd tr) 8) as [pfit [Hfit _]].
    + apply center_nonempty. exact shared_axis_nonempty.
    + rewrite length_center. congruence.
    + right. apply center_varies. exact axis_varies.
    + unfold cutback_fit at 1. rewrite (getitem_nth_error _ _ _ Etr).
      cbn [bind fst snd]. rewrite Hfit. cbn [bind].
      replace (Z.of_nat k + 1)%Z with (Z.of_nat (S k)) by lia.
      destruct (IH (S k) (accP ++ [snd tr])
                  (accF ++ [polyval pfit (center wavelength_data)]))
        as (fits & Hloop & Hl & Hall); [lia | ].
      exists (polyval pfit (center wavelength_data) :: fits).
      rewrite Hloop, (skipn_nth_error _ _ _ Etr). cbn [firstn map length].
      rewrite <- !app_assoc. cbn [app].
      split; [reflexivity | split; [congruence | ]].
      constructor; [ | exact Hall].
      rewrite length_polyval, length_center. reflexivity.
Qed.

(** More rounds than traces: the loop indexes past the family. *)
Lemma cutback_fit_overrun (family : list trace) :
  Forall (fun tr => length (snd tr) = length wavelength_data) family ->
  forall m k accP accF,
  (k <= length family)%nat -> (length family < k + m)%nat ->
  for_range (Z.of_nat k) m (cutback_fit polyfit family wavelength_data 8)
    (accP, accF)
  = Raise IndexError.
Proof.
  intros Hfam. induction m as [ | m IH]; intros k accP accF Hk Hover;
    [lia | ].
  cbn [for_range].
  destruct (nth_error family k) as [tr | ] eqn:Etr.
  - pose proof (nth_error_In _ _ Etr) as Hin.
    assert (Hkl : (k < length family)%nat)
      by (apply nth_error_Some; congruence).
    rewrite Forall_forall in Hfam. pose proof (Hfam tr Hin) as Hlen.
    rewrite <- Forall_forall in Hfam.
    destruct (polyfit_fits polyfit polyfit_ok (center wavelength_data)
                (snd tr) 8) as [pfit [Hfit _]].
    + apply center_nonempty. exact shared_axis_nonempty.
    + rewrite length_center. congruence.
    + right. apply center_varies. exact axis_varies.
    + unfold cutback_fit at 1. rewrite (getitem_nth_error _ _ _ Etr).
      cbn [bind fst snd]. rewrite Hfit. cbn [bind].
      replace (Z.of_nat k + 1)%Z with (Z.of_nat (S k)) by lia.
      apply IH; lia.
  - apply nth_error_None in Etr. unfold cutback_fit at 1.
    rewrite getitem_past_end by lia. reflexivity.
Qed.

End CutbackErrors.

Section CutbackErrorTheorems.

Variable polyfit : list Q -> list Q -> nat -> result (list Q).
Hypothesis polyfit_ok : polyfit_contract polyfit.

Lemma shared_axis_rows (wavelength_data : list Q) (family : list trace) :
  Forall (fun tr => fst tr = wavelength_data /\
                    length (snd tr) = length wavelength_data) family ->
  Forall (fun tr => length (snd tr) = length wavelength_data) family.
Proof. apply Forall_impl. intros tr [_ H]. exact H. Qed.

(** X21.  On a family that shares an axis of two different wavelengths,
    with a trace for every count, a wavelength of interest that is not a
    sample of the axis makes [cutback] raise [IndexError]: the lookup is
    by equality, with no nearest neighbour. *)
Theorem cutback_wavelength_absent (family : list trace) (counts : list Z)
    (wavelength_data : list Q) (wavelength : Q) :
  varies wavelength_data ->
  Forall (fun tr => fst tr = wavelength_data /\
                    length (snd tr) = length wavelength_data) family ->
  (length counts <= length family)%nat ->
  (forall v, In v wavelength_data -> ~ v == wavelength) ->
  cutback polyfit family counts wavelength = Raise IndexError.
Proof.
  intros Haxis Hfam Hlen Habsent. unfold cutback. cbv zeta.
  destruct family as [ | first rest]; [reflexivity | ].
  assert (Hfirst : fst first = wavelength_data)
    by (inversion Hfam as [ | ? ? [Hf _] _]; exact Hf).
  change (getitem (first :: rest) 0) with (Ok first). cbn [bind].
  rewrite Hfirst.
  destruct (cutback_fit_returns polyfit polyfit_ok wavelength_data Haxis
              (first :: rest) (shared_axis_rows _ _ Hfam)
              (length counts) 0 [] [])
    as (fits & Hloop & _); [lia | ].
  change (Z.of_nat 0) with 0%Z in Hloop. rewrite Hloop. cbn [bind].
  rewrite where_eq_absent by exact Habsent. reflexivity.
Qed.

(** X22.  On a family that shares an axis of two different wavelengths,
    more counts than traces make [cutback] raise [IndexError]: the first
    loop runs once per count and indexes past the family. *)
Theorem cutback_more_counts_than_traces (family : list trace)
    (counts : list Z) (wavelength_data : list Q) (wavelength : Q) :
  varies wavelength_data ->
  Forall (fun tr => fst tr = wavelength_data /\
                    length (snd tr) = length wavelength_data) family ->
  (length family < length counts)%nat ->
  cutback polyfit family counts wavelength = Raise IndexError.
Proof.
  intros Haxis Hfam Hlen. unfold cutback. cbv zeta.
  destruct family as [ | first rest]; [reflexivity | ].
  assert (Hfirst : fst first = wavelength_data)
    by (inversion Hfam as [ | ? ? [Hf _] _]; exact Hf).
  change (getitem (first :: rest) 0) with (Ok first). cbn [bind].
  rewrite Hfirst.
  pose proof (cutback_fit_overrun polyfit polyfit_ok wavelength_data Haxis
                (first :: rest) (shared_axis_rows _ _ Hfam)
                (length counts) 0 [] [] ltac:(lia) ltac:(simpl in *; lia))
    as Hover.
  change (Z.of_nat 0) with 0%Z in Hover. rewrite Hover. reflexivity.
Qed.

End CutbackErrorTheorems.

(** X21: the wavelength 4 is not on the axis [1, 2, 3]. *)
Lemma cutback_wavelength_absent_witness :
  cutback lstsq_polyfit [([1; 2; 3], [0; 2; 1]); ([1; 2; 3], [1; 3; 2])]
    [1; 2]%Z 4 = Raise IndexError.
Proof.
  apply (cutback_wavelength_absent lstsq_polyfit lstsq_polyfit_contract
           _ _ [1; 2; 3]).
  - exists 1, 2. split; [left; reflexivity | ].
    split; [right; left; reflexivity | discriminate].
  - repeat constructor.
  - cbn [length]. lia.
  - intros v [<- | [<- | [<- | []]]]; discriminate.
Defined.

(** X22: three counts and two traces. *)
Lemma cutback_more_counts_than_traces_witness :
  cutback lstsq_polyfit [([1; 2; 3], [0; 2; 1]); ([1; 2; 3], [1; 3; 2])]
    [1; 2; 3]%Z 2 = Raise IndexError.
Proof.
  apply (cutback_more_counts_than_traces lstsq_polyfit lstsq_polyfit_contract
           _ _ [1; 2; 3]).
  - exists 1, 2. split; [left; reflexivity | ].
    split; [right; left; reflexivity | discriminate].
  - repeat constructor.
  - cbn [length]. lia.
Defined.

(** [numpy.where(a == v)[0][0]] is the first index at which [a] equals
    [v]. *)
Lemma where_eq_first_index (v : Q) : forall (a : list Q) (k : Z),
  (exists u, In u a /\ u == v) ->
  exists (i : nat) rest,
    where_eq a v k = (k + Z.of_nat i)%Z :: rest /\
    (i < length a)%nat /\ nth i a 0 == v /\
    forall j, (j < i)%nat -> ~ nth j a 0 == v.
Proof.
  induction a as [ | u a IH]; intros k [u0 [Hin Heq]]; [contradiction | ].
  cbn [where_eq length]. destruct (Qeq_bool u v) eqn:E.
  - exists 0%nat. eexists. rewrite Z.add_0_r. split; [reflexivity | ].
    split; [lia | split; [apply Qeq_bool_iff; exact E | intros j Hj; lia]].
  - assert (Hne : ~ u == v).
    { intros H. apply Qeq_bool_iff in H. congruence. }
    destruct Hin as [-> | Hin]; [contradiction | ].
    destruct (IH (k + 1)%Z) as (i & rest & Hw & Hi & Hv & Hfirst); [eauto | ].
    exists (S i), rest. cbn [nth]. split; [rewrite Hw; f_equal; lia | ].
    split; [lia | split; [exact Hv | ]].
    intros [ | j] Hj; cbn [nth]; [exact Hne | apply Hfirst; lia].
Qed.

Lemma In_firstn {A : Type} (a : A) : forall (n : nat) (l : list A),
  In a (firstn n l) -> In a l.
Proof.
  induction n as [ | n IH]; intros [ | b l] H; cbn [firstn] in H;
    try contradiction.
  destruct H as [-> | H]; [left; reflexivity | right; apply IH; exact H].
Qed.

Lemma first_coefficients (losses : list (list Q)) :
  losses <> [] -> Forall (fun l => length l = 2%nat) losses ->
  getitem (transpose losses) 0 = Ok (map (fun row => nth 0 row 0) losses).
Proof.
  intros Hne Hall. apply (getitem_transpose losses 2 0 Hne Hall). lia.
Qed.

Section CutbackStructure.

Variable polyfit : list Q -> list Q -> nat -> result (list Q).
Hypothesis polyfit_ok : polyfit_contract polyfit.

Variable xs : list Q.
Hypothesis xs_nonempty : xs <> [].
Hypothesis xs_not_zero : ~ all_zero xs.

Variable L : nat.

(** The second loop on two tables of [length xs] rows of [L] entries,
    for counts [xs] that are not all zero: entry [j] of each result is a
    least-squares line for column [j]. *)
Lemma cutback_regress_returns (power_fit power : list (list Q)) :
  length power_fit = length xs -> length power = length xs ->
  Forall (fun r => length r = L) power_fit ->
  Forall (fun r => length r = L) power ->
  forall m k acc1 acc2, (k + m = L)%nat ->
  exists l1 l2,
    for_range (Z.of_nat k) m
      (cutback_regress polyfit xs (transpose power_fit) (transpose power))
      (acc1, acc2)
    = Ok (acc1 ++ l1, acc2 ++ l2) /\
    Forall2 (fun j loss =>
               least_squares xs (map (fun row => nth j row 0) power_fit) 1
                 loss) (seq k m) l1 /\
    Forall2 (fun j loss =>
               least_squares xs (map (fun row => nth j row 0) power) 1
                 loss) (seq k m) l2.
Proof.
  intros Hnf Hnp Hrf Hrp.
  assert (Hfne : power_fit <> [])
    by (apply (nonempty_length xs); [exact xs_nonempty | congruence]).
  assert (Hpne : power <> [])
    by (apply (nonempty_length xs); [exact xs_nonempty | congruence]).
  induction m as [ | m IH]; intros k acc1 acc2 Hk; cbn [for_range seq].
  - exists [], []. rewrite !app_nil_r. repeat split; constructor.
  - unfold cutback_regress at 1.
    rewrite (getitem_transpose power_fit L k Hfne Hrf) by lia. cbn [bind].
    destruct (polyfit_fits polyfit polyfit_ok xs
                (map (fun row => nth k row 0) power_fit) 1)
      as [loss [Hloss Hls]];
      [exact xs_nonempty | rewrite length_map; congruence
       | right; exact xs_not_zero | ].
    rewrite Hloss. cbn [bind].
    rewrite (getitem_transpose power L k Hpne Hrp) by lia. cbn [bind].
    destruct (polyfit_fits polyfit polyfit_ok xs
                (map (fun row => nth k row 0) power) 1)
      as [loss_raw [Hloss_raw Hlsr]];
      [exact xs_nonempty | rewrite length_map; congruence
       | right; exact xs_not_zero | ].
    rewrite Hloss_raw. cbn [bind fst snd].
    replace (Z.of_nat k + 1)%Z with (Z.of_nat (S k)) by lia.
    destruct (IH (S k) (acc1 ++ [loss]) (acc2 ++ [loss_raw]))
      as (l1 & l2 & Hloop & H1 & H2); [lia | ].
    exists (loss :: l1), (loss_raw :: l2).
    rewrite Hloop, <- !app_assoc. cbn [app].
    repeat split; constructor; assumption.
Qed.

End CutbackStructure.

Lemma Forall2_seq_nth {A : Type} (P : nat -> A -> Prop) (d : A) :
  forall (l : list A) (k m : nat),
  Forall2 P (seq k m) l ->
  length l = m /\ forall j, (j < m)%nat -> P (k + j)%nat (nth j l d).
Proof.
  induction l as [ | a l IH]; intros k [ | m] H; inversion H; subst.
  - split; [reflexivity | intros j Hj; lia].
  - destruct (IH (S k) m) as [Hl Hn]; [assumption | ].
    split; [cbn; congruence | ].
    intros [ | j] Hj; cbn [nth].
    + rewrite Nat.add_0_r. assumption.
    + replace (k + S j)%nat with (S k + j)%nat by lia. apply Hn. lia.
Qed.

Section CutbackSpec.

Variable polyfit : list Q -> list Q -> nat -> result (list Q).
Hypothesis polyfit_ok : polyfit_contract polyfit.

Lemma counts_not_zero (counts : list Z) :
  (exists c, In c counts /\ c <> 0%Z) -> ~ all_zero (map inject_Z counts).
Proof.
  intros (c & Hc & Hnz) Hz. apply Hnz.
  unfold all_zero in Hz. rewrite Forall_map, Forall_forall in Hz.
  specialize (Hz c Hc). cbn beta in Hz.
  unfold Qeq, inject_Z in Hz. cbn [Qnum Qden] in Hz. lia.
Qed.

(** What [cutback] returns on a family that shares an axis of two
    different wavelengths, with a count that is not zero and a trace for
    every count, and a wavelength of interest on the axis. *)
Lemma cutback_returns_spec (family : list trace) (counts : list Z)
    (wavelength_data : list Q) (wavelength : Q) :
  Forall (fun tr => fst tr = wavelength_data /\
                    length (snd tr) = length wavelength_data) family ->
  varies wavelength_data ->
  (exists c, In c counts /\ c <> 0%Z) ->
  (length counts <= length family)%nat ->
  (exists v, In v wavelength_data /\ v == wavelength) ->
  exists (index : nat) power_fit insertion_loss insertion_loss_raw,
    cutback polyfit family counts wavelength
    = Ok (nth 0 (nth index insertion_loss []) 0,
          map (fun row => nth 0 row 0) insertion_loss,
          map (fun row => nth 0 row 0) insertion_loss_raw) /\
    (index < length wavelength_data)%nat /\
    nth index wavelength_data 0 == wavelength /\
    (forall j, (j < index)%nat -> ~ nth j wavelength_data 0 == wavelength) /\
    length power_fit = length counts /\
    Forall (fun r => length r = length wavelength_data) power_fit /\
    length insertion_loss = length wavelength_data /\
    length insertion_loss_raw = length wavelength_data /\
    (forall j, (j < length wavelength_data)%nat ->
       least_squares (map inject_Z counts)
         (map (fun row => nth j row 0) power_fit) 1
         (nth j insertion_loss []) /\
       least_squares (map inject_Z counts)
         (map (fun tr => nth j (snd tr) 0)
            (firstn (length counts) family)) 1
         (nth j insertion_loss_raw [])).
Proof.
  intros Hfam Hvaries Hnonzero Hlen Hpresent.
  assert (Hcounts : counts <> []).
  { destruct Hnonzero as (c & Hc & _). intros ->. contradiction. }
  assert (Haxis : wavelength_data <> []).
  { destruct Hpresent as [v [Hin _]]. intros ->. contradiction. }
  destruct family as [ | first rest];
    [destruct counts; [congruence | simpl in Hlen; lia] | ].
  assert (Hfirst : fst first = wavelength_data)
    by (inversion Hfam as [ | ? ? [Hf _] _]; exact Hf).
  unfold cutback. cbv zeta.
  change (getitem (first :: rest) 0) with (Ok first). cbn [bind].
  rewrite Hfirst.
  destruct (cutback_fit_returns polyfit polyfit_ok wavelength_data Hvaries
              (first :: rest) (shared_axis_rows _ _ Hfam)
              (length counts) 0 [] [])
    as (fits & Hloop & Hfl & Hfrows); [lia | ].
  change (Z.of_nat 0) with 0%Z in Hloop. rewrite Hloop.
  cbn [bind fst snd app skipn].
  set (family := first :: rest) in *.
  set (power := map snd (firstn (length counts) family)).
  assert (Hpl : length power = length counts).
  { unfold power. rewrite length_map, length_firstn. lia. }
  assert (Hprows : Forall (fun r => length r = length wavelength_data) power).
  { unfold power. apply Forall_forall. intros r Hr.
    apply in_map_iff in Hr. destruct Hr as [tr [<- Hin]].
    apply In_firstn in Hin. rewrite Forall_forall in Hfam.
    apply (Hfam tr Hin). }
  destruct (where_eq_first_index wavelength wavelength_data 0 Hpresent)
    as (index & others & Hwhere & Hindex & Hat & Hbefore).
  rewrite Hwhere.
  change (getitem ((0 + Z.of_nat index)%Z :: others) 0)
    with (@Ok Z (0 + Z.of_nat index)%Z).
  cbn [bind]. rewrite Z.add_0_l.
  set (xs := map inject_Z counts).
  assert (Hxs : xs <> [])
    by (unfold xs; destruct counts; [congruence | discriminate]).
  destruct (cutback_regress_returns polyfit polyfit_ok xs Hxs
              (counts_not_zero counts Hnonzero)
              (length wavelength_data) fits power
              ltac:(unfold xs; rewrite length_map; congruence)
              ltac:(unfold xs; rewrite length_map; congruence)
              Hfrows Hprows (length wavelength_data) 0 [] [] eq_refl)
    as (l1 & l2 & Hreg & H1 & H2).
  change (Z.of_nat 0) with 0%Z in Hreg. rewrite Hreg.
  cbn [bind fst snd app].
  destruct (Forall2_seq_nth _ [] _ _ _ H1) as [Hl1 Hn1].
  destruct (Forall2_seq_nth _ [] _ _ _ H2) as [Hl2 Hn2].
  assert (Hall1 : Forall (fun l => length l = 2%nat) l1).
  { clear - H1. induction H1 as [ | j l js ls [Hl _] H IH]; constructor;
      assumption. }
  assert (Hall2 : Forall (fun l => length l = 2%nat) l2).
  { clear - H2. induction H2 as [ | j l js ls [Hl _] H IH]; constructor;
      assumption. }
  assert (Hat1 : getitem l1 (Z.of_nat index) = Ok (nth index l1 [])).
  { apply getitem_nth_error. apply nth_error_nth'. lia. }
  rewrite Hat1. cbn [bind].
  assert (Hrow : length (nth index l1 []) = 2%nat).
  { rewrite Forall_forall in Hall1. apply Hall1. apply nth_In. lia. }
  assert (Hat0 : getitem (nth index l1 []) 0 = Ok (nth 0 (nth index l1 []) 0)).
  { apply (getitem_nth_error _ 0). apply nth_error_nth'. lia. }
  rewrite Hat0. cbn [bind].
  rewrite !first_coefficients; try assumption;
    try (apply (nonempty_length wavelength_data); [exact Haxis | congruence]).
  cbn [bind].
  exists index, fits, l1, l2.
  split; [reflexivity | ].
  do 7 (split; [first [assumption | congruence] | ]).
  intros j Hj. split.
  - apply (Hn1 j). exact Hj.
  - specialize (Hn2 j Hj). cbn [Nat.add] in Hn2. unfold power in Hn2.
    rewrite map_map in Hn2. exact Hn2.
Qed.

End CutbackSpec.

(** A least-squares line through two points of different abscissa goes
    through both: its slope is the difference quotient. *)
Lemma line_through_two_points (x1 x2 y1 y2 : Q) (p : list Q) :
  ~ x1 == x2 -> least_squares [x1; x2] [y1; y2] 1 p ->
  nth 0 p 0 == (y2 - y1) / (x2 - x1).
Proof.
  intros Hx Hls.
  assert (Hd : ~ x2 - x1 == 0) by (intros H; apply Hx; lra).
  pose proof (least_squares_exact [x1; x2] [y1; y2] 1 p
                [(y2 - y1) / (x2 - x1); y1 - (y2 - y1) / (x2 - x1) * x1]
                Hls eq_refl eq_refl) as Hexact.
  destruct Hls as [Hlen _].
  destruct p as [ | s [ | t [ | ? ?]]]; try discriminate.
  cbn [nth].
  assert (Hfit : Forall2 Qeq (polyval [s; t] [x1; x2]) [y1; y2]).
  { apply Hexact. unfold polyval, polyval1. cbn [map fold_left].
    constructor; [field; exact Hd | ].
    constructor; [field; exact Hd | constructor]. }
  unfold polyval, polyval1 in Hfit. cbn [map fold_left] in Hfit.
  inversion Hfit as [ | ? ? ? ? H1 Hrest]; subst.
  inversion Hrest as [ | ? ? ? ? H2 _]; subst.
  apply (Qmult_inj_r _ _ (x2 - x1) Hd).
  field_simplify_eq; [ | exact Hd]. lra.
Qed.

Lemma nth_first_coefficients (losses : list (list Q)) (j : nat) :
  nth j (map (fun row => nth 0 row 0) losses) 0 = nth 0 (nth j losses []) 0.
Proof. exact (map_nth (fun row : list Q => nth 0 row 0) losses [] j). Qed.

Section CutbackResults.

Variable polyfit : list Q -> list Q -> nat -> result (list Q).
Hypothesis polyfit_ok : polyfit_contract polyfit.

(** X23.  [cutback] on well-formed data.  When every trace has the
    wavelength axis of the first and a power of that length, the axis has
    two different wavelengths, some count is not zero, there is a trace
    for every count, and the wavelength of interest is on the axis,
    [cutback] returns; both profiles have one
    entry for each wavelength sample; the scalar is the entry of the
    fitted profile at the first index where the axis equals the
    wavelength of interest; and entry [j] of the raw profile is the slope
    of a least-squares line through the points
    [(count_i, power_i[j])]. *)
Theorem cutback_profiles (family : list trace) (counts : list Z)
    (wavelength_data : list Q) (wavelength : Q) :
  Forall (fun tr => fst tr = wavelength_data /\
                    length (snd tr) = length wavelength_data) family ->
  varies wavelength_data ->
  (exists c, In c counts /\ c <> 0%Z) ->
  (length counts <= length family)%nat ->
  (exists v, In v wavelength_data /\ v == wavelength) ->
  exists loss_at_wavelength loss_fit loss_raw (index : nat),
    cutback polyfit family counts wavelength
    = Ok (loss_at_wavelength, loss_fit, loss_raw) /\
    length loss_fit = length wavelength_data /\
    length loss_raw = length wavelength_data /\
    (index < length wavelength_data)%nat /\
    nth index wavelength_data 0 == wavelength /\
    (forall j, (j < index)%nat -> ~ nth j wavelength_data 0 == wavelength) /\
    nth_error loss_fit index = Some loss_at_wavelength /\
    forall j, (j < length wavelength_data)%nat ->
      exists intercept,
        least_squares (map inject_Z counts)
          (map (fun tr => nth j (snd tr) 0) (firstn (length counts) family))
          1 [nth j loss_raw 0; intercept].
Proof.
  intros Hfam Hvaries Hcounts Hlen Hpresent.
  destruct (cutback_returns_spec polyfit polyfit_ok family counts
              wavelength_data wavelength Hfam Hvaries Hcounts Hlen Hpresent)
    as (index & power_fit & il & ilr & Hcut & Hindex & Hat & Hbefore &
        _ & _ & Hil & Hilr & Hfits).
  exists (nth 0 (nth index il []) 0), (map (fun row => nth 0 row 0) il),
    (map (fun row => nth 0 row 0) ilr), index.
  split; [exact Hcut | ].
  rewrite !length_map.
  do 5 (split; [assumption | ]).
  split.
  - rewrite nth_error_map, (nth_error_nth' il []) by lia. reflexivity.
  - intros j Hj. destruct (Hfits j Hj) as [_ Hraw].
    rewrite nth_first_coefficients.
    pose proof Hraw as [Hlen2 _].
    destruct (nth j ilr []) as [ | s [ | t [ | ? ?]]] eqn:Erow;
      try discriminate.
    exists t. cbn [nth]. exact Hraw.
Qed.

(** X24.  Two traces.  With two traces on one axis of two different
    wavelengths and two different counts, the raw profile of [cutback] is
    the difference quotient of the two powers at every wavelength
    sample. *)
Theorem cutback_two_traces (wavelength_data power1 power2 : list Q)
    (count1 count2 : Z) (wavelength : Q) :
  varies wavelength_data ->
  length power1 = length wavelength_data ->
  length power2 = length wavelength_data ->
  count1 <> count2 ->
  (exists v, In v wavelength_data /\ v == wavelength) ->
  exists loss_at_wavelength loss_fit loss_raw,
    cutback polyfit [(wavelength_data, power1); (wavelength_data, power2)]
      [count1; count2] wavelength
    = Ok (loss_at_wavelength, loss_fit, loss_raw) /\
    length loss_raw = length wavelength_data /\
    forall j, (j < length wavelength_data)%nat ->
      nth j loss_raw 0
      == (nth j power2 0 - nth j power1 0)
         / (inject_Z count2 - inject_Z count1).
Proof.
  intros Hvaries H1 H2 Hc Hpresent.
  destruct (cutback_returns_spec polyfit polyfit_ok
              [(wavelength_data, power1); (wavelength_data, power2)]
              [count1; count2] wavelength_data wavelength)
    as (index & power_fit & il & ilr & Hcut & _ & _ & _ &
        _ & _ & _ & Hilr & Hfits);
    [ | exact Hvaries | | cbn [length]; lia | exact Hpresent | ].
  2: { destruct (Z.eq_dec count1 0) as [H0 | H0].
       - exists count2. split; [right; left; reflexivity | congruence].
       - exists count1. split; [left; reflexivity | exact H0]. }
  { constructor; [split; [reflexivity | exact H1] | ].
    constructor; [split; [reflexivity | exact H2] | constructor]. }
  eexists; eexists; eexists. split; [exact Hcut | ].
  rewrite length_map. split; [exact Hilr | ].
  intros j Hj. destruct (Hfits j Hj) as [_ Hraw].
  cbn [length firstn map fst snd] in Hraw.
  rewrite nth_first_coefficients.
  apply (line_through_two_points (inject_Z count1) (inject_Z count2)).
  - intros Heq. apply Hc. unfold Qeq, inject_Z in Heq.
    cbn [Qnum Qden] in Heq. lia.
  - exact Hraw.
Qed.

End CutbackResults.

(** X23: three traces, two counts, and the wavelength 2 on the axis. *)
Lemma cutback_profiles_witness :
  exists loss_at_wavelength loss_fit loss_raw (index : nat),
    cutback lstsq_polyfit
      [([1; 2; 3], [0; 2; 1]); ([1; 2; 3], [1; 3; 2]); ([1; 2; 3], [7; 7; 7])]
      [1; 3]%Z 2
    = Ok (loss_at_wavelength, loss_fit, loss_raw) /\
    length loss_fit = length [1; 2; 3] /\
    length loss_raw = length [1; 2; 3] /\
    (index < length [1; 2; 3])%nat /\
    nth index [1; 2; 3] 0 == 2 /\
    (forall j, (j < index)%nat -> ~ nth j [1; 2; 3] 0 == 2) /\
    nth_error loss_fit index = Some loss_at_wavelength /\
    forall j, (j < length [1; 2; 3])%nat ->
      exists intercept,
        least_squares (map inject_Z [1; 3]%Z)
          (map (fun tr => nth j (snd tr) 0)
             (firstn (length [1; 3]%Z)
                [([1; 2; 3], [0; 2; 1]); ([1; 2; 3], [1; 3; 2]);
                 ([1; 2; 3], [7; 7; 7])]))
          1 [nth j loss_raw 0; intercept].
Proof.
  apply (cutback_profiles lstsq_polyfit lstsq_polyfit_contract).
  - repeat constructor.
  - exists 1, 2. split; [left; reflexivity | ].
    split; [right; left; reflexivity | discriminate].
  - exists 1%Z. split; [left; reflexivity | discriminate].
  - cbn [length]. lia.
  - exists 2. split; [right; left; reflexivity | reflexivity].
Defined.

(** X24: counts 1 and 3: the raw profile is half the difference of the
    powers. *)
Lemma cutback_two_traces_witness :
  exists loss_at_wavelength loss_fit loss_raw,
    cutback lstsq_polyfit [([1; 2; 3], [0; 2; 1]); ([1; 2; 3], [4; 3; 2])]
      [1; 3]%Z 2
    = Ok (loss_at_wavelength, loss_fit, loss_raw) /\
    length loss_raw = length [1; 2; 3] /\
    forall j, (j < length [1; 2; 3])%nat ->
      nth j loss_raw 0
      == (nth j [4; 3; 2] 0 - nth j [0; 2; 1] 0)
         / (inject_Z 3 - inject_Z 1).
Proof.
  apply (cutback_two_traces lstsq_polyfit lstsq_polyfit_contract).
  - exists 1, 2. split; [left; reflexivity | ].
    split; [right; left; reflexivity | discriminate].
  - reflexivity.
  - reflexivity.
  - discriminate.
  - exists 2. split; [right; left; reflexivity | reflexivity].
Defined.

(** ** The numbers of [cutback] on one count

    With a single count the regression line is not determined, and the
    code returns the line of least scaled norm: for the count [c] and the
    power [y] it is the slope [y / (2 c)].  With counts that are all zero,
    or an axis that does not vary, the fit raises [LinAlgError]. *)
Example cutback_single_count :
  cutback lstsq_polyfit [([1; 2; 3], [2; 2; 2])] [1%Z] 2
  = Ok (1, [1; 1; 1], [1; 1; 1]) /\
  cutback lstsq_polyfit [([1; 2; 3], [2; 4; 6])] [2%Z] 2
  = Ok (1, [1 # 2; 1; 3 # 2], [1 # 2; 1; 3 # 2]) /\
  cutback lstsq_polyfit
    [([1; 2; 3], [2; 4; 6]); ([1; 2; 3], [2; 4; 6])] [0; 0]%Z 2
  = Raise LinAlgError /\
  cutback lstsq_polyfit [([1; 1; 1], [2; 4; 6])] [2%Z] 1
  = Raise LinAlgError.
Proof. repeat split; vm_compute; reflexivity. Qed.

(** ** The minimiser of least scaled norm *)

Lemma exps_S (n : nat) : rev (seq 0 (S n)) = n :: rev (seq 0 n).
Proof. rewrite seq_S, rev_app_distr. reflexivity. Qed.

Lemma In_exps (n e : nat) : In e (rev (seq 0 n)) -> (e < n)%nat.
Proof. rewrite <- in_rev, in_seq. lia. Qed.

Lemma power_sum_map (g : nat -> Q) (a : Q) : forall n,
  power_sum (map g (rev (seq 0 n))) a
  == qsum (map (fun e => g e * qpow a e) (rev (seq 0 n))).
Proof.
  induction n as [ | n IH]; [reflexivity | ].
  rewrite exps_S. cbn [map power_sum]. rewrite qsum_cons, IH.
  rewrite length_map, length_rev, length_seq. reflexivity.
Qed.

Lemma scaled_norm_map (x : list Q) (g : nat -> Q) : forall n,
  scaled_norm x (map g (rev (seq 0 n)))
  == qsum (map (fun e => MinNorm.weight x e * (g e * g e)) (rev (seq 0 n))).
Proof.
  induction n as [ | n IH]; [reflexivity | ].
  rewrite exps_S. cbn [map scaled_norm]. rewrite qsum_cons, IH.
  rewrite length_map, length_rev, length_seq. reflexivity.
Qed.

(** A vector of [n] coefficients as a function of the exponent. *)
Lemma coefficients_by_exponent : forall (c : list Q) (n : nat),
  length c = n ->
  map (fun e => nth (n - 1 - e) c 0) (rev (seq 0 n)) = c.
Proof.
  induction c as [ | a c IH]; intros n Hn; subst n; [reflexivity | ].
  cbn [length]. rewrite exps_S. cbn [map].
  replace (S (length c) - 1 - length c)%nat with 0%nat by lia.
  cbn [nth]. f_equal.
  rewrite <- (IH (length c) eq_refl) at 2.
  apply map_ext_in. intros e He. apply In_exps in He.
  replace (S (length c) - 1 - e)%nat with (S (length c - 1 - e)) by lia.
  reflexivity.
Qed.

Lemma qsum_map_ext {A : Type} (f g : A -> Q) : forall l,
  (forall a, In a l -> f a == g a) -> qsum (map f l) == qsum (map g l).
Proof.
  induction l as [ | a l IH]; intros H; [reflexivity | ].
  cbn [map]. rewrite !qsum_cons, IH, (H a).
  - reflexivity.
  - left. reflexivity.
  - intros b Hb. apply H. right. exact Hb.
Qed.

Lemma qsum_map_plus {A : Type} (f g : A -> Q) : forall l,
  qsum (map (fun a => f a + g a) l) == qsum (map f l) + qsum (map g l).
Proof.
  induction l as [ | a l IH]; cbn [map]; [reflexivity | ].
  rewrite !qsum_cons, IH. ring.
Qed.

Lemma qsum_map_scale {A : Type} (k : Q) (f : A -> Q) : forall l,
  qsum (map (fun a => k * f a) l) == k * qsum (map f l).
Proof.
  induction l as [ | a l IH]; cbn [map]; [unfold qsum; cbn; ring | ].
  rewrite !qsum_cons, IH. ring.
Qed.

Lemma qsum_map_zero {A : Type} (f : A -> Q) : forall l,
  (forall a, In a l -> f a == 0) -> qsum (map f l) == 0.
Proof.
  induction l as [ | a l IH]; intros H; [reflexivity | ].
  cbn [map]. rewrite qsum_cons, IH, (H a).
  - ring.
  - left. reflexivity.
  - intros b Hb. apply H. right. exact Hb.
Qed.

Lemma qsum_map_nonneg {A : Type} (f : A -> Q) : forall l,
  (forall a, In a l -> 0 <= f a) -> 0 <= qsum (map f l).
Proof.
  induction l as [ | a l IH]; intros H; [unfold qsum; cbn; lra | ].
  cbn [map]. rewrite qsum_cons.
  pose proof (H a ltac:(left; reflexivity)).
  pose proof (IH ltac:(intros b Hb; apply H; right; exact Hb)). lra.
Qed.

(** Two sums in either order. *)
Lemma qsum_swap {A B : Type} (F : A -> B -> Q) (E : list A) : forall L,
  qsum (map (fun e => qsum (map (F e) L)) E)
  == qsum (map (fun b => qsum (map (fun e => F e b) E)) L).
Proof.
  induction L as [ | b L IH]; cbn [map].
  - apply qsum_map_zero. intros; reflexivity.
  - rewrite qsum_cons, <- IH, <- qsum_map_plus.
    apply qsum_map_ext. intros e _. rewrite qsum_cons. reflexivity.
Qed.

Lemma nodes_In (a : Q) : forall x, In a (MinNorm.nodes x) -> In a x.
Proof.
  induction x as [ | b x IH]; cbn [MinNorm.nodes]; [tauto | ].
  destruct (existsb (Qeq_bool b) x); intros H.
  - right. apply IH. exact H.
  - destruct H as [-> | H]; [left; reflexivity | right; apply IH; exact H].
Qed.

Lemma qpow_nonzero (v : Q) (e : nat) : ~ v == 0 -> ~ qpow v e == 0.
Proof.
  intros Hv. induction e as [ | e IH]; cbn [qpow]; [discriminate | ].
  intros H. apply Qmult_integral in H. tauto.
Qed.

Lemma weight_nonneg (x : list Q) (e : nat) : 0 <= MinNorm.weight x e.
Proof.
  unfold MinNorm.weight. rewrite Qred_correct.
  apply qsum_map_nonneg. intros v _. generalize (qpow v e). intros r. nra.
Qed.

Lemma weight_nonzero (x : list Q) (e : nat) :
  x <> [] -> e = 0%nat \/ ~ all_zero x -> ~ MinNorm.weight x e == 0.
Proof.
  intros Hne Hok. unfold MinNorm.weight. rewrite Qred_correct.
  assert (Hpos : exists v, In v x /\ ~ qpow v e == 0).
  { destruct Hok as [-> | Hnz].
    - destruct x as [ | v x]; [congruence | ].
      exists v. split; [left; reflexivity | discriminate].
    - destruct (Exists_dec (fun v => ~ v == 0) x) as [Hex | Hall].
      + intros v. destruct (Qeq_dec v 0); [right; tauto | left; assumption].
      + apply Exists_exists in Hex. destruct Hex as (v & Hv & Hv0).
        exists v. split; [exact Hv | apply qpow_nonzero; exact Hv0].
      + exfalso. apply Hnz. apply Forall_forall. intros v Hv.
        destruct (Qeq_dec v 0) as [H0 | H0]; [exact H0 | ].
        exfalso. apply Hall. apply Exists_exists. exists v. tauto. }
  destruct Hpos as (v & Hv & Hv0). clear Hne Hok.
  induction x as [ | u x IH]; [contradiction | ].
  cbn [map]. rewrite qsum_cons.
  assert (Hrest : 0 <= qsum (map (fun v => qpow v e * qpow v e) x)).
  { apply qsum_map_nonneg. intros w _. generalize (qpow w e). intros r. nra. }
  assert (Hsq : 0 <= qpow u e * qpow u e)
    by (generalize (qpow u e); intros r; nra).
  destruct Hv as [-> | Hv].
  - assert (0 < qpow v e * qpow v e).
    { revert Hv0. generalize (qpow v e). intros r Hr.
      destruct (Qlt_le_dec 0 r); [nra | ].
      destruct (Qlt_le_dec r 0); [nra | ]. exfalso. apply Hr. lra. }
    lra.
  - specialize (IH Hv). intros H. apply IH. lra.
Qed.

(** When the candidate passes its test it is the minimiser that numpy
    returns: among the vectors with the values of [p] at the abscissae,
    none has a smaller scaled norm. *)
Lemma candidate_least_norm (x : list Q) (deg : nat) (p c' : list Q) :
  x <> [] -> deg = 0%nat \/ ~ all_zero x ->
  MinNorm.same_fit x p (MinNorm.candidate x deg p) = true ->
  length c' = S deg ->
  (forall a, In a x -> power_sum c' a == power_sum p a) ->
  scaled_norm x (MinNorm.candidate x deg p) <= scaled_norm x c'.
Proof.
  intros Hne Hok Htest Hlen Hfit.
  assert (Hsame : forall a, In a x ->
            power_sum (MinNorm.candidate x deg p) a == power_sum p a).
  { unfold MinNorm.same_fit in Htest. apply andb_prop in Htest.
    destruct Htest as [_ Hv]. rewrite forallb_forall in Hv.
    intros a Ha. rewrite <- !polyval1_power_sum.
    apply Qeq_bool_iff, Hv, Ha. }
  set (E := rev (seq 0 (S deg))).
  set (z := MinNorm.nodes x).
  set (l := MinNorm.solve (length z)
              (map (fun a => map (MinNorm.kernel x E a) z ++ [polyval1 p a])
                 z)).
  set (T := fun e : nat =>
              qsum (map (fun al : Q * Q => qpow (fst al) e * snd al)
                      (combine z l))).
  set (g := fun e : nat => Qred (T e / MinNorm.weight x e)).
  assert (Hcand : MinNorm.candidate x deg p = map g E) by reflexivity.
  set (h := fun e : nat => nth (S deg - 1 - e) c' 0).
  assert (Hc' : c' = map h E)
    by (symmetry; apply coefficients_by_exponent; exact Hlen).
  assert (Hw : forall e, In e E -> ~ MinNorm.weight x e == 0).
  { intros e He. apply weight_nonzero; [exact Hne | ].
    destruct Hok as [H0 | Hnz]; [left | right; exact Hnz].
    apply In_exps in He. lia. }
  (* the cross term *)
  assert (Hcross : qsum (map (fun e => T e * (h e - g e)) E) == 0).
  { unfold T.
    rewrite (qsum_map_ext _
               (fun e => qsum (map (fun al : Q * Q =>
                                      (h e - g e)
                                      * (qpow (fst al) e * snd al))
                                 (combine z l))) E)
      by (intros e _; rewrite qsum_map_scale; ring).
    rewrite (qsum_swap
               (fun e (al : Q * Q) =>
                  (h e - g e) * (qpow (fst al) e * snd al)) E).
    apply qsum_map_zero. intros [a lam] Hal. cbn [fst snd].
    assert (Ha : In a x) by (apply nodes_In; eapply in_combine_l; exact Hal).
    rewrite (qsum_map_ext _
               (fun e => lam * (h e * qpow a e) + - lam * (g e * qpow a e)) E)
      by (intros e _; ring).
    rewrite qsum_map_plus, !qsum_map_scale.
    unfold E. rewrite <- !power_sum_map. fold E.
    rewrite <- Hc', <- Hcand, (Hfit a Ha), (Hsame a Ha). ring. }
  rewrite Hcand, Hc' at 1. clear Hc'. unfold E.
  rewrite !scaled_norm_map. fold E.
  assert (Hsplit :
    qsum (map (fun e => MinNorm.weight x e * (h e * h e)) E)
    == qsum (map (fun e => MinNorm.weight x e * (g e * g e)) E)
       + (qsum (map (fun e => MinNorm.weight x e
                              * ((h e - g e) * (h e - g e))) E)
          + 2 * qsum (map (fun e => T e * (h e - g e)) E))).
  { rewrite <- qsum_map_scale, <- !qsum_map_plus.
    apply qsum_map_ext. intros e He.
    assert (HT : T e == MinNorm.weight x e * g e).
    { unfold g. rewrite Qred_correct. field. apply Hw. exact He. }
    rewrite HT. ring. }
  rewrite Hsplit, Hcross.
  assert (Hsq : 0 <= qsum (map (fun e => MinNorm.weight x e
                                         * ((h e - g e) * (h e - g e))) E)).
  { apply qsum_map_nonneg. intros e _.
    apply Qmult_le_0_compat; [apply weight_nonneg | ].
    generalize (h e - g e). intros d. nra. }
  lra.
Qed.

Lemma polyval_values (p q : list Q) : forall x,
  Forall2 Qeq (polyval p x) (polyval q x) ->
  forall a, In a x -> power_sum p a == power_sum q a.
Proof.
  induction x as [ | b x IH]; intros H a Ha; [contradiction | ].
  cbn [polyval map] in H. inversion H as [ | ? ? ? ? Hb Hx]; subst.
  destruct Ha as [<- | Ha].
  - rewrite <- !polyval1_power_sum. exact Hb.
  - apply IH; assumption.
Qed.

(** With fewer different abscissae than coefficients, and the candidate
    passing its test, [lstsq_polyfit] returns the least-squares fit of
    least scaled norm, the one [numpy.polyfit] returns. *)
Lemma lstsq_polyfit_least_norm (x y : list Q) (deg : nat) (c' : list Q) :
  x <> [] -> length x = length y -> deg = 0%nat \/ ~ all_zero x ->
  (length (MinNorm.nodes x) <= deg)%nat ->
  MinNorm.same_fit x (rev (Lstsq.lsq (combine x y) (S deg) snd))
    (MinNorm.candidate x deg (rev (Lstsq.lsq (combine x y) (S deg) snd)))
  = true ->
  least_squares x y deg c' ->
  exists c, lstsq_polyfit x y deg = Ok c /\
            least_squares x y deg c /\
            scaled_norm x c <= scaled_norm x c'.
Proof.
  intros Hne Hlen Hok Hrank Htest Hls'.
  destruct (lstsq_polyfit_contract x y deg) as (_ & _ & _ & Hfit).
  destruct (Hfit Hne Hlen Hok) as [c [Hc Hls]].
  exists c. split; [exact Hc | split; [exact Hls | ]].
  set (p0 := rev (Lstsq.lsq (combine x y) (S deg) snd)) in *.
  assert (Hcand : c = MinNorm.candidate x deg p0).
  { revert Hc. unfold lstsq_polyfit. destruct x as [ | a x]; [congruence | ].
    rewrite Hlen, Nat.eqb_refl.
    destruct (negb (deg =? 0)%nat && forallb (fun v => Qeq_bool v 0) (a :: x));
      [discriminate | ].
    fold p0. unfold MinNorm.least_norm.
    destruct (Nat.leb_spec (S deg) (length (MinNorm.nodes (a :: x))));
      [lia | ].
    rewrite Htest. congruence. }
  rewrite Hcand.
  apply candidate_least_norm; try assumption.
  - apply Hls'.
  - intros a Ha.
    assert (Hp0 : forall b, In b x -> power_sum c b == power_sum p0 b).
    { rewrite Hcand. unfold MinNorm.same_fit in Htest.
      apply andb_prop in Htest. destruct Htest as [_ Hv].
      rewrite forallb_forall in Hv. intros b Hb.
      rewrite <- !polyval1_power_sum. apply Qeq_bool_iff, Hv, Hb. }
    rewrite <- (Hp0 a Ha).
    apply (polyval_values c' c x); [ | exact Ha].
    apply (least_squares_fit_unique x y deg); assumption.
Qed.

(** The two accepted points of the envelope example: the test passes. *)
Example lstsq_polyfit_least_norm_two_points (c' : list Q) :
  least_squares [-1; 1] [0; 2] 4 c' ->
  scaled_norm [-1; 1] [1 # 3; 1 # 2; 1 # 3; 1 # 2; 1 # 3]
  <= scaled_norm [-1; 1] c'.
Proof.
  intros Hls.
  destruct (lstsq_polyfit_least_norm [-1; 1] [0; 2] 4 c')
    as (c & Hc & _ & Hmin); try reflexivity; try assumption.
  - discriminate.
  - right. intros H. inversion H as [ | ? ? H1 _]. discriminate H1.
  - cbn. lia.
  - vm_compute in Hc. injection Hc as <-. exact Hmin.
Qed.
